(** * Recipe segmentation and chunking pipeline of [01_data_preparation.ipynb]

    The notebook is a straight-line script over two data frames (the pages of
    the book and its table of contents) followed by a loop that cuts every
    recipe description into chunks.  The development below embeds

    - cell 3 / cell 4: the dtype that [pd.DataFrame] infers for the
      [page_number] column of the two frames;
    - cell 5 / cell 6: the two boolean-mask filters ([level == 2],
      [between(23, 449)]);
    - cell 7: [sort_values], [pd.merge_asof(direction='backward')],
      [groupby('title', sort=False)] and the [' '.join];
    - cell 9: [RecursiveCharacterTextSplitter(chunk_size=1000,
      chunk_overlap=100).split_text] and the loop building the documents.

    Python strings are sequences of Unicode code points, so a string is a list
    of code points; Python integers are unbounded, so they are [Z]. *)

From Stdlib Require Import ZArith NArith List Bool Lia Permutation Sorted.
From Stdlib Require Import Ascii.
From Stdlib Require String.
Import String.StringSyntax.
Delimit Scope string_scope with string.
Import ListNotations.
Open Scope Z_scope.

(** ** Python strings *)

Definition char := N.
Definition str := list char.

(** A string literal of the notebook (ASCII only) as a Python string. *)
Definition lit (s : String.string) : str :=
  map N_of_ascii (String.list_ascii_of_string s).

Fixpoint str_eqb (a b : str) : bool :=
  match a, b with
  | [], [] => true
  | x :: a', y :: b' => N.eqb x y && str_eqb a' b'
  | _, _ => false
  end.

(** [len(s)] *)
Definition len (s : str) : Z := Z.of_nat (length s).

(** [sep.join(l)] *)
Fixpoint join (sep : str) (l : list str) : str :=
  match l with
  | [] => []
  | x :: rest =>
      match rest with
      | [] => x
      | _ :: _ => x ++ sep ++ join sep rest
      end
  end.

(** ** The data frames

    A frame is the list of its rows, in row order; [reset_index(drop=True)]
    renumbers the rows and changes nothing else.  The values have the types
    they have in the notebook's run: integers for page numbers and levels,
    strings for titles and texts.  The dtype of the [page_number] column, which
    [merge_asof] looks at, is kept beside the rows. *)

(** A row of [book_df]: columns [page_number], [text]. *)
Record BookRow := { page_number : Z; text : str }.

(** A row of [doc_toc]: columns [level], [title], [page_number] (the last one
    is [toc_page_number] here, to tell it from the column of [book_df]). *)
Record TocRow := { level : Z; title : str; toc_page_number : Z }.

(** A row of [recipes_combined]: columns [recipe], [description]. *)
Record Recipe := { recipe : str; description : str }.

(** The dtype of a [page_number] column. *)
Inductive dtype := int64 | object.

(** [pd.DataFrame(book_pdf)] and [pd.DataFrame(doc.get_toc(), columns=...)]
    infer the dtype of a column from its values: [int64] for a column of
    Python integers, [object] for a column that holds no value at all.  The
    boolean indexing of cells 5 and 6, [reset_index] and [sort_values] keep
    the dtype of the frame they are applied to, rows or no rows. *)
Definition inferred_dtype {A : Type} (data : list A) : dtype :=
  match data with
  | [] => object
  | _ :: _ => int64
  end.

(** [Series.between(lo, hi)], inclusive on both sides. *)
Definition between (lo hi x : Z) : bool := (lo <=? x) && (x <=? hi).

(** [df.sort_values(col)] with pandas' default [kind='quicksort']: the result
    holds the same rows, in non-decreasing order of the column.  The default
    kind is not a stable sort, so nothing is promised about the relative order
    of rows with equal keys; the interface records exactly what is promised. *)
Class SortValues := {
  sort_values : forall {A : Type}, (A -> Z) -> list A -> list A;
  sort_values_perm :
    forall (A : Type) (key : A -> Z) (l : list A),
      Permutation (sort_values key l) l;
  sort_values_sorted :
    forall (A : Type) (key : A -> Z) (l : list A),
      StronglySorted (fun x y => key x <= key y) (sort_values key l)
}.

(** One sorter meeting the interface: insertion sort, each row going in front
    of the rows after it that have the same key, which keeps equal keys in
    their original order. *)
Fixpoint insert_by {A : Type} (key : A -> Z) (x : A) (l : list A) : list A :=
  match l with
  | [] => [x]
  | y :: l' => if key x <=? key y then x :: l else y :: insert_by key x l'
  end.

Fixpoint insertion_sort {A : Type} (key : A -> Z) (l : list A) : list A :=
  match l with
  | [] => []
  | x :: l' => insert_by key x (insertion_sort key l')
  end.

(** Another one: each row goes past the rows after it that have the same key,
    which puts equal keys in the reverse of their original order. *)
Fixpoint insert_past {A : Type} (key : A -> Z) (x : A) (l : list A) : list A :=
  match l with
  | [] => [x]
  | y :: l' => if key x <? key y then x :: l else y :: insert_past key x l'
  end.

Fixpoint reversing_sort {A : Type} (key : A -> Z) (l : list A) : list A :=
  match l with
  | [] => []
  | x :: l' => insert_past key x (reversing_sort key l')
  end.

(** [Series.is_monotonic_increasing]: what [merge_asof] checks of both keys. *)
Fixpoint is_monotonic {A : Type} (key : A -> Z) (l : list A) : bool :=
  match l with
  | [] => true
  | x :: rest =>
      match rest with
      | [] => true
      | y :: _ => (key x <=? key y) && is_monotonic key rest
      end
  end.

Fixpoint last_opt {A : Type} (l : list A) : option A :=
  match l with
  | [] => None
  | x :: rest => match rest with [] => Some x | _ :: _ => last_opt rest end
  end.

(** The backward search of [merge_asof]: the last row of the right frame whose
    key is less than or equal to the left key ([allow_exact_matches=True]). *)
Definition asof_backward (right : list TocRow) (k : Z) : option TocRow :=
  last_opt (filter (fun r => toc_page_number r <=? k) right).

(** [pd.merge_asof(left, right, on='page_number', direction='backward')]: a
    left join, one output row per left row, in the order of the left frame; the
    right columns are missing (NaN) where no right row matches.  It raises
    [MergeError] when the two key columns have not the same dtype, or have a
    dtype that is not numeric, and [ValueError] when a key column is not
    sorted; an exception is [None] here. *)
Definition merge_asof (left_dtype right_dtype : dtype)
  (left : list BookRow) (right : list TocRow)
  : option (list (BookRow * option TocRow)) :=
  match left_dtype, right_dtype with
  | int64, int64 =>
      if is_monotonic page_number left && is_monotonic toc_page_number right
      then Some (map (fun l => (l, asof_backward right (page_number l))) left)
      else None
  | _, _ => None
  end.

(** [groupby(key, sort=False)]: groups are listed in the order in which their
    key first appears, rows keep their order inside a group, and rows whose key
    is missing are left out ([dropna=True], the default). *)
Fixpoint add_to_group {V : Type} (k : str) (v : V) (groups : list (str * list V))
  : list (str * list V) :=
  match groups with
  | [] => [(k, [v])]
  | (k', vs) :: rest =>
      if str_eqb k k' then (k', vs ++ [v]) :: rest
      else (k', vs) :: add_to_group k v rest
  end.

Definition groupby_step {V : Type} (groups : list (str * list V))
  (row : option str * V) : list (str * list V) :=
  match fst row with
  | None => groups
  | Some k => add_to_group k (snd row) groups
  end.

Definition groupby {V : Type} (rows : list (option str * V)) : list (str * list V) :=
  fold_left groupby_step rows [].

(** ** Cells 5 to 7 *)

(** Cell 5: [doc_toc[doc_toc['level'] == 2].reset_index(drop=True)]; the level
    is a parameter here, the notebook passes 2. *)
Definition recipes_toc (recipe_level : Z) (doc_toc : list TocRow) : list TocRow :=
  filter (fun r => level r =? recipe_level) doc_toc.

(** Cell 6: [book_df[book_df['page_number'].between(23, 449)]]; the bounds are
    parameters here, the notebook passes 23 and 449. *)
Definition recipes_df (first_page last_page : Z) (book_df : list BookRow)
  : list BookRow :=
  filter (fun p => between first_page last_page (page_number p)) book_df.

Section Cell7.
Context {sorter : SortValues}.

(** [merged], from the two frames of cells 5 and 6: their rows and the dtypes
    of their [page_number] columns. *)
Definition merged (pages_dtype toc_dtype : dtype)
  (pages : list BookRow) (toc : list TocRow)
  : option (list (BookRow * option TocRow)) :=
  merge_asof pages_dtype toc_dtype
    (sort_values page_number pages) (sort_values toc_page_number toc).

(** [merged.groupby('title', sort=False)], keeping whole rows in the groups
    (the notebook goes on with their [text] column only). *)
Definition grouped (rows : list (BookRow * option TocRow))
  : list (str * list BookRow) :=
  groupby (map (fun row => (option_map title (snd row), fst row)) rows).

(** [['text'].apply(lambda texts: ' '.join(texts)).reset_index().rename(...)] *)
Definition join_texts (groups : list (str * list BookRow)) : list Recipe :=
  map (fun g => {| recipe := fst g;
                   description := join (lit " "%string) (map text (snd g)) |}) groups.

Definition recipes_combined (pages_dtype toc_dtype : dtype)
  (pages : list BookRow) (toc : list TocRow)
  : option (list Recipe) :=
  option_map (fun rows => join_texts (grouped rows))
    (merged pages_dtype toc_dtype pages toc).
End Cell7.

(** The whole of cells 3 to 7, from the extracted pages and outline:
    [book_df] and [doc_toc] are the rows handed to [pd.DataFrame], from which
    the dtypes come; the frames of cells 5 and 6 inherit them. *)
Definition pipeline {sorter : SortValues} (recipe_level first_page last_page : Z)
  (book_df : list BookRow) (doc_toc : list TocRow) : option (list Recipe) :=
  recipes_combined (inferred_dtype book_df) (inferred_dtype doc_toc)
                   (recipes_df first_page last_page book_df)
                   (recipes_toc recipe_level doc_toc).

Definition notebook_recipes {sorter : SortValues}
  (book_df : list BookRow) (doc_toc : list TocRow) : option (list Recipe) :=
  pipeline 2 23 449 book_df doc_toc.

(** The frame [merged] of cell 7 alone. *)
Definition merged_frame {sorter : SortValues}
  (recipe_level first_page last_page : Z)
  (book_df : list BookRow) (doc_toc : list TocRow)
  : option (list (BookRow * option TocRow)) :=
  merged (inferred_dtype book_df) (inferred_dtype doc_toc)
         (recipes_df first_page last_page book_df)
         (recipes_toc recipe_level doc_toc).

(** ** Cell 9: the text splitter

    [RecursiveCharacterTextSplitter] comes from the [langchain_text_splitters]
    package; the notebook builds it with [chunk_size=1000] and
    [chunk_overlap=100], and every other constructor argument keeps the default
    of the package: [separators = ["\n\n", "\n", " ", ""]],
    [keep_separator=True], [is_separator_regex=False], [length_function=len]
    and [strip_whitespace=True].  The definitions follow the methods of the
    package that [split_text] runs ([_split_text], [_split_text_with_regex],
    [_merge_splits], [_join_docs]), one definition per method or loop. *)

(** A failing Python statement ([IndexError]) is [None]. *)
Definition bind {A B : Type} (m : option A) (f : A -> option B) : option B :=
  match m with
  | Some a => f a
  | None => None
  end.

Notation "x <- m ;; k" := (bind m (fun x => k))
  (at level 61, m at next level, right associativity).

(** [str.isspace] on one code point: the white-space code points of Unicode. *)
Definition isspace (c : char) : bool :=
  ((9 <=? c) && (c <=? 13) || (28 <=? c) && (c <=? 32) || (c =? 133)
   || (c =? 160) || (c =? 5760) || (8192 <=? c) && (c <=? 8202)
   || (c =? 8232) || (c =? 8233) || (c =? 8239) || (c =? 8287)
   || (c =? 12288))%N.

Fixpoint lstrip (s : str) : str :=
  match s with
  | [] => []
  | c :: rest => if isspace c then lstrip rest else s
  end.

Definition rstrip (s : str) : str := rev (lstrip (rev s)).

(** [s.strip()] *)
Definition strip (s : str) : str := rstrip (lstrip s).

Definition is_empty {A : Type} (l : list A) : bool :=
  match l with
  | [] => true
  | _ :: _ => false
  end.

(** [text.startswith(sep)] *)
Fixpoint startswith (sep text : str) : bool :=
  match sep with
  | [] => true
  | a :: sep' =>
      match text with
      | [] => false
      | c :: text' => N.eqb a c && startswith sep' text'
      end
  end.

(** [re.search(re.escape(sep), text)]: does the literal [sep] occur in [text]? *)
Fixpoint search (sep text : str) : bool :=
  startswith sep text
  || match text with
     | [] => false
     | _ :: text' => search sep text'
     end.

(** [re.split(re.escape(sep), text)] for a non-empty literal [sep]: the pieces
    between the occurrences of [sep], found from left to right without overlap.
    [skip] counts the characters of a matched separator still to pass over;
    [piece] is the piece being read. *)
Fixpoint re_split_from (sep : str) (skip : nat) (piece text : str) : list str :=
  match text with
  | [] => [piece]
  | c :: rest =>
      match skip with
      | S k => re_split_from sep k piece rest
      | O =>
          if startswith sep text
          then piece :: re_split_from sep (pred (length sep)) [] rest
          else re_split_from sep O (piece ++ [c]) rest
      end
  end.

Definition re_split (sep text : str) : list str := re_split_from sep 0 [] text.

(** [_split_text_with_regex(text, separator, keep_separator)].  With
    [keep_separator] the pattern is [(separator)], whose [re.split] result
    alternates pieces and separators, [p0, sep, p1, sep, ..., pn]; the code
    glues every separator to the piece after it and puts [p0] in front.
    Empty strings are dropped at the end. *)
Definition _split_text_with_regex (text separator : str) (keep_separator : bool)
  : list str :=
  let splits :=
    if is_empty separator then map (fun c => [c]) text
    else if keep_separator then
      match re_split separator text with
      | [] => []
      | p0 :: ps => p0 :: map (fun p => separator ++ p) ps
      end
    else re_split separator text in
  filter (fun s => negb (is_empty s)) splits.

Definition _strip_whitespace : bool := true.
Definition _keep_separator : bool := true.

(** [TextSplitter._join_docs(docs, separator)]: [separator.join(docs)],
    stripped, and [None] when nothing is left. *)
Definition _join_docs (docs : list str) (separator : str) : option str :=
  let text := join separator docs in
  let text := if _strip_whitespace then strip text else text in
  if is_empty text then None else Some text.

Definition opt_list {A : Type} (o : option A) : list A :=
  match o with
  | Some a => [a]
  | None => []
  end.

(** The state of the loop of [_merge_splits]. *)
Record MergeState := {
  docs : list str;
  current_doc : list str;
  total : Z
}.

Section Splitter.
Variable _chunk_size : Z.
Variable _chunk_overlap : Z.

(** The condition of the [while] loop of [_merge_splits]:
    [total > self._chunk_overlap or (total + _len + (separator_len if
    len(current_doc) > 0 else 0) > self._chunk_size and total > 0)]. *)
Definition keep_popping (separator_len _len : Z) (current_doc : list str)
  (total : Z) : bool :=
  (_chunk_overlap <? total)
  || ((_chunk_size <?
         total + _len + (if is_empty current_doc then 0 else separator_len))
      && (0 <? total)).

(** The [while] loop of [_merge_splits]: while the condition holds,
    [total -= len(current_doc[0]) + (separator_len if len(current_doc) > 1
    else 0)] and [current_doc = current_doc[1:]].  [current_doc[0]] on an
    empty list raises [IndexError]. *)
Fixpoint pop_front (separator_len _len : Z) (current_doc : list str)
  (total : Z) : option (list str * Z) :=
  match current_doc with
  | [] =>
      if keep_popping separator_len _len [] total then None
      else Some ([], total)
  | d0 :: rest =>
      if keep_popping separator_len _len current_doc total
      then pop_front separator_len _len rest
             (total - (len d0 + (if is_empty rest then 0 else separator_len)))
      else Some (current_doc, total)
  end.

(** One turn of the [for d in splits] loop of [_merge_splits]: when
    [total + _len + (separator_len if len(current_doc) > 0 else 0) >
    self._chunk_size] and [current_doc] is not empty, [current_doc] is joined
    into a chunk, which is appended to [docs] unless it is [None], and the
    [while] loop runs; then [d] is appended to [current_doc] and counted in
    [total].  (The warning logged when [total > self._chunk_size] changes
    nothing.) *)
Definition merge_step (separator : str) (st : MergeState) (d : str)
  : option MergeState :=
  let separator_len := len separator in
  let _len := len d in
  st1 <- (if _chunk_size <?
               total st + _len
               + (if is_empty (current_doc st) then 0 else separator_len)
          then
            if is_empty (current_doc st) then Some st
            else
              let docs1 :=
                docs st ++ opt_list (_join_docs (current_doc st) separator) in
              r <- pop_front separator_len _len (current_doc st) (total st) ;;
              Some {| docs := docs1; current_doc := fst r; total := snd r |}
          else Some st) ;;
  (* [current_doc.append(d)], then [total] grows by the separator too when
     [current_doc] now holds more than one string *)
  Some {| docs := docs st1;
          current_doc := current_doc st1 ++ [d];
          total := total st1 + _len
                   + (if is_empty (current_doc st1) then 0 else separator_len) |}.

Fixpoint merge_loop (separator : str) (splits : list str) (st : MergeState)
  : option MergeState :=
  match splits with
  | [] => Some st
  | d :: rest =>
      st1 <- merge_step separator st d ;;
      merge_loop separator rest st1
  end.

(** [TextSplitter._merge_splits(splits, separator)]: the loop from [docs = []],
    [current_doc = []], [total = 0], then the last [current_doc] joined into a
    chunk, appended unless it is [None]. *)
Definition _merge_splits (splits : list str) (separator : str)
  : option (list str) :=
  st <- merge_loop separator splits
          {| docs := []; current_doc := []; total := 0 |} ;;
  Some (docs st ++ opt_list (_join_docs (current_doc st) separator)).

(** [if _good_splits: final_chunks.extend(self._merge_splits(...))] *)
Definition flush_good (separator : str) (final_chunks _good_splits : list str)
  : option (list str) :=
  if is_empty _good_splits then Some final_chunks
  else
    merged_text <- _merge_splits _good_splits separator ;;
    Some (final_chunks ++ merged_text).

(** The [for s in splits] loop of [_split_text] with what follows it: a split
    with [len(s) < self._chunk_size] joins [_good_splits]; for any other split
    the good splits are merged and appended first, then the split itself is
    appended ([if not new_separators]) or what [self._split_text(s,
    new_separators)] returns for it.  [recur] is [None] when [new_separators]
    is empty and the recursive call on [new_separators] otherwise. *)
Fixpoint split_loop (recur : option (str -> option (list str)))
  (separator : str) (splits final_chunks _good_splits : list str)
  : option (list str) :=
  match splits with
  | [] => flush_good separator final_chunks _good_splits
  | s :: rest =>
      if len s <? _chunk_size
      then split_loop recur separator rest final_chunks (_good_splits ++ [s])
      else
        final_chunks1 <- flush_good separator final_chunks _good_splits ;;
        final_chunks2 <-
          match recur with
          | None => Some (final_chunks1 ++ [s])
          | Some call =>
              other_info <- call s ;;
              Some (final_chunks1 ++ other_info)
          end ;;
        split_loop recur separator rest final_chunks2 []
  end.

(** Everything [_split_text] does once [separator] and [new_separators] are
    chosen. *)
Definition split_with (recur : option (str -> option (list str)))
  (separator text : str) : option (list str) :=
  let splits := _split_text_with_regex text separator _keep_separator in
  let _separator := if _keep_separator then [] else separator in
  split_loop recur _separator splits [] [].

(** [RecursiveCharacterTextSplitter._split_text].  The [for] loop that looks
    for the separator walks down [separators], and the recursive call is on
    the separators after the chosen one, so one structural recursion does
    both: going on with the loop from a non-empty rest is the call on that
    rest (the fall-back [separators[-1]] is the same).  [_split_text_unfold]
    below states the method as the source writes it.  [separators[-1]] on an
    empty list raises [IndexError]. *)
Fixpoint _split_text (separators : list str) (text : str)
  : option (list str) :=
  match separators with
  | [] => None
  | _s :: rest =>
      if is_empty _s then split_with None _s text
      else if search _s text then
        split_with (match rest with
                    | [] => None
                    | _ :: _ => Some (_split_text rest)
                    end) _s text
      else
        match rest with
        | [] => split_with None _s text
        | _ :: _ => _split_text rest text
        end
  end.

(** The search for the separator as the source writes it: the [for] loop with
    its two [break]s ... *)
Fixpoint pick_loop (separators : list str) (text : str)
  : option (str * list str) :=
  match separators with
  | [] => None
  | _s :: rest =>
      if is_empty _s then Some (_s, [])
      else if search _s text then Some (_s, rest)
      else pick_loop rest text
  end.

(** ... after [separator = separators[-1]] and [new_separators = []]. *)
Definition pick_separator (separators : list str) (text : str)
  : option (str * list str) :=
  last <- last_opt separators ;;
  Some (match pick_loop separators text with
        | Some found => found
        | None => (last, [])
        end).

End Splitter.

(** The default [separators]: ["\n\n", "\n", " ", ""]. *)
Definition newline : char := 10%N.
Definition space : char := 32%N.

Definition _separators : list str :=
  [[newline; newline]; [newline]; [space]; []].

(** [TextSplitter.__init__(chunk_size, chunk_overlap)]: the checks made on
    the two sizes before they are stored, each raising [ValueError] ([None]
    here): [chunk_size <= 0], [chunk_overlap < 0] and [chunk_overlap >
    chunk_size]. *)
Definition __init__ (chunk_size chunk_overlap : Z) : option (Z * Z) :=
  if chunk_size <=? 0 then None
  else if chunk_overlap <? 0 then None
  else if chunk_size <? chunk_overlap then None
  else Some (chunk_size, chunk_overlap).

(** [RecursiveCharacterTextSplitter(chunk_size=..., chunk_overlap=...)
    .split_text(text)]: the splitter is built, then [split_text] calls
    [_split_text] on the default separators. *)
Definition split_text (chunk_size chunk_overlap : Z) (text : str)
  : option (list str) :=
  self <- __init__ chunk_size chunk_overlap ;;
  _split_text (fst self) (snd self) _separators text.

(** [splitter = RecursiveCharacterTextSplitter(chunk_size=1000,
    chunk_overlap=100)] *)
Definition splitter_split_text : str -> option (list str) :=
  split_text 1000 100.

(** A LangChain [Document]: [page_content] and the [recipe] entry of its
    [metadata]. *)
Record Document := { page_content : str; metadata_recipe : str }.

(** The body of [for _, row in recipes_combined.iterrows()]: the documents
    appended for one row. *)
Definition row_documents (row : Recipe) : option (list Document) :=
  chunks <- splitter_split_text (description row) ;;
  Some (map (fun chunk => {| page_content := chunk;
                             metadata_recipe := recipe row |}) chunks).

(** The loop of cell 9, from [docs = []]. *)
Fixpoint build_docs (rows : list Recipe) (docs : list Document)
  : option (list Document) :=
  match rows with
  | [] => Some docs
  | row :: rest =>
      new_docs <- row_documents row ;;
      build_docs rest (docs ++ new_docs)
  end.

(** ** Notions used to state the properties *)

(** *** On the frames *)

(** The keys of a column in the order of their first appearance. *)
Fixpoint first_seen (keys : list str) : list str :=
  match keys with
  | [] => []
  | k :: rest => k :: filter (fun k' => negb (str_eqb k k')) (first_seen rest)
  end.

(** The present keys of the rows handed to [groupby], in row order. *)
Definition present_keys {V : Type} (rows : list (option str * V)) : list str :=
  flat_map (fun row => opt_list (fst row)) rows.

Definition has_key {V : Type} (k : str) (row : option str * V) : bool :=
  match fst row with
  | Some k' => str_eqb k k'
  | None => false
  end.

(** The rows of one group. *)
Definition members {V : Type} (k : str) (rows : list (option str * V)) : list V :=
  map snd (filter (has_key k) rows).

Definition mem (k : str) (keys : list str) : bool := existsb (str_eqb k) keys.

(** The frame of groups that [groupby] builds, described directly. *)
Definition groups_of {V : Type} (rows : list (option str * V))
  : list (str * list V) :=
  map (fun k => (k, members k rows)) (first_seen (present_keys rows)).

(** [s] is the texts put in a row with one space between a text and the
    next, and nothing else. *)
Inductive single_spaced : list str -> str -> Prop :=
| spaced_none : single_spaced [] []
| spaced_last (t : str) : single_spaced [t] t
| spaced_next (t t' : str) (rest : list str) (s : str) :
    single_spaced (t' :: rest) s ->
    single_spaced (t :: t' :: rest) (t ++ space :: s).

(** The two frames as [merge_asof] receives them. *)
Definition sorted_pages {sorter : SortValues} (first_page last_page : Z)
  (book_df : list BookRow) : list BookRow :=
  sort_values page_number (recipes_df first_page last_page book_df).

Definition sorted_toc {sorter : SortValues} (recipe_level : Z)
  (doc_toc : list TocRow) : list TocRow :=
  sort_values toc_page_number (recipes_toc recipe_level doc_toc).

(** The [title] column of the merged row of a page. *)
Definition resolved_title (toc : list TocRow) (p : BookRow) : option str :=
  option_map title (asof_backward toc (page_number p)).

Definition titled (k : str) (o : option str) : bool :=
  match o with
  | Some k' => str_eqb k k'
  | None => false
  end.

(** The pages of [pages] whose merged row has title [k], in the order of
    [pages]. *)
Definition pages_titled (toc : list TocRow) (pages : list BookRow) (k : str)
  : list BookRow :=
  filter (fun p => titled k (resolved_title toc p)) pages.

(** The groups of pages behind the recipes: [recipes_combined] before the
    texts of a group are joined. *)
Definition assignment {sorter : SortValues} (recipe_level first_page last_page : Z)
  (book_df : list BookRow) (doc_toc : list TocRow)
  : option (list (str * list BookRow)) :=
  option_map grouped
    (merged_frame recipe_level first_page last_page book_df doc_toc).

(** Is there a recipe-level outline entry at or before page [n]? *)
Definition has_boundary (recipe_level : Z) (doc_toc : list TocRow) (n : Z) : bool :=
  existsb (fun b => (level b =? recipe_level) && (toc_page_number b <=? n)) doc_toc.

(** *** On the splitter *)

(** A string with its white space removed: two strings that differ only in
    white space have the same image. *)
Definition squeeze (s : str) : str := filter (fun c => negb (isspace c)) s.

(** [s] without its last [k] characters. *)
Definition drop_last (k : nat) (s : str) : str := firstn (length s - k) s.

(** The fragments with the last [k] characters of every fragment but the last
    one removed, [k] taken from [cuts] fragment by fragment. *)
Fixpoint trim_overlaps (cuts : list nat) (frags : list str) : list str :=
  match frags with
  | [] => []
  | f :: rest =>
      match rest with
      | [] => [f]
      | _ :: _ => drop_last (hd 0%nat cuts) f :: trim_overlaps (tl cuts) rest
      end
  end.

(** A fragment of the right size: not empty, at most [chunk_size] long. *)
Definition fits (chunk_size : Z) (f : str) : Prop := 0 < len f <= chunk_size.

(** The fragments with the last [k] characters of every fragment removed, the
    last fragment included. *)
Definition cut_each (cuts : list nat) (frags : list str) : list str :=
  map (fun kf => drop_last (fst kf) (snd kf)) (List.combine cuts frags).

(** [text] is the pieces in order, with nothing but white space before, between
    and after them. *)
Inductive up_to_gaps : list str -> str -> Prop :=
| gaps_end (w : str) :
    squeeze w = [] -> up_to_gaps [] w
| gaps_piece (w p : str) (pieces : list str) (text : str) :
    squeeze w = [] -> up_to_gaps pieces text ->
    up_to_gaps (p :: pieces) (w ++ p ++ text).

(** The fragments give back [text], white space between them apart, once an
    overlap of at most [chunk_overlap] characters is cut from the end of each
    of them, and nothing from the last one. *)
Definition reconstructs (chunk_overlap : Z) (frags : list str) (text : str)
  : Prop :=
  exists cuts : list nat,
    length cuts = length frags
    /\ Forall (fun k => Z.of_nat k <= chunk_overlap) cuts
    /\ last cuts 0%nat = 0%nat
    /\ up_to_gaps (cut_each cuts frags) text.

(** What holds of the state of the merging loop once the splits making up
    [consumed] are read: the chunks emitted so far, each with an overlap cut
    from its end, give back the part of [consumed] in front of [current_doc]. *)
Definition overlap_invariant (chunk_overlap : Z) (st : MergeState)
  (consumed : str) : Prop :=
  total st = len (concat (current_doc st))
  /\ exists (cuts : list nat) (x : str),
       length cuts = length (docs st)
       /\ Forall (fun k => Z.of_nat k <= chunk_overlap) cuts
       /\ up_to_gaps (cut_each cuts (docs st)) x
       /\ (squeeze (concat (current_doc st)) = [] -> last cuts 0%nat = 0%nat)
       /\ x ++ concat (current_doc st) = consumed.

(** A list of separators whose last one is the empty string, as the default
    list is: the last resort is to cut between characters. *)
Definition ends_with_empty (separators : list str) : Prop :=
  exists front, separators = front ++ [[]].

(** The separator that the default list yields for a text, with the separators
    left for the recursive calls. *)
Definition default_pick (text : str) : str * list str :=
  if search [newline; newline] text then ([newline; newline], [[newline]; [space]; []])
  else if search [newline] text then ([newline], [[space]; []])
  else if search [space] text then ([space], [[]])
  else ([], []).

(** The separators in the order in which the specification lists them, with
    ". " for the sentence-ending punctuation followed by a space. *)
Definition claimed_separators : list str :=
  [[newline; newline]; [newline]; lit ". "%string; [space]; []].

(** ** Sample inputs *)

(** Small frames on which the statements are tried. *)
Definition page (n : Z) (s : String.string) : BookRow :=
  {| page_number := n; text := lit s |}.

Definition entry (l : Z) (t : String.string) (n : Z) : TocRow :=
  {| level := l; title := lit t; toc_page_number := n |}.

(** A book of five pages whose only recipe starts on page 25. *)
Definition late_start_book : list BookRow :=
  [page 22 "front"; page 23 "intro"; page 24 "photo"; page 25 "Soup";
   page 26 "Boil."]%string.

Definition late_start_toc : list TocRow :=
  [entry 1 "Brunch" 21; entry 2 "Soup" 25]%string.

(** A book in which the title "Eggs" is used at pages 23 and 27, around
    "Cake" at page 25. *)
Definition repeated_title_book : list BookRow :=
  [page 23 "e1"; page 24 "e2"; page 25 "c1"; page 26 "c2"; page 27 "e3";
   page 28 "e4"]%string.

Definition repeated_title_toc : list TocRow :=
  [entry 2 "Eggs" 23; entry 2 "Cake" 25; entry 2 "Eggs" 27]%string.

(** An outline in which "Front" and "Eggs" both start on page 23. *)
Definition tied_book : list BookRow :=
  [page 23 "p23"; page 24 "p24"; page 25 "p25"; page 26 "p26"]%string.

Definition tied_toc : list TocRow :=
  [entry 2 "Front" 23; entry 1 "Part" 23; entry 2 "Eggs" 23;
   entry 2 "Cake" 25]%string.

(** An outline of eighteen recipes, three pages apart, in page order, except
    that "Kale" starts on page 47 like "Iced Tea" before it. *)
Definition long_outline : list TocRow :=
  [entry 2 "Ash" 23; entry 2 "Bun" 26; entry 2 "Cod" 29; entry 2 "Dal" 32;
   entry 2 "Egg" 35; entry 2 "Fig" 38; entry 2 "Gin" 41; entry 2 "Ham" 44;
   entry 2 "Iced Tea" 47; entry 2 "Kale" 47; entry 2 "Lox" 53;
   entry 2 "Mint" 56; entry 2 "Nuts" 59; entry 2 "Oats" 62; entry 2 "Peas" 65;
   entry 2 "Rice" 68; entry 2 "Soup" 71; entry 2 "Tart" 74]%string.

Definition long_outline_book : list BookRow :=
  [page 46 "p46"; page 47 "p47"; page 48 "p48"]%string.

(** Texts on which the statements on the splitter are tried. *)

(** Two words of 600 letters with a space between them. *)
Definition two_long_words : str :=
  repeat 97%N 600 ++ [space] ++ repeat 98%N 600.

(** A word of twelve letters between two short ones. *)
Definition long_word_text : str := lit "aa bbbbbbbbbbbb cc"%string.

(** [n] times the word [w], with single spaces between. *)
Definition words (n : nat) (w : str) : str :=
  w ++ concat (repeat (space :: w) (pred n)).

(** Two sentences of 120 four-letter words each, 599 characters long each,
    with ". " between them. *)
Definition sentence_a : str := words 120 (lit "aaaa"%string).
Definition sentence_b : str := words 120 (lit "bbbb"%string).
Definition two_sentences : str := sentence_a ++ lit ". "%string ++ sentence_b.

(** ** The notebook from cell 5 to cell 9 *)

(** The documents that cell 9 builds from the recipes of cell 7: the loop
    starts from [docs = []] and goes through [recipes_combined] row by row. *)
Definition notebook_documents {sorter : SortValues}
  (book_df : list BookRow) (doc_toc : list TocRow) : option (list Document) :=
  recipes <- notebook_recipes book_df doc_toc ;;
  build_docs recipes [].

(** ** Further notions used to state properties *)

(** [a] occurs in [b] as a run of consecutive characters. *)
Definition infix (a b : str) : Prop := exists front back, b = front ++ a ++ back.

(** What the loop of cell 9 appends for one row; nothing if the splitter
    were to fail on it. *)
Definition documents_of (row : Recipe) : list Document :=
  match row_documents row with
  | Some new_docs => new_docs
  | None => []
  end.

(** A book and an outline in which no two pages and no two recipe-level
    entries share a page number. *)
Definition plain_book : list BookRow :=
  [page 22 "front"; page 23 "Eggs"; page 24 "Beat."; page 25 "Cake";
   page 26 "Bake."; page 27 "Cool."]%string.

Definition plain_toc : list TocRow :=
  [entry 1 "Brunch" 21; entry 2 "Eggs" 23; entry 2 "Cake" 25;
   entry 2 "Feast" 450]%string.

(** In [rows], the rows that have a same key stand next to one another: between
    two rows of key [t] every row has key [t]. *)
Definition in_blocks {A : Type} (f : A -> option str) (rows : list A) : Prop :=
  forall l1 x l2 y l3 t,
    rows = l1 ++ x :: l2 ++ y :: l3 ->
    f x = Some t -> f y = Some t ->
    forall z, In z l2 -> f z = Some t.

Definition is_some {A : Type} (o : option A) : bool :=
  match o with
  | Some _ => true
  | None => false
  end.


(** [doc] is a chunk made of consecutive splits: some run of [splits], joined
    and stripped, and not empty. *)
Definition stripped_run (splits : list str) (doc : str) : Prop :=
  exists front run back,
    splits = front ++ run ++ back /\ doc = strip (concat run) /\ doc <> [].

(** A chunk without white space at either end. *)
Definition stripped (f : str) : Prop := strip f = f.
(** ** Facts about the modelled operations *)

Lemma str_eqb_eq (a b : str) : str_eqb a b = true <-> a = b.
Proof.
  revert b; induction a as [|x a IH]; intros [|y b]; simpl;
    try (split; [discriminate | congruence]); try tauto.
  rewrite andb_true_iff, N.eqb_eq, IH.
  split; [intros [-> ->]; reflexivity | intros H; inversion H; auto].
Qed.

Lemma str_eqb_refl (a : str) : str_eqb a a = true.
Proof. apply str_eqb_eq; reflexivity. Qed.

Lemma str_eqb_neq (a b : str) : str_eqb a b = false <-> a <> b.
Proof.
  rewrite <- str_eqb_eq. destruct (str_eqb a b); split; congruence.
Qed.

Lemma str_eqb_sym (a b : str) : str_eqb a b = str_eqb b a.
Proof.
  destruct (str_eqb a b) eqn:E; symmetry.
  - apply str_eqb_eq. apply str_eqb_eq in E. congruence.
  - apply str_eqb_neq. apply str_eqb_neq in E. congruence.
Qed.

(** *** Sorting *)

Lemma is_monotonic_sorted {A : Type} (key : A -> Z) (l : list A) :
  StronglySorted (fun x y => key x <= key y) l -> is_monotonic key l = true.
Proof.
  induction 1 as [|x l Hs IH Hx]; [reflexivity|].
  simpl. destruct l as [|y l']; [reflexivity|].
  rewrite IH, andb_true_r. apply Z.leb_le.
  inversion Hx; assumption.
Qed.

Lemma insert_by_perm {A : Type} (key : A -> Z) (x : A) (l : list A) :
  Permutation (insert_by key x l) (x :: l).
Proof.
  induction l as [|y l IH]; simpl; [reflexivity|].
  destruct (key x <=? key y); [reflexivity|].
  rewrite IH. apply perm_swap.
Qed.

Lemma insert_by_sorted {A : Type} (key : A -> Z) (x : A) (l : list A) :
  StronglySorted (fun a b => key a <= key b) l ->
  StronglySorted (fun a b => key a <= key b) (insert_by key x l).
Proof.
  induction 1 as [|y l Hs IH Hy]; simpl.
  - constructor; constructor.
  - destruct (key x <=? key y) eqn:E.
    + apply Z.leb_le in E. constructor.
      * constructor; assumption.
      * constructor; [lia|].
        eapply Forall_impl; [|exact Hy]. simpl; intros; lia.
    + apply Z.leb_gt in E. constructor; [assumption|].
      eapply Permutation_Forall; [symmetry; apply insert_by_perm|].
      constructor; [lia | assumption].
Qed.

Lemma insert_past_perm {A : Type} (key : A -> Z) (x : A) (l : list A) :
  Permutation (insert_past key x l) (x :: l).
Proof.
  induction l as [|y l IH]; simpl; [reflexivity|].
  destruct (key x <? key y); [reflexivity|].
  rewrite IH. apply perm_swap.
Qed.

Lemma insert_past_sorted {A : Type} (key : A -> Z) (x : A) (l : list A) :
  StronglySorted (fun a b => key a <= key b) l ->
  StronglySorted (fun a b => key a <= key b) (insert_past key x l).
Proof.
  induction 1 as [|y l Hs IH Hy]; simpl.
  - constructor; constructor.
  - destruct (key x <? key y) eqn:E.
    + apply Z.ltb_lt in E. constructor.
      * constructor; assumption.
      * constructor; [lia|].
        eapply Forall_impl; [|exact Hy]. simpl; intros; lia.
    + apply Z.ltb_ge in E. constructor; [assumption|].
      eapply Permutation_Forall; [symmetry; apply insert_past_perm|].
      constructor; assumption.
Qed.

(** Insertion sort is a sorter in the sense of [SortValues]. *)
#[export] Instance stable_sorter : SortValues.
Proof.
  refine {| sort_values := @insertion_sort |}.
  - intros A key l. induction l as [|x l IH]; simpl; [reflexivity|].
    rewrite insert_by_perm. constructor; exact IH.
  - intros A key l. induction l as [|x l IH]; simpl; [constructor|].
    apply insert_by_sorted; exact IH.
Defined.

(** So is the sort that reverses equal keys. *)
Definition reversing_sorter : SortValues.
Proof.
  refine {| sort_values := @reversing_sort |}.
  - intros A key l. induction l as [|x l IH]; simpl; [reflexivity|].
    rewrite insert_past_perm. constructor; exact IH.
  - intros A key l. induction l as [|x l IH]; simpl; [constructor|].
    apply insert_past_sorted; exact IH.
Defined.

(** *** The backward search *)

Lemma last_opt_None {A : Type} (l : list A) : last_opt l = None <-> l = [].
Proof.
  induction l as [|x l IH]; simpl; [tauto|].
  destruct l as [|y l']; [split; discriminate|].
  rewrite IH. split; discriminate.
Qed.

Lemma last_opt_app {A : Type} (l : list A) (x : A) : last_opt (l ++ [x]) = Some x.
Proof.
  induction l as [|y l IH]; [reflexivity|].
  simpl. destruct (l ++ [x]) eqn:E; [destruct l; discriminate|exact IH].
Qed.

Lemma last_opt_Some {A : Type} (l : list A) (x : A) :
  last_opt l = Some x <-> exists l', l = l' ++ [x].
Proof.
  split.
  - intros H.
    assert (Hne : l <> []) by (intros ->; discriminate).
    destruct (exists_last Hne) as (l' & y & ->).
    rewrite last_opt_app in H. injection H as ->. eauto.
  - intros (l' & ->). apply last_opt_app.
Qed.

Lemma filter_last_split {A : Type} (f : A -> bool) (l l' : list A) (x : A) :
  filter f l = l' ++ [x] ->
  exists l1 l2, l = l1 ++ x :: l2 /\ f x = true /\ filter f l2 = [].
Proof.
  revert l'. induction l as [|y l IH]; intros l' H; simpl in H.
  - destruct l'; discriminate.
  - destruct (f y) eqn:Ey.
    + destruct l' as [|z l'']; simpl in H.
      * injection H as -> Hf. exists [], l. auto.
      * injection H as -> Hf. destruct (IH _ Hf) as (l1 & l2 & -> & Hx & H2).
        exists (z :: l1), l2. auto.
    + destruct (IH _ H) as (l1 & l2 & -> & Hx & H2).
      exists (y :: l1), l2. auto.
Qed.

(** What [merge_asof] finds for the key [k] in a sorted right frame: a row at
    or before [k], after which every row is beyond [k]. *)
Lemma asof_backward_Some (right : list TocRow) (k : Z) (b : TocRow) :
  asof_backward right k = Some b ->
  exists l1 l2, right = l1 ++ b :: l2 /\ toc_page_number b <= k
                /\ Forall (fun r => k < toc_page_number r) l2.
Proof.
  unfold asof_backward. intros H. apply last_opt_Some in H as (l' & H).
  apply filter_last_split in H as (l1 & l2 & -> & Hb & H2).
  exists l1, l2. split; [reflexivity|]. split; [apply Z.leb_le; exact Hb|].
  apply Forall_forall. intros r Hr.
  destruct (toc_page_number r <=? k) eqn:E; [|apply Z.leb_gt; exact E].
  assert (In r (filter (fun r => toc_page_number r <=? k) l2))
    by (apply filter_In; auto).
  rewrite H2 in H. contradiction.
Qed.

Lemma asof_backward_greatest (right : list TocRow) (k : Z) (b : TocRow) :
  StronglySorted (fun x y => toc_page_number x <= toc_page_number y) right ->
  asof_backward right k = Some b ->
  In b right /\ toc_page_number b <= k
  /\ forall b', In b' right -> toc_page_number b' <= k ->
                toc_page_number b' <= toc_page_number b.
Proof.
  intros Hs H. apply asof_backward_Some in H as (l1 & l2 & -> & Hb & H2).
  split; [apply in_elt|]. split; [exact Hb|].
  intros b' Hin Hk. apply in_app_or in Hin as [Hin|[->|Hin]]; [|lia|].
  - clear - Hs Hin. induction l1 as [|y l1 IH]; [contradiction|].
    inversion Hs as [|? ? Hs' Hall]; subst.
    destruct Hin as [->|Hin]; [|apply IH; assumption].
    rewrite Forall_forall in Hall. apply Hall, in_elt.
  - rewrite Forall_forall in H2. specialize (H2 _ Hin). lia.
Qed.

Lemma asof_backward_None (right : list TocRow) (k : Z) :
  asof_backward right k = None <->
  forall b, In b right -> k < toc_page_number b.
Proof.
  unfold asof_backward. rewrite last_opt_None. split.
  - intros H b Hb.
    destruct (toc_page_number b <=? k) eqn:E; [|apply Z.leb_gt; exact E].
    assert (In b (filter (fun r => toc_page_number r <=? k) right))
      by (apply filter_In; auto).
    rewrite H in H0. contradiction.
  - intros H. destruct (filter _ right) as [|b l] eqn:E; [reflexivity|].
    assert (Hin : In b (filter (fun r => toc_page_number r <=? k) right))
      by (rewrite E; left; reflexivity).
    apply filter_In in Hin as [Hin Hle]. apply Z.leb_le in Hle.
    specialize (H _ Hin). lia.
Qed.

(** *** Grouping *)

Lemma mem_In (k : str) (keys : list str) : mem k keys = true <-> In k keys.
Proof.
  unfold mem. rewrite existsb_exists. split.
  - intros (x & Hx & E). apply str_eqb_eq in E. subst. exact Hx.
  - intros H. exists k. split; [exact H | apply str_eqb_refl].
Qed.

Lemma first_seen_In (k : str) (keys : list str) :
  In k (first_seen keys) <-> In k keys.
Proof.
  induction keys as [|x keys IH]; simpl; [tauto|].
  rewrite filter_In, IH, negb_true_iff, str_eqb_neq.
  destruct (list_eq_dec N.eq_dec x k); intuition congruence.
Qed.

Lemma first_seen_NoDup (keys : list str) : NoDup (first_seen keys).
Proof.
  induction keys as [|x keys IH]; simpl; constructor.
  - rewrite filter_In, negb_true_iff, str_eqb_neq. intros [_ H]. congruence.
  - apply NoDup_filter. exact IH.
Qed.

Lemma first_seen_snoc (keys : list str) (k : str) :
  first_seen (keys ++ [k]) =
  if mem k keys then first_seen keys else first_seen keys ++ [k].
Proof.
  induction keys as [|x keys IH]; simpl; [reflexivity|].
  rewrite IH. rewrite (str_eqb_sym k x).
  destruct (str_eqb x k) eqn:E; simpl.
  - apply str_eqb_eq in E. subst x.
    destruct (mem k keys); [reflexivity|].
    rewrite filter_app. simpl. rewrite str_eqb_refl. simpl.
    rewrite app_nil_r. reflexivity.
  - destruct (mem k keys); [reflexivity|].
    rewrite filter_app. simpl. rewrite E. reflexivity.
Qed.

Lemma add_to_group_present {V : Type} (k : str) (v : V) (keys : list str)
  (f : str -> list V) :
  In k keys ->
  NoDup keys ->
  add_to_group k v (map (fun k' => (k', f k')) keys) =
  map (fun k' => (k', if str_eqb k k' then f k' ++ [v] else f k')) keys.
Proof.
  induction keys as [|x keys IH]; intros Hin Hnd; [contradiction|].
  inversion Hnd as [|? ? Hx Hnd']; subst. simpl.
  destruct (str_eqb k x) eqn:E.
  - f_equal. apply map_ext_in. intros k' Hk'.
    apply str_eqb_eq in E. subst x.
    destruct (str_eqb k k') eqn:E'; [|reflexivity].
    apply str_eqb_eq in E'. subst k'. contradiction.
  - f_equal. apply IH; [|exact Hnd'].
    destruct Hin as [->|Hin]; [|exact Hin].
    rewrite str_eqb_refl in E. discriminate.
Qed.

Lemma add_to_group_absent {V : Type} (k : str) (v : V) (keys : list str)
  (f : str -> list V) :
  ~ In k keys ->
  add_to_group k v (map (fun k' => (k', f k')) keys) =
  map (fun k' => (k', f k')) keys ++ [(k, [v])].
Proof.
  induction keys as [|x keys IH]; intros Hin; [reflexivity|].
  simpl. destruct (str_eqb k x) eqn:E.
  - apply str_eqb_eq in E. subst x. exfalso. apply Hin. left; reflexivity.
  - f_equal. apply IH. intros H. apply Hin. right; exact H.
Qed.

Lemma members_snoc {V : Type} (k : str) (rows : list (option str * V))
  (row : option str * V) :
  members k (rows ++ [row]) =
  if has_key k row then members k rows ++ [snd row] else members k rows.
Proof.
  unfold members. rewrite filter_app. simpl.
  destruct (has_key k row); rewrite ?map_app, ?app_nil_r; reflexivity.
Qed.

Lemma members_absent {V : Type} (k : str) (rows : list (option str * V)) :
  ~ In k (present_keys rows) -> members k rows = [].
Proof.
  intros H. unfold members.
  replace (filter (has_key k) rows) with (@nil (option str * V)); [reflexivity|].
  symmetry. induction rows as [|[o v] rows IH]; [reflexivity|].
  simpl. unfold present_keys in H. simpl in H.
  unfold has_key at 1. simpl. destruct o as [k'|]; simpl in H.
  - destruct (str_eqb k k') eqn:E.
    + apply str_eqb_eq in E. subst. exfalso. apply H. left; reflexivity.
    + apply IH. intros Hin. apply H. right; exact Hin.
  - apply IH. exact H.
Qed.

Lemma groupby_step_groups_of {V : Type} (rows : list (option str * V))
  (row : option str * V) :
  groupby_step (groups_of rows) row = groups_of (rows ++ [row]).
Proof.
  unfold groupby_step, groups_of, present_keys.
  rewrite flat_map_app. simpl. rewrite app_nil_r.
  fold (present_keys rows).
  destruct row as [[k|] v]; simpl.
  - rewrite first_seen_snoc. destruct (mem k (present_keys rows)) eqn:M.
    + apply mem_In in M.
      rewrite add_to_group_present;
        [|apply first_seen_In; exact M|apply first_seen_NoDup].
      apply map_ext. intros k'. rewrite members_snoc.
      unfold has_key. simpl. rewrite (str_eqb_sym k' k). reflexivity.
    + assert (Hn : ~ In k (present_keys rows))
        by (rewrite <- mem_In, M; discriminate).
      rewrite add_to_group_absent by (rewrite first_seen_In; exact Hn).
      rewrite map_app. simpl. f_equal.
      * apply map_ext_in. intros k' Hk'. rewrite members_snoc.
        unfold has_key. simpl. destruct (str_eqb k' k) eqn:E; [|reflexivity].
        apply str_eqb_eq in E. subst k'.
        rewrite first_seen_In in Hk'. exfalso. exact (Hn Hk').
      * rewrite members_snoc. unfold has_key. simpl. rewrite str_eqb_refl.
        rewrite members_absent by exact Hn. reflexivity.
  - rewrite app_nil_r. apply map_ext. intros k'. rewrite members_snoc.
    reflexivity.
Qed.

(** [groupby(sort=False)] lists the keys in first-seen order, each with its
    rows in row order. *)
Lemma groupby_groups_of {V : Type} (rows : list (option str * V)) :
  groupby rows = groups_of rows.
Proof.
  unfold groupby.
  enough (H : forall rows0, fold_left groupby_step rows (groups_of rows0)
                            = groups_of (rows0 ++ rows))
    by (apply (H [])).
  induction rows as [|row rows IH]; intros rows0; simpl.
  - rewrite app_nil_r. reflexivity.
  - rewrite groupby_step_groups_of, IH, <- app_assoc. reflexivity.
Qed.

(** *** Cells 5 to 7 as one function *)

Section Cell7Facts.
Context {sorter : SortValues}.

Lemma inferred_dtype_int64 {A : Type} (data : list A) :
  data <> [] -> inferred_dtype data = int64.
Proof. destruct data; [congruence | reflexivity]. Qed.

Lemma merged_Some (pages : list BookRow) (toc : list TocRow) :
  merged int64 int64 pages toc =
  Some (map (fun p => (p, asof_backward (sort_values toc_page_number toc)
                            (page_number p)))
            (sort_values page_number pages)).
Proof.
  unfold merged, merge_asof.
  rewrite !is_monotonic_sorted by apply sort_values_sorted.
  reflexivity.
Qed.

Lemma members_map {V : Type} (g : V -> option str) (k : str) (l : list V) :
  members k (map (fun p => (g p, p)) l) = filter (fun p => titled k (g p)) l.
Proof.
  unfold members. induction l as [|p l IH]; [reflexivity|].
  simpl. unfold has_key at 1. simpl. fold (titled k (g p)).
  destruct (titled k (g p)); simpl; rewrite IH; reflexivity.
Qed.

Lemma grouped_merged (toc : list TocRow) (pages : list BookRow) :
  grouped (map (fun p => (p, asof_backward toc (page_number p))) pages) =
  map (fun k => (k, pages_titled toc pages k))
      (first_seen (flat_map (fun p => opt_list (resolved_title toc p)) pages)).
Proof.
  unfold grouped. rewrite groupby_groups_of. unfold groups_of.
  rewrite map_map. simpl.
  assert (Hk : present_keys
                 (map (fun p => (option_map title (asof_backward toc (page_number p)), p))
                      pages)
               = flat_map (fun p => opt_list (resolved_title toc p)) pages).
  { unfold present_keys. rewrite flat_map_concat_map, map_map.
    rewrite <- flat_map_concat_map. reflexivity. }
  rewrite Hk. apply map_ext. intros k. f_equal.
  apply (members_map (fun p => option_map title (asof_backward toc (page_number p)))).
Qed.

Lemma assignment_eq (recipe_level first_page last_page : Z)
  (book_df : list BookRow) (doc_toc : list TocRow) :
  book_df <> [] -> doc_toc <> [] ->
  assignment recipe_level first_page last_page book_df doc_toc =
  Some (map (fun k => (k, pages_titled (sorted_toc recipe_level doc_toc)
                            (sorted_pages first_page last_page book_df) k))
            (first_seen
               (flat_map (fun p => opt_list
                                     (resolved_title (sorted_toc recipe_level doc_toc) p))
                         (sorted_pages first_page last_page book_df)))).
Proof.
  intros Hbook Htoc. unfold assignment, merged_frame.
  rewrite !inferred_dtype_int64 by assumption.
  rewrite merged_Some. simpl.
  rewrite grouped_merged. reflexivity.
Qed.

Lemma pipeline_assignment (recipe_level first_page last_page : Z)
  (book_df : list BookRow) (doc_toc : list TocRow) :
  pipeline recipe_level first_page last_page book_df doc_toc =
  option_map join_texts
    (assignment recipe_level first_page last_page book_df doc_toc).
Proof.
  unfold pipeline, recipes_combined, assignment, merged_frame.
  destruct (merged _ _ _ _); reflexivity.
Qed.

(** The rows of the sorted outline are the recipe-level rows of the outline. *)
Lemma sorted_toc_In (recipe_level : Z) (doc_toc : list TocRow) (b : TocRow) :
  In b (sorted_toc recipe_level doc_toc) <->
  In b doc_toc /\ level b = recipe_level.
Proof.
  unfold sorted_toc, recipes_toc. split.
  - intros H. apply (Permutation_in _ (sort_values_perm _ _ _)) in H.
    apply filter_In in H as [H E]. apply Z.eqb_eq in E. auto.
  - intros [H E].
    apply (Permutation_in _ (Permutation_sym (sort_values_perm _ _ _))).
    apply filter_In. split; [exact H | apply Z.eqb_eq; exact E].
Qed.

Lemma sorted_pages_In (first_page last_page : Z) (book_df : list BookRow)
  (p : BookRow) :
  In p (sorted_pages first_page last_page book_df) <->
  In p book_df /\ between first_page last_page (page_number p) = true.
Proof.
  unfold sorted_pages, recipes_df. split.
  - intros H. apply (Permutation_in _ (sort_values_perm _ _ _)) in H.
    apply filter_In in H. exact H.
  - intros H.
    apply (Permutation_in _ (Permutation_sym (sort_values_perm _ _ _))).
    apply filter_In. exact H.
Qed.

Lemma asof_has_boundary (recipe_level : Z) (doc_toc : list TocRow) (n : Z) :
  has_boundary recipe_level doc_toc n =
  match asof_backward (sorted_toc recipe_level doc_toc) n with
  | Some _ => true
  | None => false
  end.
Proof.
  destruct (asof_backward _ n) as [b|] eqn:E.
  - apply asof_backward_Some in E as (l1 & l2 & Hsplit & Hle & _).
    assert (Hin : In b (sorted_toc recipe_level doc_toc))
      by (rewrite Hsplit; apply in_elt).
    apply sorted_toc_In in Hin as [Hin Hl].
    apply existsb_exists. exists b. split; [exact Hin|].
    apply andb_true_iff. split; [apply Z.eqb_eq | apply Z.leb_le]; assumption.
  - rewrite asof_backward_None in E.
    apply not_true_is_false. intros H.
    apply existsb_exists in H as (b & Hin & Hb).
    apply andb_true_iff in Hb as [Hl Hle].
    apply Z.eqb_eq in Hl. apply Z.leb_le in Hle.
    specialize (E b (proj2 (sorted_toc_In _ _ _) (conj Hin Hl))). lia.
Qed.
End Cell7Facts.

(** *** Every row lands in the group of its key *)

Lemma Permutation_filter_in {A : Type} (f : A -> bool) (l l' : list A) :
  Permutation l l' -> Permutation (filter f l) (filter f l').
Proof.
  induction 1 as [|x l l' H IH|x y l|l l' l'' H1 IH1 H2 IH2]; simpl.
  - constructor.
  - destruct (f x); [constructor|]; exact IH.
  - destruct (f x), (f y); try reflexivity. apply perm_swap.
  - etransitivity; eassumption.
Qed.

Lemma filter_filter_and {A : Type} (f g : A -> bool) (l : list A) :
  filter f (filter g l) = filter (fun x => g x && f x) l.
Proof.
  induction l as [|x l IH]; [reflexivity|].
  simpl. destruct (g x); simpl; [destruct (f x)|]; rewrite IH; reflexivity.
Qed.

Lemma flat_map_ext_in {A B : Type} (f g : A -> list B) (l : list A) :
  (forall a, In a l -> f a = g a) -> flat_map f l = flat_map g l.
Proof.
  induction l as [|a l IH]; intros H; [reflexivity|].
  simpl. rewrite (H a (or_introl eq_refl)), IH; [reflexivity|].
  intros b Hb. apply H. right; exact Hb.
Qed.

Lemma flat_map_cons_at {A : Type} (k0 : str) (x : A) (f : str -> list A)
  (keys : list str) :
  In k0 keys -> NoDup keys ->
  Permutation (flat_map (fun k => if str_eqb k k0 then x :: f k else f k) keys)
              (x :: flat_map f keys).
Proof.
  induction keys as [|k keys IH]; intros Hin Hnd; [contradiction|].
  inversion Hnd as [|? ? Hk Hnd']; subst. simpl.
  destruct (str_eqb k k0) eqn:E.
  - apply str_eqb_eq in E. subst k0. simpl. constructor.
    apply Permutation_app_head.
    apply Permutation_refl'. apply flat_map_ext_in. intros k1 Hk1.
    destruct (str_eqb k1 k) eqn:E1; [|reflexivity].
    apply str_eqb_eq in E1. subst. contradiction.
  - destruct Hin as [->|Hin]; [rewrite str_eqb_refl in E; discriminate|].
    rewrite (IH Hin Hnd'). symmetry. apply Permutation_middle.
Qed.

Lemma groups_partition (toc : list TocRow) (pages : list BookRow)
  (keys : list str) :
  NoDup keys ->
  (forall p k, In p pages -> resolved_title toc p = Some k -> In k keys) ->
  Permutation (flat_map (pages_titled toc pages) keys)
              (filter (fun p => match resolved_title toc p with
                                | Some _ => true
                                | None => false
                                end) pages).
Proof.
  intros Hnd. induction pages as [|p pages IH]; intros Hkeys.
  - simpl. clear. induction keys; simpl; auto.
  - assert (IH' := IH (fun q k Hq => Hkeys q k (or_intror Hq))). clear IH.
    simpl. destruct (resolved_title toc p) as [k0|] eqn:E.
    + rewrite <- IH'.
      rewrite <- (flat_map_cons_at k0 p (pages_titled toc pages) keys);
        [|apply (Hkeys p); [left; reflexivity | exact E]|exact Hnd].
      apply Permutation_refl'. apply flat_map_ext. intros k.
      unfold pages_titled. simpl. rewrite E. simpl. reflexivity.
    + rewrite <- IH'. apply Permutation_refl'. apply flat_map_ext. intros k.
      unfold pages_titled. simpl. rewrite E. simpl. reflexivity.
Qed.

(** *** Frames without equal keys

    Where no two rows have the same key the contract of [sort_values] leaves
    one result only, so every sorter returns the same frame. *)

Lemma sorted_perm_unique {A : Type} (key : A -> Z) (l1 l2 : list A) :
  StronglySorted (fun x y => key x <= key y) l1 ->
  StronglySorted (fun x y => key x <= key y) l2 ->
  Permutation l1 l2 ->
  NoDup (map key l1) ->
  l1 = l2.
Proof.
  intros H1. revert l2. induction H1 as [|x l1 Hs1 IH Hx]; intros l2 H2 Hp Hnd.
  - apply Permutation_nil in Hp. congruence.
  - destruct l2 as [|y l2].
    { apply Permutation_sym, Permutation_nil in Hp. discriminate. }
    inversion H2 as [|? ? Hs2 Hy]; subst.
    inversion Hnd as [|? ? Hnx Hnd']; subst.
    assert (Hxy : x = y).
    { assert (Hyin : In y (x :: l1))
        by (apply (Permutation_in _ (Permutation_sym Hp)); left; reflexivity).
      destruct Hyin as [E|Hyin]; [exact E|].
      assert (Hxin : In x (y :: l2))
        by (apply (Permutation_in _ Hp); left; reflexivity).
      destruct Hxin as [E|Hxin]; [congruence|].
      rewrite Forall_forall in Hx, Hy.
      specialize (Hx _ Hyin). specialize (Hy _ Hxin).
      exfalso. apply Hnx. replace (key x) with (key y) by lia.
      apply in_map. exact Hyin. }
    subst y. f_equal. apply IH; [exact Hs2| |exact Hnd'].
    apply Permutation_cons_inv in Hp. exact Hp.
Qed.

Lemma sort_values_distinct_keys (s1 s2 : SortValues) {A : Type} (key : A -> Z)
  (l : list A) :
  NoDup (map key l) ->
  @sort_values s1 A key l = @sort_values s2 A key l.
Proof.
  intros Hnd. apply (sorted_perm_unique key).
  - apply sort_values_sorted.
  - apply sort_values_sorted.
  - rewrite !sort_values_perm. reflexivity.
  - eapply Permutation_NoDup; [|exact Hnd].
    apply Permutation_map, Permutation_sym, sort_values_perm.
Qed.

(** ** Assignment of pages to recipes *)

Section Assignment.
Context {sorter : SortValues}.
Variables recipe_level first_page last_page : Z.
Variable book_df : list BookRow.
Variable doc_toc : list TocRow.

Let T := sorted_toc recipe_level doc_toc.
Let P := sorted_pages first_page last_page book_df.
Let keys := first_seen (flat_map (fun p => opt_list (resolved_title T p)) P).
Let groups := map (fun k => (k, pages_titled T P k)) keys.

Lemma groups_assignment :
  book_df <> [] -> doc_toc <> [] ->
  assignment recipe_level first_page last_page book_df doc_toc = Some groups.
Proof. apply assignment_eq. Qed.

Lemma groups_pipeline :
  book_df <> [] -> doc_toc <> [] ->
  pipeline recipe_level first_page last_page book_df doc_toc =
  Some (join_texts groups).
Proof.
  intros Hbook Htoc.
  rewrite pipeline_assignment, groups_assignment by assumption. reflexivity.
Qed.

Lemma groups_keys : map fst groups = keys.
Proof.
  unfold groups. rewrite map_map. simpl. apply map_id.
Qed.

Lemma groups_NoDup : NoDup (map fst groups).
Proof. rewrite groups_keys. apply first_seen_NoDup. Qed.

Lemma groups_In (g : str * list BookRow) :
  In g groups <-> In (fst g) keys /\ snd g = pages_titled T P (fst g).
Proof.
  unfold groups. rewrite in_map_iff. split.
  - intros (k & <- & Hk). auto.
  - intros [Hk E]. exists (fst g). split; [|exact Hk].
    destruct g; simpl in *; congruence.
Qed.

Lemma pages_titled_In (k : str) (p : BookRow) :
  In p (pages_titled T P k) <-> In p P /\ resolved_title T p = Some k.
Proof.
  unfold pages_titled. rewrite filter_In.
  destruct (resolved_title T p) as [k'|]; simpl.
  - rewrite str_eqb_eq. intuition congruence.
  - intuition discriminate.
Qed.

Lemma keys_In (k : str) :
  In k keys <-> exists p, In p P /\ resolved_title T p = Some k.
Proof.
  unfold keys. rewrite first_seen_In, in_flat_map. split.
  - intros (p & Hp & Hk). exists p. split; [exact Hp|].
    destruct (resolved_title T p); simpl in Hk; [|contradiction].
    destruct Hk as [->|[]]. reflexivity.
  - intros (p & Hp & E). exists p. split; [exact Hp|].
    rewrite E. left; reflexivity.
Qed.

Lemma group_of_page (p : BookRow) (k : str) :
  In p P -> resolved_title T p = Some k ->
  In (k, pages_titled T P k) groups /\ In p (pages_titled T P k).
Proof.
  intros Hp E. split.
  - apply groups_In. simpl. split; [|reflexivity].
    apply keys_In. eauto.
  - apply pages_titled_In. auto.
Qed.

Lemma groups_members :
  Permutation (flat_map snd groups)
    (filter (fun p => between first_page last_page (page_number p)
                      && has_boundary recipe_level doc_toc (page_number p))
            book_df).
Proof.
  unfold groups. rewrite flat_map_concat_map, map_map. simpl.
  rewrite <- flat_map_concat_map.
  rewrite (groups_partition T P keys (first_seen_NoDup _)).
  2:{ intros p k Hp E. apply keys_In. eauto. }
  unfold P, sorted_pages.
  rewrite (Permutation_filter_in _ _ _ (sort_values_perm _ page_number _)).
  unfold recipes_df. rewrite filter_filter_and. apply Permutation_refl'.
  apply filter_ext. intros p. rewrite asof_has_boundary.
  unfold resolved_title. fold T.
  destruct (asof_backward T (page_number p)); reflexivity.
Qed.

Lemma groups_disjoint (g g' : str * list BookRow) (p : BookRow) :
  In g groups -> In g' groups -> In p (snd g) -> In p (snd g') -> g = g'.
Proof.
  intros Hg Hg' Hp Hp'.
  apply groups_In in Hg as [_ Eg]. apply groups_In in Hg' as [_ Eg'].
  rewrite Eg in Hp. rewrite Eg' in Hp'.
  apply pages_titled_In in Hp as [_ E]. apply pages_titled_In in Hp' as [_ E'].
  destruct g as [k ps], g' as [k' ps']. simpl in *.
  assert (k = k') by congruence. subst. reflexivity.
Qed.

Lemma pages_titled_sorted (k : str) :
  StronglySorted (fun a b => page_number a <= page_number b) (pages_titled T P k).
Proof.
  unfold pages_titled.
  assert (Hs : StronglySorted (fun a b => page_number a <= page_number b) P)
    by apply sort_values_sorted.
  induction Hs as [|p l Hs IH Hp]; simpl; [constructor|].
  destruct (titled k (resolved_title T p)); [|exact IH].
  constructor; [exact IH|].
  apply Forall_forall. intros q Hq. apply filter_In in Hq as [Hq _].
  rewrite Forall_forall in Hp. apply Hp. exact Hq.
Qed.
End Assignment.

(** Without a page, or without an outline entry, [merge_asof] raises. *)
Lemma pipeline_None_iff (sorter : SortValues)
  (recipe_level first_page last_page : Z)
  (book_df : list BookRow) (doc_toc : list TocRow) :
  pipeline recipe_level first_page last_page book_df doc_toc = None
  <-> book_df = [] \/ doc_toc = [].
Proof.
  split.
  - intros H. destruct book_df as [|p book]; [left; reflexivity|].
    destruct doc_toc as [|b toc]; [right; reflexivity|].
    rewrite groups_pipeline in H by discriminate. discriminate.
  - unfold pipeline, recipes_combined, merged, merge_asof.
    intros [-> | ->]; [reflexivity|].
    destruct (inferred_dtype book_df); reflexivity.
Qed.

Lemma pipeline_Some_nonempty (sorter : SortValues)
  (recipe_level first_page last_page : Z)
  (book_df : list BookRow) (doc_toc : list TocRow) (recipes : list Recipe) :
  pipeline recipe_level first_page last_page book_df doc_toc = Some recipes ->
  book_df <> [] /\ doc_toc <> [].
Proof.
  intros H. split; intros E;
    assert (N : pipeline recipe_level first_page last_page book_df doc_toc = None)
      by (apply pipeline_None_iff; auto);
    congruence.
Qed.

Lemma In_nonempty {A : Type} (x : A) (l : list A) : In x l -> l <> [].
Proof. intros H E. rewrite E in H. contradiction. Qed.


(** ** Notions of the statements *)

Lemma infix_refl (a : str) : infix a a.
Proof. exists [], []. rewrite app_nil_r. reflexivity. Qed.

Lemma infix_app_l (a b c : str) : infix a b -> infix a (b ++ c).
Proof.
  intros (front & back & ->). exists front, (back ++ c).
  rewrite <- !app_assoc. reflexivity.
Qed.

Lemma infix_app_r (a b c : str) : infix a c -> infix a (b ++ c).
Proof.
  intros (front & back & ->). exists (b ++ front), back.
  rewrite <- !app_assoc. reflexivity.
Qed.

Lemma infix_trans (a b c : str) : infix a b -> infix b c -> infix a c.
Proof.
  intros (f1 & b1 & ->) (f2 & b2 & ->). exists (f2 ++ f1), (b1 ++ b2).
  rewrite <- !app_assoc. reflexivity.
Qed.

(** Every joined string occurs in the result of [join]. *)
Lemma infix_join (sep x : str) (l : list str) : In x l -> infix x (join sep l).
Proof.
  induction l as [|y l IH]; intros Hin; [contradiction|].
  simpl. destruct l as [|z l'].
  - destruct Hin as [->|[]]. apply infix_refl.
  - destruct Hin as [->|Hin].
    + apply infix_app_l, infix_refl.
    + apply infix_app_r, infix_app_r, IH, Hin.
Qed.

Lemma between_true (lo hi x : Z) : between lo hi x = true <-> lo <= x <= hi.
Proof. unfold between. rewrite andb_true_iff, !Z.leb_le. tauto. Qed.

Lemma NoDup_map_eq {A B : Type} (g : A -> B) (l : list A) (a b : A) :
  NoDup (map g l) -> In a l -> In b l -> g a = g b -> a = b.
Proof.
  induction l as [|x l IH]; intros Hnd Ha Hb E; [contradiction|].
  simpl in Hnd. inversion Hnd as [|? ? Hx Hnd']; subst.
  destruct Ha as [->|Ha], Hb as [->|Hb].
  - reflexivity.
  - exfalso. apply Hx. rewrite E. apply in_map. exact Hb.
  - exfalso. apply Hx. rewrite <- E. apply in_map. exact Ha.
  - apply IH; assumption.
Qed.

Lemma has_boundary_iff (recipe_level : Z) (doc_toc : list TocRow) (n : Z) :
  has_boundary recipe_level doc_toc n = true
  <-> exists b, In b doc_toc /\ level b = recipe_level /\ toc_page_number b <= n.
Proof.
  unfold has_boundary. rewrite existsb_exists. split.
  - intros (b & Hb & H). apply andb_true_iff in H as [Hl Hle].
    exists b. rewrite Z.eqb_eq in Hl. rewrite Z.leb_le in Hle. auto.
  - intros (b & Hb & Hl & Hle). exists b. split; [exact Hb|].
    apply andb_true_iff. rewrite Z.eqb_eq, Z.leb_le. auto.
Qed.

(** [' '.join] puts one space between a text and the next. *)
Lemma join_single_spaced (l : list str) :
  single_spaced l (join (lit " "%string) l).
Proof.
  induction l as [|t l IH]; [constructor|].
  destruct l as [|t' l']; [constructor|].
  change (join (lit " "%string) (t :: t' :: l'))
    with (t ++ space :: join (lit " "%string) (t' :: l')).
  constructor. exact IH.
Qed.

Lemma single_spaced_infix (l : list str) (s x : str) :
  single_spaced l s -> In x l -> infix x s.
Proof.
  induction 1 as [|t|t t' rest s H IH]; intros Hin.
  - contradiction.
  - destruct Hin as [->|[]]. apply infix_refl.
  - destruct Hin as [->|Hin].
    + apply infix_app_l, infix_refl.
    + apply infix_app_r. apply (infix_app_r _ [space]). apply IH, Hin.
Qed.

(** ** The claims on the assignment *)

(** C1, as stated, fails: pages 23 and 24 lie in the range 23..449 but come
    before the first recipe-level entry (page 25), so their merged rows have no
    title and [groupby] leaves them out; the only recipe holds pages 25 and 26. *)
Lemma C1_in_range_page_unassigned :
  @assignment stable_sorter 2 23 449 late_start_book late_start_toc
  = Some [(lit "Soup", [page 25 "Soup"; page 26 "Boil."])]%string
  /\ @notebook_recipes stable_sorter late_start_book late_start_toc
     = Some [{| recipe := lit "Soup"; description := lit "Soup Boil." |}]%string
  /\ In (page 23 "intro"%string) late_start_book
  /\ between 23 449 (page_number (page 23 "intro"%string)) = true
  /\ ~ In (page 23 "intro"%string) [page 25 "Soup"; page 26 "Boil."]%string.
Proof.
  split; [reflexivity|]. split; [reflexivity|].
  split; [right; left; reflexivity|]. split; [reflexivity|].
  intros [H|[H|[]]]; discriminate.
Qed.

(** C1, amended: on a book with a page and an outline with an entry the
    pipeline returns, and every page of the range that has a recipe-level
    outline entry at or before it belongs to exactly one recipe, once (the
    groups have distinct titles, are disjoint, and together hold exactly those
    pages, as often as the book does); pages outside the range, and pages that
    precede every recipe-level entry, belong to none. *)
Theorem C1_pages_assigned_once (sorter : SortValues)
  (recipe_level first_page last_page : Z)
  (book_df : list BookRow) (doc_toc : list TocRow) :
  book_df <> [] -> doc_toc <> [] ->
  exists groups,
    assignment recipe_level first_page last_page book_df doc_toc = Some groups
    /\ pipeline recipe_level first_page last_page book_df doc_toc
       = Some (join_texts groups)
    /\ NoDup (map fst groups)
    /\ Permutation (flat_map snd groups)
         (filter (fun p => between first_page last_page (page_number p)
                           && has_boundary recipe_level doc_toc (page_number p))
                 book_df)
    /\ (forall g g' p, In g groups -> In g' groups ->
                       In p (snd g) -> In p (snd g') -> g = g')
    /\ (forall p, (exists g, In g groups /\ In p (snd g)) <->
                  In p book_df
                  /\ first_page <= page_number p <= last_page
                  /\ exists b, In b doc_toc /\ level b = recipe_level
                               /\ toc_page_number b <= page_number p).
Proof.
  intros Hbook Htoc.
  eexists. split; [apply groups_assignment; assumption|].
  split; [apply groups_pipeline; assumption|].
  split; [apply groups_NoDup|].
  split; [apply groups_members|].
  split; [apply groups_disjoint|].
  intros p. rewrite <- in_flat_map.
  pose proof (groups_members recipe_level first_page last_page book_df doc_toc)
    as Hperm.
  rewrite <- has_boundary_iff, <- between_true.
  split.
  - intros H. apply (Permutation_in _ Hperm) in H.
    apply filter_In in H as [H1 H2]. apply andb_true_iff in H2. tauto.
  - intros (H1 & H2 & H3). apply (Permutation_in _ (Permutation_sym Hperm)).
    apply filter_In. split; [exact H1|]. rewrite H2, H3. reflexivity.
Qed.

Lemma C1_pages_assigned_once_witness :
  exists groups,
    @assignment stable_sorter 2 23 449 late_start_book late_start_toc
    = Some groups
    /\ @pipeline stable_sorter 2 23 449 late_start_book late_start_toc
       = Some (join_texts groups)
    /\ NoDup (map fst groups)
    /\ Permutation (flat_map snd groups)
         (filter (fun p => between 23 449 (page_number p)
                           && has_boundary 2 late_start_toc (page_number p))
                 late_start_book)
    /\ (forall g g' p, In g groups -> In g' groups ->
                       In p (snd g) -> In p (snd g') -> g = g')
    /\ (forall p, (exists g, In g groups /\ In p (snd g)) <->
                  In p late_start_book
                  /\ 23 <= page_number p <= 449
                  /\ exists b, In b late_start_toc /\ level b = 2
                               /\ toc_page_number b <= page_number p).
Proof.
  apply (C1_pages_assigned_once stable_sorter 2 23 449
           late_start_book late_start_toc).
  - discriminate.
  - discriminate.
Defined.

(** C2: on a book with a page and an outline with an entry the pipeline
    returns; the merged frame has one row per page of the range, in ascending
    page order; the row of a page carries the recipe-level entry with the
    greatest page number at or before the page, and the page is then in the
    group of that entry's title; a page that precedes every recipe-level entry
    gets no entry and is in no group. *)
Theorem C2_nearest_preceding_boundary (sorter : SortValues)
  (recipe_level first_page last_page : Z)
  (book_df : list BookRow) (doc_toc : list TocRow) :
  book_df <> [] -> doc_toc <> [] ->
  exists rows groups,
    merged_frame recipe_level first_page last_page book_df doc_toc = Some rows
    /\ assignment recipe_level first_page last_page book_df doc_toc = Some groups
    /\ pipeline recipe_level first_page last_page book_df doc_toc
       = Some (join_texts groups)
    /\ StronglySorted (fun a b => page_number a <= page_number b) (map fst rows)
    /\ Permutation (map fst rows)
         (filter (fun p => (first_page <=? page_number p)
                           && (page_number p <=? last_page)) book_df)
    /\ (forall p, In p book_df -> first_page <= page_number p <= last_page ->
                  exists m, In (p, m) rows)
    /\ forall p m, In (p, m) rows ->
         In p book_df /\ first_page <= page_number p <= last_page
         /\ match m with
            | Some b =>
                In b doc_toc /\ level b = recipe_level
                /\ toc_page_number b <= page_number p
                /\ (forall b', In b' doc_toc -> level b' = recipe_level ->
                               toc_page_number b' <= page_number p ->
                               toc_page_number b' <= toc_page_number b)
                /\ exists ps, In (title b, ps) groups /\ In p ps
            | None =>
                (forall b', In b' doc_toc -> level b' = recipe_level ->
                            page_number p < toc_page_number b')
                /\ forall g, In g groups -> ~ In p (snd g)
            end.
Proof.
  intros Hbook Htoc.
  eexists. eexists. split.
  { unfold merged_frame. rewrite !inferred_dtype_int64 by assumption.
    apply merged_Some. }
  split; [apply groups_assignment; assumption|].
  split; [apply groups_pipeline; assumption|].
  rewrite map_map. simpl. rewrite map_id.
  split; [apply sort_values_sorted|].
  split; [apply sort_values_perm|].
  split.
  { intros p Hp Hr.
    exists (asof_backward (sort_values toc_page_number
                             (recipes_toc recipe_level doc_toc)) (page_number p)).
    apply in_map_iff. exists p. split; [reflexivity|].
    apply (sorted_pages_In first_page last_page book_df p).
    split; [exact Hp | apply between_true; exact Hr]. }
  intros p m Hin. apply in_map_iff in Hin as (p' & E & Hp). injection E as -> <-.
  fold (sorted_toc recipe_level doc_toc).
  fold (sorted_pages first_page last_page book_df) in Hp.
  pose proof Hp as Hp'. apply sorted_pages_In in Hp' as [Hin Hr].
  apply between_true in Hr.
  split; [exact Hin|]. split; [exact Hr|].
  destruct (asof_backward (sorted_toc recipe_level doc_toc) (page_number p))
    as [b|] eqn:Eb.
  - destruct (asof_backward_greatest _ _ _ (sort_values_sorted _ _ _) Eb)
      as (Hb & Hle & Hmax).
    apply sorted_toc_In in Hb as [Hb Hl].
    repeat split; try assumption.
    + intros b' Hb' Hl' Hle'. apply Hmax; [|exact Hle'].
      apply sorted_toc_In. auto.
    + exists (pages_titled (sorted_toc recipe_level doc_toc)
                (sorted_pages first_page last_page book_df) (title b)).
      apply group_of_page; [exact Hp|].
      unfold resolved_title. rewrite Eb. reflexivity.
  - split.
    + intros b' Hb' Hl'. rewrite asof_backward_None in Eb. apply Eb.
      apply sorted_toc_In. auto.
    + intros g Hg Hpg. apply groups_In in Hg as [_ Eg]. rewrite Eg in Hpg.
      apply pages_titled_In in Hpg as [_ E].
      unfold resolved_title in E. rewrite Eb in E. discriminate.
Qed.

Lemma C2_nearest_preceding_boundary_witness :
  exists rows groups,
    @merged_frame stable_sorter 2 23 449 late_start_book late_start_toc
    = Some rows
    /\ @assignment stable_sorter 2 23 449 late_start_book late_start_toc
       = Some groups
    /\ @pipeline stable_sorter 2 23 449 late_start_book late_start_toc
       = Some (join_texts groups)
    /\ StronglySorted (fun a b => page_number a <= page_number b) (map fst rows)
    /\ Permutation (map fst rows)
         (filter (fun p => (23 <=? page_number p) && (page_number p <=? 449))
                 late_start_book)
    /\ (forall p, In p late_start_book -> 23 <= page_number p <= 449 ->
                  exists m, In (p, m) rows)
    /\ forall p m, In (p, m) rows ->
         In p late_start_book /\ 23 <= page_number p <= 449
         /\ match m with
            | Some b =>
                In b late_start_toc /\ level b = 2
                /\ toc_page_number b <= page_number p
                /\ (forall b', In b' late_start_toc -> level b' = 2 ->
                               toc_page_number b' <= page_number p ->
                               toc_page_number b' <= toc_page_number b)
                /\ exists ps, In (title b, ps) groups /\ In p ps
            | None =>
                (forall b', In b' late_start_toc -> level b' = 2 ->
                            page_number p < toc_page_number b')
                /\ forall g, In g groups -> ~ In p (snd g)
            end.
Proof.
  apply (C2_nearest_preceding_boundary stable_sorter 2 23 449
           late_start_book late_start_toc).
  - discriminate.
  - discriminate.
Defined.

(** C3: on a book with a page and an outline with an entry, the recipes come
    in the order in which their titles first appear among the pages of the
    range taken in page order, and the description of a recipe is the texts of
    its pages, in page order, with one space between a text and the next. *)
Theorem C3_first_seen_order_and_join (sorter : SortValues)
  (recipe_level first_page last_page : Z)
  (book_df : list BookRow) (doc_toc : list TocRow) :
  let toc := sorted_toc recipe_level doc_toc in
  let pages := sorted_pages first_page last_page book_df in
  book_df <> [] -> doc_toc <> [] ->
  exists recipes,
    pipeline recipe_level first_page last_page book_df doc_toc = Some recipes
    /\ Permutation pages
         (filter (fun p => (first_page <=? page_number p)
                           && (page_number p <=? last_page)) book_df)
    /\ StronglySorted (fun a b => page_number a <= page_number b) pages
    /\ Permutation toc (filter (fun b => level b =? recipe_level) doc_toc)
    /\ StronglySorted (fun a b => toc_page_number a <= toc_page_number b) toc
    /\ map recipe recipes
       = first_seen (flat_map (fun p => opt_list (resolved_title toc p)) pages)
    /\ forall r, In r recipes ->
         single_spaced (map text (pages_titled toc pages (recipe r)))
           (description r).
Proof.
  intros toc pages Hbook Htoc.
  eexists. split; [apply groups_pipeline; assumption|].
  split; [apply sort_values_perm|].
  split; [apply sort_values_sorted|].
  split; [apply sort_values_perm|].
  split; [apply sort_values_sorted|].
  split.
  - unfold join_texts. rewrite !map_map. simpl. apply map_id.
  - intros r Hr. unfold join_texts in Hr. rewrite map_map in Hr. simpl in Hr.
    apply in_map_iff in Hr as (k & <- & _). simpl. apply join_single_spaced.
Qed.

Lemma C3_first_seen_order_and_join_witness :
  let toc := @sorted_toc stable_sorter 2 repeated_title_toc in
  let pages := @sorted_pages stable_sorter 23 449 repeated_title_book in
  exists recipes,
    @pipeline stable_sorter 2 23 449 repeated_title_book repeated_title_toc
    = Some recipes
    /\ Permutation pages
         (filter (fun p => (23 <=? page_number p) && (page_number p <=? 449))
                 repeated_title_book)
    /\ StronglySorted (fun a b => page_number a <= page_number b) pages
    /\ Permutation toc (filter (fun b => level b =? 2) repeated_title_toc)
    /\ StronglySorted (fun a b => toc_page_number a <= toc_page_number b) toc
    /\ map recipe recipes
       = first_seen (flat_map (fun p => opt_list (resolved_title toc p)) pages)
    /\ forall r, In r recipes ->
         single_spaced (map text (pages_titled toc pages (recipe r)))
           (description r).
Proof.
  apply (C3_first_seen_order_and_join stable_sorter 2 23 449
           repeated_title_book repeated_title_toc).
  - discriminate.
  - discriminate.
Defined.

(** The order of C3 is not the alphabetical one: "Eggs" comes before "Cake". *)
Example recipes_not_alphabetical :
  @notebook_recipes stable_sorter repeated_title_book repeated_title_toc
  = Some [{| recipe := lit "Eggs"%string; description := lit "e1 e2 e3 e4" |};
          {| recipe := lit "Cake"; description := lit "c1 c2" |}]%string.
Proof. reflexivity. Qed.

(** C4: when the entries found for two pages bear the same title, there is one
    recipe of that title and no other; its pages are all the pages of the
    range resolved to that title, both spans among them, in ascending page
    order; its description is their texts in that order with one space between
    a text and the next, so the texts of both pages are in it. *)
Theorem C4_same_title_one_recipe (sorter : SortValues)
  (recipe_level first_page last_page : Z)
  (book_df : list BookRow) (doc_toc : list TocRow)
  (b1 b2 : TocRow) (p1 p2 : BookRow) :
  let toc := sorted_toc recipe_level doc_toc in
  In p1 book_df -> first_page <= page_number p1 <= last_page ->
  In p2 book_df -> first_page <= page_number p2 <= last_page ->
  asof_backward toc (page_number p1) = Some b1 ->
  asof_backward toc (page_number p2) = Some b2 ->
  title b1 = title b2 ->
  exists recipes r ps,
    pipeline recipe_level first_page last_page book_df doc_toc = Some recipes
    /\ In r recipes /\ recipe r = title b1
    /\ (forall r', In r' recipes -> recipe r' = title b1 -> r' = r)
    /\ (forall p, In p ps <->
                  In p book_df /\ first_page <= page_number p <= last_page
                  /\ resolved_title toc p = Some (title b1))
    /\ In p1 ps /\ In p2 ps
    /\ StronglySorted (fun a b => page_number a <= page_number b) ps
    /\ single_spaced (map text ps) (description r)
    /\ infix (text p1) (description r) /\ infix (text p2) (description r).
Proof.
  intros toc H1 R1 H2 R2 E1 E2 Et.
  set (pages := sorted_pages first_page last_page book_df).
  assert (Hbook : book_df <> []) by (intros E; rewrite E in H1; contradiction).
  assert (Htoc : doc_toc <> []).
  { intros E. apply asof_backward_Some in E1 as (l1 & l2 & Hsplit & _).
    assert (Hin : In b1 toc) by (rewrite Hsplit; apply in_elt).
    apply sorted_toc_In in Hin as [Hin _]. rewrite E in Hin. contradiction. }
  assert (Hp1 : In p1 pages)
    by (apply sorted_pages_In; split; [|apply between_true]; assumption).
  assert (Hp2 : In p2 pages)
    by (apply sorted_pages_In; split; [|apply between_true]; assumption).
  assert (T1 : resolved_title toc p1 = Some (title b1))
    by (unfold resolved_title; rewrite E1; reflexivity).
  assert (T2 : resolved_title toc p2 = Some (title b1))
    by (unfold resolved_title; rewrite E2, Et; reflexivity).
  destruct (group_of_page recipe_level first_page last_page book_df doc_toc
              p1 (title b1) Hp1 T1) as [Hg Hin1].
  destruct (group_of_page recipe_level first_page last_page book_df doc_toc
              p2 (title b1) Hp2 T2) as [_ Hin2].
  set (ps := pages_titled toc pages (title b1)) in *.
  set (r := {| recipe := title b1;
               description := join (lit " "%string) (map text ps) |}).
  assert (Hr : In r (join_texts
                       (map (fun k => (k, pages_titled toc pages k))
                          (first_seen
                             (flat_map (fun p => opt_list (resolved_title toc p))
                                pages))))).
  { unfold join_texts. apply in_map_iff.
    exists (title b1, ps). split; [reflexivity | exact Hg]. }
  assert (Hs : single_spaced (map text ps) (description r))
    by apply join_single_spaced.
  eexists. exists r, ps.
  split; [apply groups_pipeline; assumption|].
  split; [exact Hr|]. split; [reflexivity|].
  split.
  { intros r' Hr' Et'.
    apply (NoDup_map_eq recipe _ r' r) with (3 := Hr); [|exact Hr'|exact Et'].
    unfold join_texts. rewrite !map_map. simpl. rewrite map_id.
    apply first_seen_NoDup. }
  split.
  { intros p. split.
    - intros Hp.
      apply (pages_titled_In recipe_level first_page last_page book_df doc_toc)
        in Hp as [Hp Ht].
      apply sorted_pages_In in Hp as [Hp Hrg]. apply between_true in Hrg. auto.
    - intros (Hp & Hrg & Ht).
      apply (pages_titled_In recipe_level first_page last_page book_df doc_toc).
      split; [|exact Ht].
      apply sorted_pages_In. split; [|apply between_true]; assumption. }
  split; [exact Hin1|]. split; [exact Hin2|].
  split; [apply pages_titled_sorted|].
  split; [exact Hs|].
  split; apply (single_spaced_infix _ _ _ Hs), in_map; assumption.
Qed.

Lemma C4_same_title_one_recipe_witness :
  let toc := @sorted_toc stable_sorter 2 repeated_title_toc in
  exists recipes r ps,
    @pipeline stable_sorter 2 23 449 repeated_title_book repeated_title_toc
    = Some recipes
    /\ In r recipes /\ recipe r = title (entry 2 "Eggs"%string 23)
    /\ (forall r', In r' recipes ->
                   recipe r' = title (entry 2 "Eggs"%string 23) -> r' = r)
    /\ (forall p, In p ps <->
                  In p repeated_title_book /\ 23 <= page_number p <= 449
                  /\ resolved_title toc p
                     = Some (title (entry 2 "Eggs"%string 23)))
    /\ In (page 24 "e2"%string) ps /\ In (page 28 "e4"%string) ps
    /\ StronglySorted (fun a b => page_number a <= page_number b) ps
    /\ single_spaced (map text ps) (description r)
    /\ infix (text (page 24 "e2"%string)) (description r)
    /\ infix (text (page 28 "e4"%string)) (description r).
Proof.
  apply (C4_same_title_one_recipe stable_sorter 2 23 449
           repeated_title_book repeated_title_toc
           (entry 2 "Eggs"%string 23) (entry 2 "Eggs"%string 27)
           (page 24 "e2"%string) (page 28 "e4"%string)).
  - simpl; auto.
  - simpl; lia.
  - simpl; auto 10.
  - simpl; lia.
  - reflexivity.
  - reflexivity.
  - reflexivity.
Defined.

(** ** Entries that share a page *)

Lemma asof_backward_last_at (l1 l2 : list TocRow) (b : TocRow) (k : Z) :
  toc_page_number b <= k ->
  Forall (fun r => k < toc_page_number r) l2 ->
  asof_backward (l1 ++ b :: l2) k = Some b.
Proof.
  intros Hb H2. unfold asof_backward. rewrite filter_app. simpl.
  replace (toc_page_number b <=? k) with true by (symmetry; apply Z.leb_le; exact Hb).
  replace (filter (fun r => toc_page_number r <=? k) l2) with (@nil TocRow).
  - apply last_opt_app.
  - symmetry. induction H2 as [|r l2 Hr H2 IH]; [reflexivity|].
    simpl. rewrite IH. replace (toc_page_number r <=? k) with false; [reflexivity|].
    symmetry. apply Z.leb_gt. exact Hr.
Qed.

(** C9, as stated, fails for a sort that [sort_values] is allowed to be: the
    outline is in page order already, yet the sorted outline lists "Kale"
    before "Iced Tea", against the outline order, and pages 47 and 48 go to
    "Iced Tea", the first of the two tied entries of the outline. *)
Lemma C9_tied_entries_order_not_promised :
  recipes_toc 2 long_outline = long_outline
  /\ map title (firstn 3 (skipn 7 (@sorted_toc reversing_sorter 2 long_outline)))
     = [lit "Ham"; lit "Kale"; lit "Iced Tea"]%string
  /\ @pipeline reversing_sorter 2 23 449 long_outline_book long_outline
     = Some [{| recipe := lit "Ham"; description := lit "p46" |};
             {| recipe := lit "Iced Tea"; description := lit "p47 p48" |}]%string.
Proof. split; [reflexivity | split; reflexivity]. Qed.

(** With the sort that keeps equal keys in order the same pages go to "Kale". *)
Example tied_entries_stable_sort :
  @pipeline stable_sorter 2 23 449 long_outline_book long_outline
  = Some [{| recipe := lit "Ham"; description := lit "p46" |};
          {| recipe := lit "Kale"; description := lit "p47 p48" |}]%string.
Proof. reflexivity. Qed.

(** C9, amended: the level filter of cell 5 keeps two recipe-level entries in
    outline order, whatever their pages; after [sort_values], a page at or
    after an entry [b] of the sorted outline and before every later row of it
    belongs to [b], that is, among entries that share a page, to the one that
    the sort has put last. *)
Theorem C9_last_row_of_sorted_outline (sorter : SortValues)
  (recipe_level first_page last_page : Z)
  (book_df : list BookRow) (doc_toc : list TocRow)
  (o1 o2 o3 l1 l2 : list TocRow) (b1 b2 b : TocRow) (p : BookRow) :
  doc_toc = o1 ++ b1 :: o2 ++ b2 :: o3 ->
  level b1 = recipe_level -> level b2 = recipe_level ->
  sorted_toc recipe_level doc_toc = l1 ++ b :: l2 ->
  toc_page_number b <= page_number p ->
  Forall (fun r => page_number p < toc_page_number r) l2 ->
  In p book_df -> between first_page last_page (page_number p) = true ->
  recipes_toc recipe_level doc_toc
  = recipes_toc recipe_level o1 ++ b1 :: recipes_toc recipe_level o2
    ++ b2 :: recipes_toc recipe_level o3
  /\ asof_backward (sorted_toc recipe_level doc_toc) (page_number p) = Some b
  /\ exists groups ps,
       assignment recipe_level first_page last_page book_df doc_toc = Some groups
       /\ In (title b, ps) groups /\ In p ps.
Proof.
  intros Hdoc Hb1 Hb2 Hsplit Hle Hnext Hp Hr.
  split.
  { subst doc_toc. unfold recipes_toc. rewrite filter_app. simpl.
    rewrite filter_app. simpl.
    rewrite (proj2 (Z.eqb_eq _ _) Hb1), (proj2 (Z.eqb_eq _ _) Hb2).
    reflexivity. }
  assert (E : asof_backward (sorted_toc recipe_level doc_toc) (page_number p)
              = Some b)
    by (rewrite Hsplit; apply asof_backward_last_at; assumption).
  split; [exact E|].
  assert (Hbook : book_df <> []) by (intros E0; rewrite E0 in Hp; contradiction).
  assert (Htoc : doc_toc <> []) by (rewrite Hdoc; destruct o1; discriminate).
  eexists. eexists. split; [apply groups_assignment; assumption|].
  apply group_of_page.
  - apply sorted_pages_In. auto.
  - unfold resolved_title. rewrite E. reflexivity.
Qed.

Lemma C9_last_row_of_sorted_outline_witness :
  recipes_toc 2 tied_toc
  = recipes_toc 2 [] ++ entry 2 "Front"%string 23
      :: recipes_toc 2 [entry 1 "Part"%string 23]
      ++ entry 2 "Eggs"%string 23 :: recipes_toc 2 [entry 2 "Cake"%string 25]
  /\ asof_backward (@sorted_toc stable_sorter 2 tied_toc)
       (page_number (page 24 "p24"%string))
     = Some (entry 2 "Eggs"%string 23)
  /\ exists groups ps,
       @assignment stable_sorter 2 23 449 tied_book tied_toc = Some groups
       /\ In (title (entry 2 "Eggs"%string 23), ps) groups
       /\ In (page 24 "p24"%string) ps.
Proof.
  apply (C9_last_row_of_sorted_outline stable_sorter 2 23 449 tied_book tied_toc
           [] [entry 1 "Part"%string 23] [entry 2 "Cake"%string 25]
           [entry 2 "Front"%string 23] [entry 2 "Cake"%string 25]
           (entry 2 "Front"%string 23) (entry 2 "Eggs"%string 23)
           (entry 2 "Eggs"%string 23) (page 24 "p24"%string)).
  - reflexivity.
  - reflexivity.
  - reflexivity.
  - reflexivity.
  - simpl; lia.
  - repeat constructor.
  - simpl; auto.
  - reflexivity.
Defined.

(** ** Strings *)

#[local] Arguments isspace : simpl never.
#[local] Arguments squeeze : simpl never.

Lemma squeeze_cons (c : char) (s : str) :
  squeeze (c :: s) = if isspace c then squeeze s else c :: squeeze s.
Proof. unfold squeeze. simpl. destruct (isspace c); reflexivity. Qed.

Lemma len_nonneg (s : str) : 0 <= len s.
Proof. unfold len. lia. Qed.

Lemma len_app (a b : str) : len (a ++ b) = len a + len b.
Proof. unfold len. rewrite length_app. lia. Qed.

Lemma len_nil_iff (s : str) : len s = 0 <-> s = [].
Proof.
  unfold len. destruct s; simpl; split; try reflexivity; try discriminate; lia.
Qed.

Lemma is_empty_true {A : Type} (l : list A) : is_empty l = true <-> l = [].
Proof. destruct l; simpl; split; congruence. Qed.

Lemma is_empty_false {A : Type} (l : list A) : is_empty l = false <-> l <> [].
Proof. destruct l; simpl; split; congruence. Qed.

Lemma join_nil (l : list str) : join [] l = concat l.
Proof.
  induction l as [|x l IH]; [reflexivity|].
  simpl. destruct l as [|y l']; [rewrite app_nil_r; reflexivity|].
  rewrite IH. reflexivity.
Qed.

Lemma squeeze_app (a b : str) : squeeze (a ++ b) = squeeze a ++ squeeze b.
Proof. apply filter_app. Qed.

Lemma squeeze_nil_app (a b : str) :
  squeeze (a ++ b) = [] <-> squeeze a = [] /\ squeeze b = [].
Proof.
  rewrite squeeze_app. split.
  - intros H. apply app_eq_nil in H. exact H.
  - intros [-> ->]. reflexivity.
Qed.

Lemma lstrip_app (a b : str) :
  lstrip (a ++ b) = if is_empty (squeeze a) then lstrip b else lstrip a ++ b.
Proof.
  induction a as [|c a IH]; [reflexivity|].
  simpl. rewrite squeeze_cons. destruct (isspace c); simpl.
  - exact IH.
  - reflexivity.
Qed.

Lemma squeeze_lstrip (s : str) : squeeze (lstrip s) = squeeze s.
Proof.
  induction s as [|c s IH]; [reflexivity|].
  simpl. destruct (isspace c) eqn:E.
  - rewrite IH, squeeze_cons, E. reflexivity.
  - reflexivity.
Qed.

Lemma lstrip_length (s : str) : (length (lstrip s) <= length s)%nat.
Proof.
  induction s as [|c s IH]; [reflexivity|].
  simpl. destruct (isspace c); simpl; lia.
Qed.

Lemma squeeze_rev (s : str) : squeeze (rev s) = rev (squeeze s).
Proof.
  induction s as [|c s IH]; [reflexivity|].
  simpl. rewrite squeeze_app, IH, !squeeze_cons.
  destruct (isspace c); simpl; [rewrite app_nil_r|]; reflexivity.
Qed.

Lemma squeeze_rstrip (s : str) : squeeze (rstrip s) = squeeze s.
Proof.
  unfold rstrip. rewrite squeeze_rev, squeeze_lstrip, squeeze_rev.
  apply rev_involutive.
Qed.

Lemma rstrip_length (s : str) : (length (rstrip s) <= length s)%nat.
Proof.
  unfold rstrip. rewrite length_rev.
  etransitivity; [apply lstrip_length|]. rewrite length_rev. reflexivity.
Qed.

Lemma rstrip_app (a b : str) :
  rstrip (a ++ b) = if is_empty (squeeze b) then rstrip a else a ++ rstrip b.
Proof.
  unfold rstrip. rewrite rev_app_distr, lstrip_app, squeeze_rev.
  assert (E : is_empty (rev (squeeze b)) = is_empty (squeeze b)).
  { destruct (squeeze b) as [|c l]; [reflexivity|].
    simpl. destruct (rev l); reflexivity. }
  rewrite E. destruct (is_empty (squeeze b)); [reflexivity|].
  rewrite rev_app_distr, rev_involutive. reflexivity.
Qed.

Lemma squeeze_strip (s : str) : squeeze (strip s) = squeeze s.
Proof. unfold strip. rewrite squeeze_rstrip. apply squeeze_lstrip. Qed.

Lemma strip_length (s : str) : (length (strip s) <= length s)%nat.
Proof.
  unfold strip. etransitivity; [apply rstrip_length | apply lstrip_length].
Qed.

Lemma len_strip (s : str) : len (strip s) <= len s.
Proof. unfold len. pose proof (strip_length s). lia. Qed.

Lemma lstrip_nil_iff (s : str) : lstrip s = [] <-> squeeze s = [].
Proof.
  induction s as [|c s IH]; simpl; [tauto|].
  rewrite squeeze_cons. destruct (isspace c); simpl; [exact IH|].
  split; discriminate.
Qed.

Lemma strip_nil_iff (s : str) : strip s = [] <-> squeeze s = [].
Proof.
  unfold strip, rstrip. rewrite <- lstrip_nil_iff. split.
  - intros H. apply (f_equal (@rev _)) in H. rewrite rev_involutive in H.
    simpl in H. apply lstrip_nil_iff in H. rewrite squeeze_rev in H.
    apply (f_equal (@rev _)) in H. rewrite rev_involutive in H. simpl in H.
    apply lstrip_nil_iff. rewrite squeeze_lstrip in H. exact H.
  - intros ->. reflexivity.
Qed.

Lemma drop_last_all (a b : str) : drop_last (length b) (a ++ b) = a.
Proof.
  unfold drop_last. rewrite length_app.
  replace (length a + length b - length b)%nat with (length a + 0)%nat by lia.
  rewrite firstn_app_2. simpl. apply app_nil_r.
Qed.

Lemma drop_last_0 (s : str) : drop_last 0 s = s.
Proof. unfold drop_last. rewrite Nat.sub_0_r. apply firstn_all. Qed.

Lemma lstrip_split (s : str) : exists w, s = w ++ lstrip s /\ squeeze w = [].
Proof.
  induction s as [|c s IH].
  - exists []. auto.
  - simpl. destruct (isspace c) eqn:E.
    + destruct IH as (w & Hs & Hw). exists (c :: w). split.
      * simpl. congruence.
      * rewrite squeeze_cons, E. exact Hw.
    + exists []. auto.
Qed.

Lemma rstrip_split (s : str) : exists w, s = rstrip s ++ w /\ squeeze w = [].
Proof.
  destruct (lstrip_split (rev s)) as (w & Hs & Hw).
  exists (rev w). split.
  - unfold rstrip. rewrite <- rev_app_distr, <- Hs. symmetry. apply rev_involutive.
  - rewrite squeeze_rev, Hw. reflexivity.
Qed.

(** A string is its stripped part with white space around. *)
Lemma strip_split (s : str) :
  exists wa wb, s = wa ++ strip s ++ wb /\ squeeze wa = [] /\ squeeze wb = [].
Proof.
  destruct (lstrip_split s) as (wa & Hs & Hwa).
  destruct (rstrip_split (lstrip s)) as (wb & Hl & Hwb).
  exists wa, wb. unfold strip. rewrite <- Hl. auto.
Qed.

Lemma strip_app_blank (x y : str) : squeeze y = [] -> strip (x ++ y) = strip x.
Proof.
  intros Hy. unfold strip. rewrite lstrip_app.
  destruct (squeeze x) as [|c sx] eqn:Ex; simpl.
  - apply lstrip_nil_iff in Hy. apply lstrip_nil_iff in Ex. rewrite Hy, Ex.
    reflexivity.
  - rewrite rstrip_app, Hy. reflexivity.
Qed.

(** What is cut from the end of a stripped chunk to undo the overlap [y]: what
    is left is [x] but for white space at its ends. *)
Lemma strip_cut (x y : str) :
  exists (k : nat) (wa wb : str),
    (k <= length y)%nat
    /\ x = wa ++ drop_last k (strip (x ++ y)) ++ wb
    /\ squeeze wa = [] /\ squeeze wb = []
    /\ (squeeze y = [] -> k = 0%nat).
Proof.
  destruct (squeeze y) as [|c sy] eqn:Ey.
  - destruct (strip_split x) as (wa & wb & Hs & Hwa & Hwb).
    exists 0%nat, wa, wb. split; [lia|].
    rewrite drop_last_0, strip_app_blank by exact Ey. auto.
  - unfold strip. rewrite lstrip_app.
    destruct (squeeze x) as [|d sx] eqn:Ex; simpl.
    + exists (length (rstrip (lstrip y))), x, []. split.
      * etransitivity; [apply rstrip_length | apply lstrip_length].
      * rewrite <- (app_nil_l (rstrip (lstrip y))) at 2.
        rewrite drop_last_all. simpl. rewrite app_nil_r.
        repeat split; try reflexivity; [exact Ex | discriminate].
    + rewrite rstrip_app, Ey. simpl.
      destruct (lstrip_split x) as (wa & Hs & Hwa).
      exists (length (rstrip y)), wa, []. split; [apply rstrip_length|].
      rewrite drop_last_all, app_nil_r.
      repeat split; try assumption; try reflexivity. discriminate.
Qed.

(** *** Pieces with white space between them *)

Lemma up_to_gaps_pad_l (w : str) (pieces : list str) (text : str) :
  squeeze w = [] -> up_to_gaps pieces text -> up_to_gaps pieces (w ++ text).
Proof.
  intros Hw H. destruct H as [w' Hw'|w' p pieces text Hw' H].
  - constructor. apply squeeze_nil_app. auto.
  - rewrite app_assoc. constructor; [|exact H]. apply squeeze_nil_app. auto.
Qed.

Lemma up_to_gaps_pad_r (w : str) (pieces : list str) (text : str) :
  squeeze w = [] -> up_to_gaps pieces text -> up_to_gaps pieces (text ++ w).
Proof.
  intros Hw H. induction H as [w' Hw'|w' p pieces text Hw' H IH].
  - constructor. apply squeeze_nil_app. auto.
  - rewrite <- !app_assoc. constructor; assumption.
Qed.

Lemma up_to_gaps_app (p1 p2 : list str) (t1 t2 : str) :
  up_to_gaps p1 t1 -> up_to_gaps p2 t2 -> up_to_gaps (p1 ++ p2) (t1 ++ t2).
Proof.
  intros H1 H2. induction H1 as [w Hw|w p pieces text Hw H1 IH].
  - apply up_to_gaps_pad_l; assumption.
  - simpl. rewrite <- !app_assoc. constructor; assumption.
Qed.

Lemma up_to_gaps_one (wa p wb : str) :
  squeeze wa = [] -> squeeze wb = [] -> up_to_gaps [p] (wa ++ p ++ wb).
Proof. intros Ha Hb. constructor; [exact Ha|]. constructor. exact Hb. Qed.

Lemma up_to_gaps_squeeze (pieces : list str) (text : str) :
  up_to_gaps pieces text -> squeeze (concat pieces) = squeeze text.
Proof.
  induction 1 as [w Hw|w p pieces text Hw H IH].
  - simpl. symmetry. exact Hw.
  - simpl. rewrite !squeeze_app, Hw, IH. reflexivity.
Qed.

Lemma _join_docs_nil (l : list str) :
  _join_docs l [] =
  if is_empty (strip (concat l)) then None else Some (strip (concat l)).
Proof. unfold _join_docs. rewrite join_nil. reflexivity. Qed.

Lemma _join_docs_Some (l : list str) (doc : str) :
  _join_docs l [] = Some doc ->
  doc = strip (concat l) /\ doc <> [].
Proof.
  rewrite _join_docs_nil. destruct (strip (concat l)) eqn:E; simpl.
  - discriminate.
  - intros [= <-]. split; [reflexivity | discriminate].
Qed.

Lemma _join_docs_None (l : list str) :
  _join_docs l [] = None -> squeeze (concat l) = [].
Proof.
  rewrite _join_docs_nil. destruct (strip (concat l)) eqn:E; simpl.
  - intros _. apply strip_nil_iff. exact E.
  - discriminate.
Qed.

(** ** Splitting on a separator *)

Lemma startswith_app (sep text : str) :
  startswith sep text = true -> exists rest, text = sep ++ rest.
Proof.
  revert text. induction sep as [|a sep IH]; intros text H.
  - exists text. reflexivity.
  - destruct text as [|c text]; [discriminate|]. simpl in H.
    apply andb_true_iff in H as [E H]. apply N.eqb_eq in E. subst c.
    destruct (IH _ H) as (rest & ->). exists rest. reflexivity.
Qed.

Lemma re_split_from_skip (sep pre piece text : str) :
  re_split_from sep (length pre) piece (pre ++ text)
  = re_split_from sep 0 piece text.
Proof.
  induction pre as [|c pre IH]; simpl.
  - destruct text; reflexivity.
  - exact IH.
Qed.

Lemma re_split_from_cons (sep : str) (skip : nat) (piece text : str) :
  exists p0 ps, re_split_from sep skip piece text = p0 :: ps.
Proof.
  revert skip piece. induction text as [|c text IH]; intros skip piece; simpl.
  - eauto.
  - destruct skip; [|apply IH].
    destruct (startswith sep (c :: text)); [eauto | apply IH].
Qed.

(** The pieces with the separator put back in front of every piece but the
    first are the text again. *)
Lemma re_split_from_glue (sep : str) (n : nat) (piece text : str) :
  (length text <= n)%nat ->
  sep <> [] ->
  match re_split_from sep 0 piece text with
  | [] => False
  | p0 :: ps => p0 ++ concat (map (fun p => sep ++ p) ps) = piece ++ text
  end.
Proof.
  revert piece text. induction n as [|n IH]; intros piece text Hn Hsep.
  - destruct text; [|simpl in Hn; lia]. simpl. reflexivity.
  - destruct text as [|c text]; [simpl; reflexivity|]. simpl in Hn.
    cbn [re_split_from].
    destruct (startswith sep (c :: text)) eqn:E.
    + apply startswith_app in E as (rest & E).
      destruct sep as [|a sep]; [congruence|].
      simpl in E. injection E as Ec Et. subst c text. simpl length. simpl pred.
      rewrite re_split_from_skip.
      assert (Hr : (length rest <= n)%nat) by (rewrite length_app in Hn; lia).
      specialize (IH [] rest Hr Hsep).
      destruct (re_split_from (a :: sep) 0 [] rest) as [|q0 qs]; [contradiction|].
      simpl in IH. simpl. rewrite <- app_assoc, IH. reflexivity.
    + assert (Hr : (length text <= n)%nat) by lia.
      specialize (IH (piece ++ [c]) text Hr Hsep).
      destruct (re_split_from sep 0 (piece ++ [c]) text); [contradiction|].
      rewrite IH, <- app_assoc. reflexivity.
Qed.

Lemma concat_filter_nonempty (l : list str) :
  concat (filter (fun s => negb (is_empty s)) l) = concat l.
Proof.
  induction l as [|s l IH]; [reflexivity|].
  simpl. destruct s; simpl; [exact IH|]. rewrite IH. reflexivity.
Qed.

(** The splits of a text are its consecutive pieces ... *)
Lemma _split_text_with_regex_concat (text separator : str) :
  concat (_split_text_with_regex text separator true) = text.
Proof.
  unfold _split_text_with_regex. rewrite concat_filter_nonempty.
  destruct separator as [|a sep]; simpl.
  - induction text as [|c text IH]; [reflexivity|]. simpl. rewrite IH. reflexivity.
  - pose proof (re_split_from_glue (a :: sep) (length text) [] text (le_n _)) as H.
    unfold re_split.
    destruct (re_split_from (a :: sep) 0 [] text); [exfalso; apply H; discriminate|].
    apply H. discriminate.
Qed.

(** ... none of which is empty. *)
Lemma _split_text_with_regex_nonempty (text separator : str) (keep : bool) :
  Forall (fun s => s <> []) (_split_text_with_regex text separator keep).
Proof.
  unfold _split_text_with_regex. apply Forall_forall. intros s Hs.
  apply filter_In in Hs as [_ Hs]. destruct s; [discriminate|discriminate].
Qed.

(** On the empty separator the splits are the characters. *)
Lemma _split_text_with_regex_chars (text : str) (keep : bool) :
  _split_text_with_regex text [] keep = map (fun c => [c]) text.
Proof.
  unfold _split_text_with_regex. simpl.
  induction text as [|c text IH]; [reflexivity|]. simpl. rewrite IH. reflexivity.
Qed.

Lemma concat_chars (text : str) : concat (map (fun c => [c]) text) = text.
Proof.
  induction text as [|c text IH]; [reflexivity|]. simpl. rewrite IH. reflexivity.
Qed.

(** ** Merging splits into chunks *)

Lemma len_concat_app (a b : list str) :
  len (concat (a ++ b)) = len (concat a) + len (concat b).
Proof. rewrite concat_app. apply len_app. Qed.

Lemma len_concat_snoc (a : list str) (d : str) :
  len (concat (a ++ [d])) = len (concat a) + len d.
Proof. rewrite len_concat_app. simpl. rewrite app_nil_r. reflexivity. Qed.

(** With [keep_separator] the chunks are joined with the empty string, whose
    length is added to [total] under a condition. *)
Ltac zero_separator :=
  repeat match goal with
         | |- context [if ?b then 0 else 0] =>
             let E := fresh in
             assert (E : (if b then 0 else 0) = 0) by (destruct b; reflexivity);
             rewrite E; clear E
         end.

Section MergeFacts.
Variables chunk_size chunk_overlap : Z.
Hypothesis overlap_nonneg : 0 <= chunk_overlap.

(** The [while] loop keeps a tail of [current_doc], short enough for the
    overlap and for the next split to fit; it never runs out of strings. *)
Lemma pop_front_spec (_len : Z) (cur : list str) :
  exists popped kept,
    pop_front chunk_size chunk_overlap 0 _len cur (len (concat cur))
    = Some (kept, len (concat kept))
    /\ cur = popped ++ kept
    /\ len (concat kept) <= chunk_overlap
    /\ (len (concat kept) + _len <= chunk_size \/ len (concat kept) <= 0).
Proof.
  induction cur as [|d0 rest IH].
  - exists [], []. simpl. unfold keep_popping. simpl.
    change (len []) with 0. rewrite andb_false_r, orb_false_r.
    replace (chunk_overlap <? 0) with false by (symmetry; apply Z.ltb_ge; lia).
    split; [reflexivity|]. split; [reflexivity|]. lia.
  - cbn [pop_front].
    destruct (keep_popping chunk_size chunk_overlap 0 _len (d0 :: rest)
                (len (concat (d0 :: rest)))) eqn:K.
    + destruct IH as (popped & kept & E & -> & H1 & H2).
      exists (d0 :: popped), kept.
      zero_separator.
      match goal with
      | |- pop_front _ _ _ _ _ ?t = _ /\ _ =>
          replace t with (len (concat (popped ++ kept)))
      end.
      * auto.
      * simpl concat. rewrite len_app. lia.
    + exists [], (d0 :: rest). split; [reflexivity|]. split; [reflexivity|].
      unfold keep_popping in K. apply orb_false_iff in K as [K1 K2].
      apply Z.ltb_ge in K1. split; [exact K1|].
      apply andb_false_iff in K2 as [K2|K2].
      * apply Z.ltb_ge in K2. simpl is_empty in K2. cbv iota in K2. left. lia.
      * apply Z.ltb_ge in K2. right. exact K2.
Qed.

(** One turn of the merging loop: either the split joins [current_doc], or
    [current_doc] is emitted as a chunk and a tail of it is kept as overlap
    in front of the split. *)
Lemma merge_step_spec (st : MergeState) (d : str) :
  total st = len (concat (current_doc st)) ->
  exists st',
    merge_step chunk_size chunk_overlap [] st d = Some st'
    /\ total st' = len (concat (current_doc st'))
    /\ ((docs st' = docs st
         /\ current_doc st' = current_doc st ++ [d]
         /\ (total st + len d <= chunk_size \/ current_doc st = []))
        \/ exists popped kept,
             current_doc st = popped ++ kept
             /\ current_doc st <> []
             /\ chunk_size < total st + len d
             /\ docs st' = docs st ++ opt_list (_join_docs (current_doc st) [])
             /\ current_doc st' = kept ++ [d]
             /\ len (concat kept) <= chunk_overlap
             /\ (len (concat kept) + len d <= chunk_size
                 \/ len (concat kept) <= 0)).
Proof.
  intros Ht. unfold merge_step. change (len []) with 0.
  zero_separator. rewrite Z.add_0_r.
  destruct (chunk_size <? total st + len d) eqn:C.
  - destruct (current_doc st) as [|c0 cur] eqn:Ecur.
    + simpl. rewrite Ecur. simpl. eexists. split; [reflexivity|]. simpl.
      split; [rewrite Ht, app_nil_r; simpl; lia|].
      left. auto.
    + cbn [is_empty]. rewrite Ht.
      destruct (pop_front_spec (len d) (c0 :: cur))
        as (popped & kept & E & Hsplit & H1 & H2).
      rewrite E. simpl. zero_separator.
      eexists. split; [reflexivity|]. simpl.
      split; [rewrite len_concat_snoc; lia|].
      right. exists popped, kept.
      apply Z.ltb_lt in C. rewrite Ht in C.
      repeat split; try assumption; try reflexivity. discriminate.
  - simpl. zero_separator.
    eexists. split; [reflexivity|]. simpl.
    split; [rewrite len_concat_snoc; lia|].
    left. apply Z.ltb_ge in C. repeat split. left. lia.
Qed.
End MergeFacts.

(** *** Chunks of the right size *)

Section MergeSize.
Variables chunk_size chunk_overlap : Z.
Hypothesis overlap_nonneg : 0 <= chunk_overlap.

Lemma _join_docs_fits (cur : list str) (doc : str) :
  len (concat cur) <= chunk_size ->
  _join_docs cur [] = Some doc ->
  fits chunk_size doc.
Proof.
  intros Hc H. apply _join_docs_Some in H as [-> Hne].
  split.
  - pose proof (len_nonneg (strip (concat cur))).
    assert (len (strip (concat cur)) <> 0)
      by (rewrite len_nil_iff; exact Hne).
    lia.
  - pose proof (len_strip (concat cur)). lia.
Qed.

Lemma opt_join_docs_fits (cur : list str) :
  len (concat cur) <= chunk_size ->
  Forall (fits chunk_size) (opt_list (_join_docs cur [])).
Proof.
  intros Hc. destruct (_join_docs cur []) as [doc|] eqn:E; simpl.
  - constructor; [|constructor]. eapply _join_docs_fits; eassumption.
  - constructor.
Qed.

Lemma merge_loop_fits (splits : list str) (st : MergeState) :
  total st = len (concat (current_doc st)) ->
  total st <= chunk_size ->
  Forall (fits chunk_size) (docs st) ->
  Forall (fun s => len s <= chunk_size) splits ->
  exists st',
    merge_loop chunk_size chunk_overlap [] splits st = Some st'
    /\ total st' = len (concat (current_doc st'))
    /\ total st' <= chunk_size
    /\ Forall (fits chunk_size) (docs st').
Proof.
  revert st. induction splits as [|d splits IH]; intros st Ht Hb Hd Hs.
  - exists st. auto.
  - inversion Hs as [|? ? Hlen Hs']; subst. cbn [merge_loop].
    destruct (merge_step_spec chunk_size chunk_overlap overlap_nonneg st d Ht)
      as (st1 & E & Ht1 & Hcase).
    rewrite E. simpl. apply IH; [exact Ht1| | |exact Hs'].
    + rewrite Ht1.
      destruct Hcase as [(_ & -> & Hfit) | (popped & kept & _ & _ & _ & _ & -> & _ & Hfit)];
        rewrite len_concat_snoc.
      * destruct Hfit as [Hfit | ->]; [lia | simpl; change (len []) with 0; lia].
      * pose proof (len_nonneg (concat kept)). lia.
    + destruct Hcase as [(-> & _) | (popped & kept & _ & _ & _ & -> & _)];
        [exact Hd|].
      apply Forall_app. split; [exact Hd|].
      apply opt_join_docs_fits. lia.
Qed.

Lemma _merge_splits_fits (splits : list str) :
  0 <= chunk_size ->
  Forall (fun s => len s <= chunk_size) splits ->
  exists chunks,
    _merge_splits chunk_size chunk_overlap splits [] = Some chunks
    /\ Forall (fits chunk_size) chunks.
Proof.
  intros Hc Hs. unfold _merge_splits.
  destruct (merge_loop_fits splits {| docs := []; current_doc := []; total := 0 |})
    as (st & E & Ht & Hb & Hd); simpl; auto.
  rewrite E. simpl. eexists. split; [reflexivity|].
  apply Forall_app. split; [exact Hd|].
  apply opt_join_docs_fits. lia.
Qed.

(** *** Splits that fit in one chunk are merged into one chunk *)

Lemma merge_loop_one_chunk (splits : list str) (st : MergeState) :
  total st + len (concat splits) <= chunk_size ->
  merge_loop chunk_size chunk_overlap [] splits st
  = Some {| docs := docs st;
            current_doc := current_doc st ++ splits;
            total := total st + len (concat splits) |}.
Proof.
  revert st. induction splits as [|d splits IH]; intros st Hb.
  - simpl. change (len []) with 0. rewrite Z.add_0_r, app_nil_r.
    destruct st; reflexivity.
  - simpl concat in Hb. rewrite len_app in Hb.
    pose proof (len_nonneg (concat splits)).
    cbn [merge_loop]. unfold merge_step. change (len []) with 0.
    zero_separator. rewrite Z.add_0_r.
    replace (chunk_size <? total st + len d) with false
      by (symmetry; apply Z.ltb_ge; lia).
    simpl. zero_separator. rewrite IH by (simpl; lia). simpl.
    rewrite <- app_assoc. simpl concat. rewrite len_app.
    f_equal. f_equal. lia.
Qed.

Lemma _merge_splits_one_chunk (splits : list str) :
  len (concat splits) <= chunk_size ->
  _merge_splits chunk_size chunk_overlap splits []
  = Some (opt_list (_join_docs splits [])).
Proof.
  intros Hb. unfold _merge_splits.
  rewrite merge_loop_one_chunk by (simpl; lia). reflexivity.
Qed.
End MergeSize.

(** *** Chunks that give the text back *)

Lemma cut_each_app (c1 c2 : list nat) (f1 f2 : list str) :
  length c1 = length f1 ->
  cut_each (c1 ++ c2) (f1 ++ f2) = cut_each c1 f1 ++ cut_each c2 f2.
Proof.
  revert f1. induction c1 as [|k c1 IH]; intros [|f f1] H; try discriminate.
  - reflexivity.
  - injection H as H. unfold cut_each in *. simpl. rewrite IH by exact H.
    reflexivity.
Qed.

Lemma last_app_zero (c1 c2 : list nat) :
  last c1 0%nat = 0%nat -> last c2 0%nat = 0%nat -> last (c1 ++ c2) 0%nat = 0%nat.
Proof.
  intros H1 H2. destruct c2 as [|k c2] using rev_ind.
  - rewrite app_nil_r. exact H1.
  - rewrite app_assoc, last_last. rewrite last_last in H2. exact H2.
Qed.

Lemma reconstructs_nil (chunk_overlap : Z) : reconstructs chunk_overlap [] [].
Proof.
  exists []. repeat split; [constructor|]. constructor. reflexivity.
Qed.

Lemma reconstructs_one (chunk_overlap : Z) (s : str) :
  0 <= chunk_overlap -> reconstructs chunk_overlap [s] s.
Proof.
  intros H. exists [0%nat]. split; [reflexivity|].
  split; [constructor; [exact H | constructor]|].
  split; [reflexivity|]. unfold cut_each. simpl. rewrite drop_last_0.
  rewrite <- (app_nil_r s) at 2.
  apply (up_to_gaps_one [] s []); reflexivity.
Qed.

Lemma reconstructs_app (chunk_overlap : Z) (f1 f2 : list str) (s1 s2 : str) :
  reconstructs chunk_overlap f1 s1 ->
  reconstructs chunk_overlap f2 s2 ->
  reconstructs chunk_overlap (f1 ++ f2) (s1 ++ s2).
Proof.
  intros (c1 & L1 & B1 & Z1 & E1) (c2 & L2 & B2 & Z2 & E2).
  exists (c1 ++ c2). split; [rewrite !length_app; congruence|].
  split; [apply Forall_app; auto|].
  split; [apply last_app_zero; assumption|].
  rewrite cut_each_app by exact L1.
  apply up_to_gaps_app; assumption.
Qed.

Section MergeOverlap.
Variables chunk_size chunk_overlap : Z.
Hypothesis overlap_nonneg : 0 <= chunk_overlap.

Lemma merge_step_overlap (st : MergeState) (d consumed : str) :
  overlap_invariant chunk_overlap st consumed ->
  exists st',
    merge_step chunk_size chunk_overlap [] st d = Some st'
    /\ overlap_invariant chunk_overlap st' (consumed ++ d).
Proof.
  intros (Ht & cuts & x & Hl & Hb & Hx & Hz & Hc).
  destruct (merge_step_spec chunk_size chunk_overlap overlap_nonneg st d Ht)
    as (st1 & E & Ht1 & Hcase).
  exists st1. split; [exact E|]. split; [exact Ht1|].
  destruct Hcase as [(Ed & Ec & _)
                    | (popped & kept & Ecur & _ & _ & Ed & Ec & Hk & _)].
  - exists cuts, x. rewrite Ed, Ec.
    split; [exact Hl|]. split; [exact Hb|]. split; [exact Hx|].
    split.
    + rewrite concat_app. intros H. apply squeeze_nil_app in H as [H _].
      apply Hz. exact H.
    + rewrite concat_app. simpl. rewrite app_nil_r, app_assoc, Hc. reflexivity.
  - rewrite Ed, Ec. rewrite Ecur in Hz, Hc |- *. rewrite concat_app in Hz, Hc.
    assert (Hcons : (x ++ concat popped) ++ concat (kept ++ [d]) = consumed ++ d).
    { rewrite concat_app. simpl. rewrite app_nil_r, <- Hc, <- !app_assoc.
      reflexivity. }
    destruct (_join_docs (popped ++ kept) []) as [doc|] eqn:Ej; simpl.
    + apply _join_docs_Some in Ej as [Edoc _]. rewrite concat_app in Edoc.
      destruct (strip_cut (concat popped) (concat kept))
        as (k & wa & wb & Hk1 & Hk2 & Hwa & Hwb & Hk3).
      exists (cuts ++ [k]), (x ++ concat popped).
      split; [rewrite !length_app; simpl; lia|].
      split.
      { apply Forall_app. split; [exact Hb|]. constructor; [|constructor].
        unfold len in Hk. lia. }
      split.
      { rewrite cut_each_app by exact Hl. apply up_to_gaps_app; [exact Hx|].
        unfold cut_each. simpl. rewrite Edoc. rewrite Hk2 at 2.
        apply up_to_gaps_one; assumption. }
      split; [|exact Hcons].
      rewrite last_last, concat_app. intros H.
      apply squeeze_nil_app in H as [H _]. apply Hk3. exact H.
    + apply _join_docs_None in Ej. rewrite concat_app in Ej.
      apply squeeze_nil_app in Ej as [Ep Ek].
      exists cuts, (x ++ concat popped). rewrite app_nil_r.
      split; [exact Hl|]. split; [exact Hb|].
      split; [apply up_to_gaps_pad_r; assumption|].
      split; [|exact Hcons].
      intros _. apply Hz. apply squeeze_nil_app. auto.
Qed.

Lemma merge_loop_overlap (splits : list str) (st : MergeState) (consumed : str) :
  overlap_invariant chunk_overlap st consumed ->
  exists st',
    merge_loop chunk_size chunk_overlap [] splits st = Some st'
    /\ overlap_invariant chunk_overlap st' (consumed ++ concat splits).
Proof.
  revert st consumed. induction splits as [|d splits IH]; intros st consumed H.
  - exists st. rewrite app_nil_r. auto.
  - destruct (merge_step_overlap st d consumed H) as (st1 & E & H1).
    cbn [merge_loop]. rewrite E. simpl.
    destruct (IH st1 (consumed ++ d) H1) as (st' & E' & H').
    exists st'. split; [exact E'|].
    simpl. rewrite app_assoc. exact H'.
Qed.

Lemma overlap_invariant_final (st : MergeState) (consumed : str) :
  overlap_invariant chunk_overlap st consumed ->
  reconstructs chunk_overlap
    (docs st ++ opt_list (_join_docs (current_doc st) [])) consumed.
Proof.
  intros (Ht & cuts & x & Hl & Hb & Hx & Hz & Hc).
  destruct (_join_docs (current_doc st) []) as [doc|] eqn:Ej; simpl.
  - apply _join_docs_Some in Ej as [Edoc _].
    exists (cuts ++ [0%nat]).
    split; [rewrite !length_app; simpl; lia|].
    split; [apply Forall_app; split;
            [exact Hb | constructor; [exact overlap_nonneg | constructor]]|].
    split; [apply last_last|].
    rewrite cut_each_app by exact Hl. rewrite <- Hc.
    apply up_to_gaps_app; [exact Hx|].
    unfold cut_each. simpl. rewrite drop_last_0, Edoc.
    destruct (strip_split (concat (current_doc st)))
      as (wa & wb & Hs & Hwa & Hwb).
    rewrite Hs at 2. apply up_to_gaps_one; assumption.
  - apply _join_docs_None in Ej. exists cuts. rewrite app_nil_r.
    split; [exact Hl|]. split; [exact Hb|]. split; [apply Hz; exact Ej|].
    rewrite <- Hc. apply up_to_gaps_pad_r; assumption.
Qed.

Lemma _merge_splits_reconstructs (splits : list str) :
  exists chunks,
    _merge_splits chunk_size chunk_overlap splits [] = Some chunks
    /\ reconstructs chunk_overlap chunks (concat splits).
Proof.
  unfold _merge_splits.
  destruct (merge_loop_overlap splits
              {| docs := []; current_doc := []; total := 0 |} [])
    as (st & E & H).
  { split; [reflexivity|]. exists [], []. simpl.
    repeat split; try reflexivity; constructor. reflexivity. }
  rewrite E. simpl. eexists. split; [reflexivity|].
  apply overlap_invariant_final. exact H.
Qed.
End MergeOverlap.

(** ** The recursive splitter *)

Lemma ends_with_empty_tail (s : str) (rest : list str) :
  ends_with_empty (s :: rest) -> s <> [] ->
  ends_with_empty rest /\ rest <> [].
Proof.
  intros (front & E) Hs. destruct front as [|s' front].
  - injection E as -> _. congruence.
  - injection E as _ ->. split; [exists front; reflexivity|].
    destruct front; discriminate.
Qed.

Lemma _separators_end : ends_with_empty _separators.
Proof. exists [[newline; newline]; [newline]; [space]]. reflexivity. Qed.

(** A property of the chunks of a text that holds of what the merging loop
    returns and is kept when chunk lists are put one after the other holds of
    what the splitter returns. *)
Section SplitGeneric.
Variables chunk_size chunk_overlap : Z.
Variable Q : list str -> str -> Prop.
Hypothesis Q_nil : Q [] [].
Hypothesis Q_app :
  forall f1 f2 s1 s2, Q f1 s1 -> Q f2 s2 -> Q (f1 ++ f2) (s1 ++ s2).
Hypothesis Q_merge :
  forall good,
    Forall (fun s => len s < chunk_size) good ->
    exists chunks,
      _merge_splits chunk_size chunk_overlap good [] = Some chunks
      /\ Q chunks (concat good).
Hypothesis Q_char : forall c, Q [[c]] [c].

Lemma flush_good_Q (final_chunks good : list str) (done : str) :
  Q final_chunks done ->
  Forall (fun s => len s < chunk_size) good ->
  exists r,
    flush_good chunk_size chunk_overlap [] final_chunks good = Some r
    /\ Q r (done ++ concat good).
Proof.
  intros Hf Hg. unfold flush_good. destruct good as [|g good]; simpl is_empty; cbv iota.
  - exists final_chunks. simpl. rewrite app_nil_r. auto.
  - destruct (Q_merge _ Hg) as (chunks & E & Hq). rewrite E. simpl.
    eexists. split; [reflexivity|]. apply Q_app; assumption.
Qed.

Lemma split_loop_Q (recur : option (str -> option (list str)))
  (splits final_chunks good : list str) (done : str) :
  Q final_chunks done ->
  Forall (fun s => len s < chunk_size) good ->
  Forall (fun s => len s < chunk_size
                   \/ match recur with
                      | None => Q [s] s
                      | Some call => exists r, call s = Some r /\ Q r s
                      end) splits ->
  exists r,
    split_loop chunk_size chunk_overlap recur [] splits final_chunks good
    = Some r
    /\ Q r (done ++ concat good ++ concat splits).
Proof.
  revert final_chunks good done.
  induction splits as [|s splits IH]; intros final_chunks good done Hf Hg Hs.
  - simpl. rewrite app_nil_r. apply flush_good_Q; assumption.
  - inversion Hs as [|? ? Hhead Hs']; subst. cbn [split_loop].
    destruct (len s <? chunk_size) eqn:E.
    + apply Z.ltb_lt in E.
      destruct (IH final_chunks (good ++ [s]) done Hf) as (r & Er & Hr);
        [apply Forall_app; split; [exact Hg | constructor; [exact E | constructor]]
        |exact Hs'|].
      exists r. split; [exact Er|].
      rewrite concat_app in Hr. simpl in Hr.
      rewrite app_nil_r, <- app_assoc in Hr. exact Hr.
    + apply Z.ltb_ge in E. destruct Hhead as [Hlt|Hhead]; [lia|].
      destruct (flush_good_Q final_chunks good done Hf Hg) as (r1 & E1 & H1).
      rewrite E1. simpl.
      assert (H2 : exists r2,
                 match recur with
                 | None => Some (r1 ++ [s])
                 | Some call => other_info <- call s ;; Some (r1 ++ other_info)
                 end = Some r2
                 /\ Q r2 ((done ++ concat good) ++ s)).
      { destruct recur as [call|].
        - destruct Hhead as (r & Ec & Hr). rewrite Ec. simpl.
          eexists. split; [reflexivity|]. apply Q_app; assumption.
        - eexists. split; [reflexivity|]. apply Q_app; assumption. }
      destruct H2 as (r2 & E2 & H2). rewrite E2. simpl.
      destruct (IH r2 [] _ H2 (Forall_nil _) Hs') as (r & Er & Hr).
      exists r. split; [exact Er|].
      simpl in Hr. rewrite <- !app_assoc in Hr. exact Hr.
Qed.

Lemma _split_text_Q (separators : list str) (text : str) :
  ends_with_empty separators ->
  exists r,
    _split_text chunk_size chunk_overlap separators text = Some r /\ Q r text.
Proof.
  revert text. induction separators as [|s rest IH]; intros text Hend.
  - destruct Hend as ([|? ?] & E); discriminate.
  - cbn [_split_text]. destruct (is_empty s) eqn:Es.
    + apply is_empty_true in Es. subst s. unfold split_with.
      rewrite _split_text_with_regex_chars.
      destruct (split_loop_Q None (map (fun c => [c]) text) [] [] [] Q_nil
                  (Forall_nil _)) as (r & Er & Hr).
      { apply Forall_forall. intros x Hx. apply in_map_iff in Hx as (c & <- & _).
        right. apply Q_char. }
      exists r. split; [exact Er|].
      simpl in Hr. rewrite concat_chars in Hr. exact Hr.
    + apply is_empty_false in Es.
      destruct (ends_with_empty_tail s rest Hend Es) as [Hend' Hne].
      destruct rest as [|s' rest']; [congruence|].
      destruct (search s text).
      * unfold split_with.
        destruct (split_loop_Q (Some (_split_text chunk_size chunk_overlap (s' :: rest')))
                    (_split_text_with_regex text s _keep_separator) [] [] []
                    Q_nil (Forall_nil _)) as (r & Er & Hr).
        { apply Forall_forall. intros x _. right. apply IH. exact Hend'. }
        exists r. split; [exact Er|].
        simpl in Hr. unfold _keep_separator in Hr.
        rewrite _split_text_with_regex_concat in Hr. exact Hr.
      * apply IH. exact Hend'.
Qed.
End SplitGeneric.

(** The method as the source writes it: pick the separator, split, then merge
    the short splits and call the method again, with the separators after the
    chosen one, on every split that is not short. *)
Lemma _split_text_unfold (chunk_size chunk_overlap : Z) (separators : list str)
  (text : str) :
  _split_text chunk_size chunk_overlap separators text =
  (picked <- pick_separator separators text ;;
   split_with chunk_size chunk_overlap
     (match snd picked with
      | [] => None
      | _ :: _ => Some (_split_text chunk_size chunk_overlap (snd picked))
      end)
     (fst picked) text).
Proof.
  induction separators as [|s rest IH]; [reflexivity|].
  cbn [_split_text]. unfold pick_separator.
  assert (Hlast : exists l, last_opt (s :: rest) = Some l).
  { destruct (last_opt (s :: rest)) eqn:E; [eauto|].
    apply last_opt_None in E. discriminate. }
  destruct Hlast as (l & Hlast). rewrite Hlast. cbn [bind pick_loop].
  destruct (is_empty s); [reflexivity|].
  destruct (search s text); [reflexivity|].
  destruct rest as [|s' rest'].
  - simpl in Hlast. injection Hlast as <-. reflexivity.
  - rewrite IH. unfold pick_separator.
    change (last_opt (s :: s' :: rest')) with (last_opt (s' :: rest')) in Hlast.
    rewrite Hlast. reflexivity.
Qed.

(** *** A text that fits in one chunk *)

Lemma forallb_false_ex {A : Type} (f : A -> bool) (l : list A) :
  forallb f l = false -> exists x, In x l /\ f x = false.
Proof.
  induction l as [|a l IH]; [discriminate|].
  simpl. destruct (f a) eqn:E; simpl.
  - intros H. destruct (IH H) as (x & Hx & Hf). exists x. auto.
  - intros _. exists a. auto.
Qed.

Lemma concat_nonempty_nil (l : list str) :
  Forall (fun s => s <> []) l -> concat l = [] -> l = [].
Proof.
  intros H E. destruct l as [|s l]; [reflexivity|].
  inversion H; subst. simpl in E. apply app_eq_nil in E as [E _]. congruence.
Qed.

(** A split as long as the whole text is the whole text, alone. *)
Lemma single_split (splits : list str) (text s : str) :
  Forall (fun x => x <> []) splits ->
  concat splits = text ->
  In s splits ->
  len text <= len s ->
  splits = [text].
Proof.
  intros Hne Hc Hin Hlen. apply in_split in Hin as (l1 & l2 & ->).
  apply Forall_app in Hne as [H1 H2]. inversion H2 as [|? ? _ H2']; subst.
  rewrite concat_app in Hlen |- *. simpl in Hlen |- *.
  rewrite !len_app in Hlen.
  pose proof (len_nonneg (concat l1)). pose proof (len_nonneg (concat l2)).
  assert (E1 : concat l1 = []) by (apply len_nil_iff; lia).
  assert (E2 : concat l2 = []) by (apply len_nil_iff; lia).
  rewrite (concat_nonempty_nil l1 H1 E1), (concat_nonempty_nil l2 H2' E2).
  simpl. rewrite app_nil_r. reflexivity.
Qed.

Section ShortText.
Variables chunk_size chunk_overlap : Z.
Hypothesis chunk_size_two : 2 <= chunk_size.

Lemma split_loop_all_good (recur : option (str -> option (list str)))
  (separator : str) (splits final_chunks good : list str) :
  Forall (fun s => len s < chunk_size) splits ->
  split_loop chunk_size chunk_overlap recur separator splits final_chunks good
  = flush_good chunk_size chunk_overlap separator final_chunks (good ++ splits).
Proof.
  revert good. induction splits as [|s splits IH]; intros good Hs.
  - simpl. rewrite app_nil_r. reflexivity.
  - inversion Hs as [|? ? Hlt Hs']; subst. cbn [split_loop].
    replace (len s <? chunk_size) with true by (symmetry; apply Z.ltb_lt; exact Hlt).
    rewrite IH by exact Hs'. rewrite <- app_assoc. reflexivity.
Qed.

Lemma flush_good_short (splits : list str) (text : str) :
  concat splits = text ->
  len text <= chunk_size ->
  flush_good chunk_size chunk_overlap [] [] splits
  = Some (opt_list (_join_docs [text] [])).
Proof.
  intros Hc Hlen. unfold flush_good.
  assert (Ej : _join_docs splits [] = _join_docs [text] []).
  { rewrite !_join_docs_nil. simpl. rewrite app_nil_r, Hc. reflexivity. }
  destruct splits as [|s splits]; simpl is_empty; cbv iota.
  - rewrite <- Ej. reflexivity.
  - rewrite _merge_splits_one_chunk by (rewrite Hc; exact Hlen).
    simpl. rewrite Ej. reflexivity.
Qed.

Lemma _split_text_short (separators : list str) (text : str) :
  ends_with_empty separators ->
  len text <= chunk_size ->
  _split_text chunk_size chunk_overlap separators text
  = Some (opt_list (_join_docs [text] [])).
Proof.
  intros Hend Hlen. induction separators as [|s rest IH].
  - destruct Hend as ([|? ?] & E); discriminate.
  - cbn [_split_text]. destruct (is_empty s) eqn:Es.
    + apply is_empty_true in Es. subst s. unfold split_with.
      rewrite _split_text_with_regex_chars.
      rewrite split_loop_all_good.
      * apply flush_good_short; [apply concat_chars | exact Hlen].
      * apply Forall_forall. intros x Hx.
        apply in_map_iff in Hx as (c & <- & _). change (len [c]) with 1. lia.
    + apply is_empty_false in Es.
      destruct (ends_with_empty_tail s rest Hend Es) as [Hend' Hne].
      specialize (IH Hend').
      destruct rest as [|s' rest']; [congruence|].
      destruct (search s text); [|exact IH].
      unfold split_with, _keep_separator.
      pose proof (_split_text_with_regex_concat text s) as Hc.
      pose proof (_split_text_with_regex_nonempty text s true) as Hn.
      destruct (forallb (fun x => len x <? chunk_size)
                  (_split_text_with_regex text s true)) eqn:Eg.
      * rewrite split_loop_all_good.
        -- apply flush_good_short; assumption.
        -- apply Forall_forall. intros x Hx.
           rewrite forallb_forall in Eg. apply Z.ltb_lt. apply Eg. exact Hx.
      * apply forallb_false_ex in Eg as (x & Hx & Ex). apply Z.ltb_ge in Ex.
        rewrite (single_split _ text x Hn Hc Hx) by lia.
        cbn [split_loop].
        assert (Et : len text = chunk_size).
        { pose proof (single_split _ text x Hn Hc Hx ltac:(lia)) as E1.
          rewrite E1 in Hx. destruct Hx as [<-|[]]. lia. }
        replace (len text <? chunk_size) with false
          by (symmetry; apply Z.ltb_ge; lia).
        rewrite IH. reflexivity.
Qed.
End ShortText.

(** ** The claims on the splitter *)

Lemma cut_each_cons (k : nat) (cuts : list nat) (f : str) (frags : list str) :
  cut_each (k :: cuts) (f :: frags) = drop_last k f :: cut_each cuts frags.
Proof. reflexivity. Qed.

Lemma trim_overlaps_cons (k : nat) (cuts : list nat) (f f' : str)
  (frags : list str) :
  trim_overlaps (k :: cuts) (f :: f' :: frags)
  = drop_last k f :: trim_overlaps cuts (f' :: frags).
Proof. reflexivity. Qed.

Lemma trim_overlaps_cut_each (cuts : list nat) (frags : list str) :
  length cuts = length frags ->
  last cuts 0%nat = 0%nat ->
  trim_overlaps (removelast cuts) frags = cut_each cuts frags.
Proof.
  revert cuts. induction frags as [|f frags IH]; intros [|k cuts] Hl Hz;
    try discriminate; [reflexivity|].
  injection Hl as Hl. destruct frags as [|f' frags'].
  - destruct cuts; [|discriminate]. simpl in Hz. subst k.
    unfold cut_each. simpl. rewrite drop_last_0. reflexivity.
  - destruct cuts as [|k' cuts']; [discriminate|].
    specialize (IH (k' :: cuts') Hl Hz).
    change (removelast (k :: k' :: cuts')) with (k :: removelast (k' :: cuts')).
    rewrite trim_overlaps_cons, cut_each_cons, IH. reflexivity.
Qed.

Lemma removelast_length {A : Type} (l : list A) :
  length (removelast l) = pred (length l).
Proof.
  induction l as [|a l IH]; [reflexivity|].
  destruct l as [|b l']; [reflexivity|].
  change (removelast (a :: b :: l')) with (a :: removelast (b :: l')).
  simpl length in *. rewrite IH. reflexivity.
Qed.

Lemma Forall_removelast {A : Type} (P : A -> Prop) (l : list A) :
  Forall P l -> Forall P (removelast l).
Proof.
  induction 1 as [|a l Ha Hl IH]; [constructor|].
  destruct l as [|b l']; [constructor|].
  change (removelast (a :: b :: l')) with (a :: removelast (b :: l')).
  constructor; assumption.
Qed.

(** The sizes that [__init__] accepts. *)
Lemma split_text_eq (chunk_size chunk_overlap : Z) (text : str) :
  1 <= chunk_size -> 0 <= chunk_overlap <= chunk_size ->
  split_text chunk_size chunk_overlap text
  = _split_text chunk_size chunk_overlap _separators text.
Proof.
  intros Hc Ho. unfold split_text, __init__.
  destruct (Z.leb_spec chunk_size 0); [lia|].
  destruct (Z.ltb_spec chunk_overlap 0); [lia|].
  destruct (Z.ltb_spec chunk_size chunk_overlap); [lia|].
  reflexivity.
Qed.

Lemma split_text_Some_sizes (chunk_size chunk_overlap : Z) (text : str)
  (frags : list str) :
  split_text chunk_size chunk_overlap text = Some frags ->
  1 <= chunk_size /\ 0 <= chunk_overlap <= chunk_size.
Proof.
  unfold split_text, __init__.
  destruct (Z.leb_spec chunk_size 0); [discriminate|].
  destruct (Z.ltb_spec chunk_overlap 0); [discriminate|].
  destruct (Z.ltb_spec chunk_size chunk_overlap); [discriminate|].
  intros _. lia.
Qed.

(** For any chunk size and overlap that [__init__] accepts: the chunks give
    the text back once the overlaps are cut. *)
Lemma split_text_reconstructs (chunk_size chunk_overlap : Z) (text : str) :
  1 <= chunk_size -> 0 <= chunk_overlap <= chunk_size ->
  exists frags,
    split_text chunk_size chunk_overlap text = Some frags
    /\ reconstructs chunk_overlap frags text.
Proof.
  intros Hc Hov. rewrite split_text_eq by assumption.
  assert (Ho : 0 <= chunk_overlap) by lia.
  apply (_split_text_Q chunk_size chunk_overlap (reconstructs chunk_overlap)).
  - apply reconstructs_nil.
  - apply reconstructs_app.
  - intros good _. apply _merge_splits_reconstructs. exact Ho.
  - intros c. apply reconstructs_one. exact Ho.
  - exact _separators_end.
Qed.

(** For any chunk size of two characters or more: a text no longer than that
    gives its stripped self, or nothing. *)
Lemma split_text_short (chunk_size chunk_overlap : Z) (text : str) :
  2 <= chunk_size -> 0 <= chunk_overlap <= chunk_size ->
  len text <= chunk_size ->
  split_text chunk_size chunk_overlap text
  = Some (if is_empty (strip text) then [] else [strip text]).
Proof.
  intros Hc Hov Hlen. rewrite split_text_eq by lia.
  rewrite (_split_text_short chunk_size chunk_overlap Hc _separators text
             _separators_end Hlen).
  rewrite _join_docs_nil. simpl concat. rewrite app_nil_r.
  destruct (strip text); reflexivity.
Qed.

(** The splitter at work on a small scale: chunks of at most 10 characters,
    cut at spaces, each starting with the last word of the one before. *)
Example split_text_small :
  split_text 10 4 (lit "aa bb cc dd ee ff gg"%string)
  = Some [lit "aa bb cc"; lit "cc dd ee"; lit "ee ff gg"]%string.
Proof. reflexivity. Qed.

(** C5, as stated, fails: the two words are cut apart at the space and no
    overlap is kept, since either word alone is longer than the overlap; taking
    100 characters off the first fragment loses 100 letters. *)
Lemma C5_fixed_cut_loses_text :
  1000 < len two_long_words
  /\ splitter_split_text two_long_words
     = Some [repeat 97%N 600; repeat 98%N 600]
  /\ concat (trim_overlaps [100%nat] [repeat 97%N 600; repeat 98%N 600])
     = repeat 97%N 500 ++ repeat 98%N 600
  /\ squeeze two_long_words = repeat 97%N 600 ++ repeat 98%N 600
  /\ ~ up_to_gaps (trim_overlaps [100%nat] [repeat 97%N 600; repeat 98%N 600])
        two_long_words.
Proof.
  split; [reflexivity|].
  split; [vm_compute; reflexivity|].
  split; [vm_compute; reflexivity|].
  split; [vm_compute; reflexivity|].
  intros H. apply up_to_gaps_squeeze in H.
  apply (f_equal (@length char)) in H. vm_compute in H. discriminate.
Qed.

(** C5, amended: the description is the fragments in order, with nothing but
    white space between them, once some number of characters, at most 100 and
    possibly none, is taken off the end of every fragment but the last; in
    particular the two agree when white space is left out. *)
Theorem C5_overlaps_of_at_most_100 (text : str) :
  exists (frags : list str) (cuts : list nat),
    splitter_split_text text = Some frags
    /\ length cuts = pred (length frags)
    /\ Forall (fun k => (k <= 100)%nat) cuts
    /\ up_to_gaps (trim_overlaps cuts frags) text
    /\ squeeze (concat (trim_overlaps cuts frags)) = squeeze text.
Proof.
  destruct (split_text_reconstructs 1000 100 text ltac:(lia) ltac:(lia))
    as (frags & E & cuts & Hl & Hb & Hz & Hs).
  exists frags, (removelast cuts). split; [exact E|].
  split; [rewrite removelast_length, Hl; reflexivity|].
  split.
  - apply Forall_removelast. eapply Forall_impl; [|exact Hb].
    simpl. intros k Hk. lia.
  - rewrite trim_overlaps_cut_each by assumption.
    split; [exact Hs | apply up_to_gaps_squeeze; exact Hs].
Qed.

(** C6, as stated, fails: a short description that begins with a space comes
    back without it, and an empty or blank description gives no fragment. *)
Lemma C6_stripped_or_absent :
  len (lit " a"%string) <= 1000
  /\ splitter_split_text (lit " a"%string) = Some [lit "a"%string]
  /\ splitter_split_text (lit " a"%string) <> Some [lit " a"%string]
  /\ splitter_split_text [] = Some []
  /\ splitter_split_text (lit "  "%string) = Some [].
Proof.
  split; [vm_compute; discriminate|].
  split; [reflexivity|].
  split; [vm_compute; discriminate|].
  split; reflexivity.
Qed.

(** C6, amended: a description of at most 1000 characters gives one fragment,
    the description without the white space at its two ends, and no fragment
    when nothing is left of it. *)
Theorem C6_short_description_stripped (text : str) :
  len text <= 1000 ->
  splitter_split_text text
  = Some (if is_empty (strip text) then [] else [strip text]).
Proof.
  intros Hlen. apply split_text_short; [lia | lia | exact Hlen].
Qed.

Lemma C6_short_description_stripped_witness :
  splitter_split_text (lit " Soup Boil."%string)
  = Some (if is_empty (strip (lit " Soup Boil."%string)) then []
          else [strip (lit " Soup Boil."%string)]).
Proof.
  apply (C6_short_description_stripped (lit " Soup Boil."%string)).
  vm_compute. discriminate.
Defined.

(** For any chunk size and overlap that [__init__] accepts: the chunks are
    not empty and not longer than the chunk size. *)
Lemma split_text_fits (chunk_size chunk_overlap : Z) (text : str) :
  1 <= chunk_size -> 0 <= chunk_overlap <= chunk_size ->
  exists frags,
    split_text chunk_size chunk_overlap text = Some frags
    /\ Forall (fits chunk_size) frags.
Proof.
  intros Hc Hov. rewrite split_text_eq by assumption.
  assert (Ho : 0 <= chunk_overlap) by lia.
  apply (_split_text_Q chunk_size chunk_overlap
           (fun frags _ => Forall (fits chunk_size) frags)).
  - constructor.
  - intros f1 f2 _ _ H1 H2. apply Forall_app. auto.
  - intros good Hg.
    destruct (_merge_splits_fits chunk_size chunk_overlap Ho good ltac:(lia))
      as (chunks & E & H).
    + eapply Forall_impl; [|exact Hg]. simpl. intros s Hs. lia.
    + eauto.
  - intros c. constructor; [|constructor]. unfold fits. change (len [c]) with 1. lia.
  - exact _separators_end.
Qed.

(** C7: whatever the description, every fragment has at least one character
    and at most 1000, and so has the content of every document built for a
    row. *)
Theorem C7_fragments_fit (row : Recipe) :
  exists frags,
    splitter_split_text (description row) = Some frags
    /\ Forall (fits 1000) frags
    /\ row_documents row
       = Some (map (fun chunk => {| page_content := chunk;
                                    metadata_recipe := recipe row |}) frags).
Proof.
  destruct (split_text_fits 1000 100 (description row) ltac:(lia) ltac:(lia))
    as (frags & E & H).
  exists frags. split; [exact E|]. split; [exact H|].
  unfold row_documents, splitter_split_text. rewrite E. reflexivity.
Qed.

(** C8, as stated, fails: neither sentence reaches 1000 characters and the text
    has no line break, so cutting at the sentence end first would give the two
    sentences; the splitter cuts at spaces only, and its first fragment runs on
    past the end of the first sentence up to 1000 characters. *)
Lemma C8_no_sentence_separator :
  len sentence_a = 599 /\ len sentence_b = 599
  /\ search [newline] two_sentences = false
  /\ _split_text 1000 100 claimed_separators two_sentences
     = Some [sentence_a; lit ". "%string ++ sentence_b]
  /\ splitter_split_text two_sentences
     = Some [firstn 1000 two_sentences; skipn 901 two_sentences]
  /\ splitter_split_text two_sentences
     <> _split_text 1000 100 claimed_separators two_sentences.
Proof.
  split; [reflexivity|]. split; [reflexivity|].
  split; [vm_compute; reflexivity|].
  split; [vm_compute; reflexivity|].
  split; [vm_compute; reflexivity|].
  intros H.
  apply (f_equal (option_map (map (@length char)))) in H.
  vm_compute in H. discriminate.
Qed.

(** *** The long pieces go to the finer separators *)

Lemma flush_good_acc (chunk_size chunk_overlap : Z) (separator : str)
  (final_chunks good : list str) :
  flush_good chunk_size chunk_overlap separator final_chunks good
  = (r <- flush_good chunk_size chunk_overlap separator [] good ;;
     Some (final_chunks ++ r)).
Proof.
  unfold flush_good. destruct (is_empty good); simpl.
  - rewrite app_nil_r. reflexivity.
  - destruct (_merge_splits chunk_size chunk_overlap good separator); reflexivity.
Qed.

Lemma split_loop_acc (chunk_size chunk_overlap : Z)
  (recur : option (str -> option (list str))) (separator : str)
  (splits final_chunks good : list str) :
  split_loop chunk_size chunk_overlap recur separator splits final_chunks good
  = (r <- split_loop chunk_size chunk_overlap recur separator splits [] good ;;
     Some (final_chunks ++ r)).
Proof.
  revert final_chunks good.
  induction splits as [|s splits IH]; intros final_chunks good.
  - simpl. apply flush_good_acc.
  - cbn [split_loop]. destruct (len s <? chunk_size); [apply IH|].
    rewrite flush_good_acc.
    destruct (flush_good chunk_size chunk_overlap separator [] good) as [g|];
      simpl; [|reflexivity].
    assert (H : forall o,
               split_loop chunk_size chunk_overlap recur separator splits
                 ((final_chunks ++ g) ++ o) []
               = (r <- split_loop chunk_size chunk_overlap recur separator
                         splits (g ++ o) [] ;;
                  Some (final_chunks ++ r))).
    { intros o. rewrite IH, (IH (g ++ o)).
      destruct (split_loop chunk_size chunk_overlap recur separator splits [] []);
        simpl; [|reflexivity].
      rewrite <- !app_assoc. reflexivity. }
    destruct recur as [call|]; simpl.
    + destruct (call s) as [o|]; simpl; [apply H | reflexivity].
    + apply H.
Qed.

Lemma split_loop_good_prefix (chunk_size chunk_overlap : Z)
  (recur : option (str -> option (list str))) (separator : str)
  (good splits final_chunks good0 : list str) :
  Forall (fun s => len s < chunk_size) good ->
  split_loop chunk_size chunk_overlap recur separator (good ++ splits)
    final_chunks good0
  = split_loop chunk_size chunk_overlap recur separator splits
      final_chunks (good0 ++ good).
Proof.
  revert good0. induction good as [|g good IH]; intros good0 Hg.
  - simpl. rewrite app_nil_r. reflexivity.
  - inversion Hg as [|? ? Hlt Hg']; subst. cbn [app split_loop].
    replace (len g <? chunk_size) with true by (symmetry; apply Z.ltb_lt; exact Hlt).
    rewrite IH by exact Hg'. rewrite <- app_assoc. reflexivity.
Qed.

(** The loop of [_split_text] at the first split that is not shorter than the
    chunk size: the splits before it are merged, the split itself goes to the
    recursive call, and the loop starts afresh on the splits after it. *)
Lemma split_loop_first_long (chunk_size chunk_overlap : Z)
  (recur : option (str -> option (list str))) (separator : str)
  (good rest : list str) (s : str) :
  Forall (fun x => len x < chunk_size) good ->
  chunk_size <= len s ->
  split_loop chunk_size chunk_overlap recur separator (good ++ s :: rest) [] []
  = (before <- flush_good chunk_size chunk_overlap separator [] good ;;
     middle <- match recur with
               | None => Some [s]
               | Some call => call s
               end ;;
     after <- split_loop chunk_size chunk_overlap recur separator rest [] [] ;;
     Some (before ++ middle ++ after)).
Proof.
  intros Hg Hs. rewrite split_loop_good_prefix by exact Hg.
  cbn [split_loop app].
  replace (len s <? chunk_size) with false by (symmetry; apply Z.ltb_ge; exact Hs).
  destruct (flush_good chunk_size chunk_overlap separator [] good) as [before|];
    simpl; [|reflexivity].
  destruct recur as [call|]; simpl.
  - destruct (call s) as [middle|]; simpl; [|reflexivity].
    rewrite split_loop_acc.
    destruct (split_loop chunk_size chunk_overlap (Some call) separator rest [] []);
      simpl; [|reflexivity].
    rewrite <- app_assoc. reflexivity.
  - rewrite split_loop_acc.
    destruct (split_loop chunk_size chunk_overlap None separator rest [] []);
      simpl; [|reflexivity].
    rewrite <- app_assoc. reflexivity.
Qed.

Lemma default_pick_finer (text : str) :
  (fst (default_pick text) = [] <-> snd (default_pick text) = [])
  /\ (snd (default_pick text) <> [] -> ends_with_empty (snd (default_pick text))).
Proof.
  unfold default_pick.
  destruct (search [newline; newline] text).
  { split; [split; discriminate|]. intros _. exists [[newline]; [space]].
    reflexivity. }
  destruct (search [newline] text).
  { split; [split; discriminate|]. intros _. exists [[space]]. reflexivity. }
  destruct (search [space] text).
  { split; [split; discriminate|]. intros _. exists []. reflexivity. }
  split; [split; reflexivity|]. intros H. contradiction H. reflexivity.
Qed.

Lemma split_text_default_pick (chunk_size chunk_overlap : Z) (text : str) :
  _split_text chunk_size chunk_overlap _separators text
  = split_loop chunk_size chunk_overlap
      (match snd (default_pick text) with
       | [] => None
       | _ :: _ => Some (_split_text chunk_size chunk_overlap
                           (snd (default_pick text)))
       end)
      []
      (_split_text_with_regex text (fst (default_pick text)) _keep_separator)
      [] [].
Proof.
  rewrite _split_text_unfold.
  unfold pick_separator, _separators, default_pick. simpl.
  destruct (search [newline; newline] text); [reflexivity|].
  destruct (search [newline] text); [reflexivity|].
  destruct (search [space] text); reflexivity.
Qed.

Section FinerSeparators.
Variables chunk_size chunk_overlap : Z.
Hypothesis size_positive : 1 <= chunk_size.
Hypothesis overlap_nonneg : 0 <= chunk_overlap.

Let sized (frags : list str) (_ : str) : Prop := Forall (fits chunk_size) frags.

Lemma sized_app (f1 f2 : list str) (s1 s2 : str) :
  sized f1 s1 -> sized f2 s2 -> sized (f1 ++ f2) (s1 ++ s2).
Proof. intros H1 H2. apply Forall_app. auto. Qed.

Lemma sized_merge (good : list str) :
  Forall (fun s => len s < chunk_size) good ->
  exists chunks,
    _merge_splits chunk_size chunk_overlap good [] = Some chunks
    /\ sized chunks (concat good).
Proof.
  intros Hg.
  destruct (_merge_splits_fits chunk_size chunk_overlap overlap_nonneg good
              ltac:(lia)) as (chunks & E & H).
  - eapply Forall_impl; [|exact Hg]. simpl. intros s Hs. lia.
  - eauto.
Qed.

Lemma sized_char (c : char) : sized [[c]] [c].
Proof.
  constructor; [|constructor]. unfold fits. change (len [c]) with 1. lia.
Qed.

(** Whatever the separators left, a split is cut into chunks that fit. *)
Lemma finer_split_fits (finer : list str) (s : str) :
  ends_with_empty finer ->
  exists middle,
    _split_text chunk_size chunk_overlap finer s = Some middle
    /\ Forall (fits chunk_size) middle.
Proof.
  intros H.
  exact (_split_text_Q chunk_size chunk_overlap sized (Forall_nil _) sized_app
           sized_merge sized_char finer s H).
Qed.

Lemma flush_good_fits (good : list str) :
  Forall (fun s => len s < chunk_size) good ->
  exists before,
    flush_good chunk_size chunk_overlap [] [] good = Some before
    /\ Forall (fits chunk_size) before.
Proof.
  intros Hg.
  exact (flush_good_Q chunk_size chunk_overlap sized sized_app sized_merge
           [] good [] (Forall_nil _) Hg).
Qed.

(** The loop on the splits that the default separators give for a text. *)
Lemma split_loop_rest_fits (text : str) (rest : list str) :
  incl rest
    (_split_text_with_regex text (fst (default_pick text)) _keep_separator) ->
  exists after,
    split_loop chunk_size chunk_overlap
      (match snd (default_pick text) with
       | [] => None
       | _ :: _ => Some (_split_text chunk_size chunk_overlap
                           (snd (default_pick text)))
       end)
      [] rest [] [] = Some after
    /\ Forall (fits chunk_size) after.
Proof.
  intros Hincl.
  destruct (default_pick_finer text) as [Hsep Hend].
  destruct (snd (default_pick text)) as [|f finer] eqn:Ef.
  - assert (Es : fst (default_pick text) = []) by (apply Hsep; reflexivity).
    rewrite Es, _split_text_with_regex_chars in Hincl.
    destruct (split_loop_Q chunk_size chunk_overlap sized sized_app sized_merge
                None rest [] [] [] (Forall_nil _) (Forall_nil _))
      as (after & E & H).
    + apply Forall_forall. intros x Hx. apply Hincl, in_map_iff in Hx
        as (c & <- & _). right. apply sized_char.
    + eauto.
  - destruct (split_loop_Q chunk_size chunk_overlap sized sized_app sized_merge
                (Some (_split_text chunk_size chunk_overlap (f :: finer)))
                rest [] [] [] (Forall_nil _) (Forall_nil _))
      as (after & E & H).
    + apply Forall_forall. intros x _. right.
      apply finer_split_fits, Hend. discriminate.
    + eauto.
Qed.
End FinerSeparators.

(** The splitter falling back on the cut between characters for one word
    only: chunks of at most 5 characters, no overlap; the split [" bbbbbbbbbbbb"]
    keeps the space in front of it, so its first chunk is one letter short. *)
Example split_text_long_word :
  split_text 5 0 long_word_text
  = Some [lit "aa"; lit "bbbb"; lit "bbbbb"; lit "bbb"; lit "cc"]%string.
Proof. reflexivity. Qed.

(** C8, amended: [split_text] takes the first of the paragraph break, the line
    break, the space and the cut between characters that occurs in the text
    (there is no level for the end of a sentence) and splits the text there;
    when every split is shorter than [chunk_size] the splits are merged as
    they are and the finer separators are not used; a split that is not
    shorter than [chunk_size] is split in its turn with the separators after
    the chosen one, into chunks that fit, which come between the chunks merged
    from the splits before it and the chunks of the splits after it. *)
Theorem C8_separator_priority (chunk_size chunk_overlap : Z) (text : str) :
  let separator := fst (default_pick text) in
  let finer := snd (default_pick text) in
  let splits := _split_text_with_regex text separator _keep_separator in
  let recur := match finer with
               | [] => None
               | _ :: _ => Some (_split_text chunk_size chunk_overlap finer)
               end in
  1 <= chunk_size -> 0 <= chunk_overlap <= chunk_size ->
  (separator = [] <-> finer = [])
  /\ concat splits = text
  /\ split_text chunk_size chunk_overlap text
     = split_loop chunk_size chunk_overlap recur [] splits [] []
  /\ (Forall (fun s => len s < chunk_size) splits ->
      split_text chunk_size chunk_overlap text
      = flush_good chunk_size chunk_overlap [] [] splits)
  /\ (forall good s rest,
        splits = good ++ s :: rest ->
        Forall (fun x => len x < chunk_size) good ->
        chunk_size <= len s ->
        exists before middle after,
          split_text chunk_size chunk_overlap text
          = Some (before ++ middle ++ after)
          /\ flush_good chunk_size chunk_overlap [] [] good = Some before
          /\ match finer with
             | [] => middle = [s]
             | _ :: _ =>
                 _split_text chunk_size chunk_overlap finer s = Some middle
             end
          /\ Forall (fits chunk_size) middle
          /\ split_loop chunk_size chunk_overlap recur [] rest [] []
             = Some after).
Proof.
  intros separator finer splits recur Hc Hov.
  assert (Ho : 0 <= chunk_overlap) by lia.
  assert (Hloop : split_text chunk_size chunk_overlap text
                  = split_loop chunk_size chunk_overlap recur [] splits [] [])
    by (rewrite split_text_eq by assumption; apply split_text_default_pick).
  destruct (default_pick_finer text) as [Hsep Hend].
  split; [exact Hsep|].
  split; [apply _split_text_with_regex_concat|].
  split; [exact Hloop|].
  split.
  { intros Hs. rewrite Hloop.
    exact (split_loop_all_good chunk_size chunk_overlap recur [] splits [] [] Hs). }
  intros good s rest Hsplits Hg Hs.
  destruct (flush_good_fits chunk_size chunk_overlap Hc Ho good Hg)
    as (before & Eb & _).
  destruct (split_loop_rest_fits chunk_size chunk_overlap Hc Ho text rest)
    as (after & Ea & _).
  { intros x Hx. fold separator. fold splits. rewrite Hsplits.
    apply in_or_app. right. right. exact Hx. }
  fold finer in Ea. fold recur in Ea.
  assert (Hm : exists middle,
             match recur with
             | None => Some [s]
             | Some call => call s
             end = Some middle
             /\ match finer with
                | [] => middle = [s]
                | _ :: _ =>
                    _split_text chunk_size chunk_overlap finer s = Some middle
                end
             /\ Forall (fits chunk_size) middle).
  { unfold recur. fold finer in Hsep, Hend.
    destruct finer as [|f finer'] eqn:Ef.
    - exists [s]. split; [reflexivity|]. split; [reflexivity|].
      assert (Es : separator = []) by (apply Hsep; reflexivity).
      assert (Hin : In s splits) by (rewrite Hsplits; apply in_elt).
      unfold splits in Hin. rewrite Es, _split_text_with_regex_chars in Hin.
      apply in_map_iff in Hin as (c & <- & _).
      constructor; [|constructor]. unfold fits. change (len [c]) with 1 in *. lia.
    - destruct (finer_split_fits chunk_size chunk_overlap Hc Ho (f :: finer') s)
        as (middle & Em & Hfit); [apply Hend; discriminate|].
      exists middle. auto. }
  destruct Hm as (middle & Em & Hmid & Hfit).
  exists before, middle, after.
  split.
  { rewrite Hloop, Hsplits, split_loop_first_long by assumption.
    rewrite Eb. simpl. rewrite Em. simpl. rewrite Ea. reflexivity. }
  auto.
Qed.

Lemma C8_separator_priority_witness :
  let separator := fst (default_pick long_word_text) in
  let finer := snd (default_pick long_word_text) in
  let splits := _split_text_with_regex long_word_text separator _keep_separator in
  let recur := match finer with
               | [] => None
               | _ :: _ => Some (_split_text 5 0 finer)
               end in
  (separator = [] <-> finer = [])
  /\ concat splits = long_word_text
  /\ split_text 5 0 long_word_text = split_loop 5 0 recur [] splits [] []
  /\ (Forall (fun s => len s < 5) splits ->
      split_text 5 0 long_word_text = flush_good 5 0 [] [] splits)
  /\ (forall good s rest,
        splits = good ++ s :: rest ->
        Forall (fun x => len x < 5) good ->
        5 <= len s ->
        exists before middle after,
          split_text 5 0 long_word_text = Some (before ++ middle ++ after)
          /\ flush_good 5 0 [] [] good = Some before
          /\ match finer with
             | [] => middle = [s]
             | _ :: _ => _split_text 5 0 finer s = Some middle
             end
          /\ Forall (fits 5) middle
          /\ split_loop 5 0 recur [] rest [] [] = Some after).
Proof.
  apply (C8_separator_priority 5 0 long_word_text).
  - lia.
  - lia.
Defined.

(** C10: the empty description is split into no chunk at all, so the loop of
    cell 9 appends no document for a recipe whose description is empty. *)
Theorem C10_empty_description_no_document :
  splitter_split_text [] = Some []
  /\ (forall name, row_documents {| recipe := name; description := [] |} = Some [])
  /\ (forall rows1 name rows2 docs,
        build_docs (rows1 ++ {| recipe := name; description := [] |} :: rows2) docs
        = build_docs (rows1 ++ rows2) docs).
Proof.
  split; [reflexivity|]. split; [reflexivity|].
  intros rows1 name rows2. induction rows1 as [|row rows1 IH]; intros docs.
  - simpl. rewrite app_nil_r. reflexivity.
  - simpl. destruct (row_documents row) as [new_docs|]; [|reflexivity].
    simpl. apply IH.
Qed.

(** ** More on the assignment of pages to recipes *)

(** X1: on a book with a page and an outline with an entry, every recipe has
    a page: its title is the title of a recipe-level entry of the outline that
    starts at or before a page of the range given to that entry, so no later
    than the last page of the range, and the text of that page occurs in the
    description. *)
Theorem recipes_come_from_outline (sorter : SortValues)
  (recipe_level first_page last_page : Z)
  (book_df : list BookRow) (doc_toc : list TocRow) :
  book_df <> [] -> doc_toc <> [] ->
  exists recipes,
    pipeline recipe_level first_page last_page book_df doc_toc = Some recipes
    /\ forall r, In r recipes ->
         exists b p,
           In b doc_toc /\ level b = recipe_level /\ title b = recipe r
           /\ In p book_df
           /\ first_page <= page_number p <= last_page
           /\ asof_backward (sorted_toc recipe_level doc_toc) (page_number p)
              = Some b
           /\ toc_page_number b <= page_number p
           /\ infix (text p) (description r).
Proof.
  intros Hne Htoc.
  eexists. split; [apply groups_pipeline; assumption|].
  intros r Hr. unfold join_texts in Hr. rewrite map_map in Hr. simpl in Hr.
  apply in_map_iff in Hr as (k & <- & Hk). simpl.
  apply keys_In in Hk as (p & Hp & Hres).
  unfold resolved_title in Hres.
  destruct (asof_backward (sorted_toc recipe_level doc_toc) (page_number p))
    as [b|] eqn:Eb; [|discriminate].
  injection Hres as Hres.
  destruct (asof_backward_greatest _ _ _ (sort_values_sorted _ _ _) Eb)
    as (Hb & Hle & _).
  apply sorted_toc_In in Hb as [Hb Hl].
  pose proof Hp as Hp'. apply sorted_pages_In in Hp' as [Hbook Hrange].
  exists b, p.
  split; [exact Hb|]. split; [exact Hl|]. split; [exact Hres|].
  split; [exact Hbook|]. split; [apply between_true; exact Hrange|].
  split; [exact Eb|]. split; [exact Hle|].
  apply infix_join, in_map. apply pages_titled_In. split; [exact Hp|].
  unfold resolved_title. rewrite Eb. simpl. rewrite Hres. reflexivity.
Qed.

Lemma recipes_come_from_outline_witness :
  exists recipes,
    @pipeline stable_sorter 2 23 449 plain_book plain_toc = Some recipes
    /\ forall r, In r recipes ->
         exists b p,
           In b plain_toc /\ level b = 2 /\ title b = recipe r
           /\ In p plain_book
           /\ 23 <= page_number p <= 449
           /\ asof_backward (@sorted_toc stable_sorter 2 plain_toc)
                (page_number p)
              = Some b
           /\ toc_page_number b <= page_number p
           /\ infix (text p) (description r).
Proof.
  apply (recipes_come_from_outline stable_sorter 2 23 449 plain_book plain_toc).
  - discriminate.
  - discriminate.
Defined.

Lemma length_flat_map_nonempty {A B : Type} (f : A -> list B) (l : list A) :
  (forall a, In a l -> f a <> []) ->
  (length l <= length (flat_map f l))%nat.
Proof.
  induction l as [|a l IH]; intros H; [reflexivity|].
  simpl. rewrite length_app.
  assert (Ha : f a <> []) by (apply H; left; reflexivity).
  assert (IH' : (length l <= length (flat_map f l))%nat)
    by (apply IH; intros b Hb; apply H; right; exact Hb).
  destruct (f a); [congruence|]. simpl. lia.
Qed.

Lemma flat_map_snd_map {A B : Type} (g : A -> list B) (l : list A) :
  flat_map snd (map (fun k => (k, g k)) l) = flat_map g l.
Proof.
  induction l as [|a l IH]; [reflexivity|]. simpl. rewrite IH. reflexivity.
Qed.

Lemma filter_length_le {A : Type} (f : A -> bool) (l : list A) :
  (length (filter f l) <= length l)%nat.
Proof.
  induction l as [|a l IH]; [reflexivity|].
  simpl. destruct (f a); simpl; lia.
Qed.

(** X2: on a book with a page and an outline with an entry, there are never
    more recipes than recipe-level entries in the outline, nor than pages in
    the range; and there is a recipe as soon as a page of the range has a
    recipe-level entry at or before it. *)
Theorem recipes_count_bounds (sorter : SortValues)
  (recipe_level first_page last_page : Z)
  (book_df : list BookRow) (doc_toc : list TocRow) :
  book_df <> [] -> doc_toc <> [] ->
  exists recipes,
    pipeline recipe_level first_page last_page book_df doc_toc = Some recipes
    /\ (length recipes
        <= length (filter (fun b => (level b =? recipe_level)%Z) doc_toc))%nat
    /\ (length recipes
        <= length (filter (fun p => ((first_page <=? page_number p)
                                     && (page_number p <=? last_page))%Z)
                     book_df))%nat
    /\ ((exists p b,
           In p book_df /\ first_page <= page_number p <= last_page
           /\ In b doc_toc /\ level b = recipe_level
           /\ toc_page_number b <= page_number p)
        -> recipes <> []).
Proof.
  intros Hbook Htoc.
  eexists. split; [apply groups_pipeline; assumption|].
  unfold join_texts. rewrite !length_map. split; [|split].
  - change (filter (fun b => (level b =? recipe_level)%Z) doc_toc)
      with (recipes_toc recipe_level doc_toc).
    rewrite <- (length_map title (recipes_toc recipe_level doc_toc)).
    apply NoDup_incl_length; [apply first_seen_NoDup|].
    intros k Hk. apply keys_In in Hk as (p & _ & Hres).
    unfold resolved_title in Hres.
    destruct (asof_backward (sorted_toc recipe_level doc_toc) (page_number p))
      as [b|] eqn:Eb; [|discriminate].
    injection Hres as <-. apply in_map.
    apply asof_backward_Some in Eb as (l1 & l2 & Hsplit & _).
    apply (Permutation_in _ (sort_values_perm _ toc_page_number _)).
    fold (sorted_toc recipe_level doc_toc). rewrite Hsplit. apply in_elt.
  - change (filter (fun p => (first_page <=? page_number p)
                             && (page_number p <=? last_page)) book_df)
      with (recipes_df first_page last_page book_df).
    pose proof (groups_members recipe_level first_page last_page book_df doc_toc)
      as Hperm.
    apply Permutation_length in Hperm.
    assert (Hle : (length (filter
                     (fun p => between first_page last_page (page_number p)
                               && has_boundary recipe_level doc_toc (page_number p))
                     book_df)
                   <= length (recipes_df first_page last_page book_df))%nat).
    { unfold recipes_df. rewrite <- filter_filter_and. apply filter_length_le. }
    etransitivity; [|exact Hle]. rewrite <- Hperm.
    rewrite flat_map_snd_map.
    apply length_flat_map_nonempty.
    intros k Hk. apply keys_In in Hk as (p & Hp & Hres).
    intros E.
    assert (Hin : In p (pages_titled (sorted_toc recipe_level doc_toc)
                          (sorted_pages first_page last_page book_df) k))
      by (apply pages_titled_In; auto).
    rewrite E in Hin. contradiction.
  - intros (p & b & Hp & Hr & Hb & Hl & Hle) E.
    apply map_eq_nil, map_eq_nil in E.
    assert (HbT : In b (sorted_toc recipe_level doc_toc))
      by (apply sorted_toc_In; auto).
    destruct (asof_backward (sorted_toc recipe_level doc_toc) (page_number p))
      as [b'|] eqn:Eb.
    2:{ rewrite asof_backward_None in Eb. specialize (Eb b HbT). lia. }
    assert (Hk : In (title b')
                   (first_seen
                      (flat_map
                         (fun p => opt_list
                                     (resolved_title
                                        (sorted_toc recipe_level doc_toc) p))
                         (sorted_pages first_page last_page book_df)))).
    { apply keys_In. exists p. split.
      - apply sorted_pages_In. split; [exact Hp | apply between_true; exact Hr].
      - unfold resolved_title. rewrite Eb. reflexivity. }
    rewrite E in Hk. contradiction.
Qed.

Lemma recipes_count_bounds_witness :
  exists recipes,
    @pipeline stable_sorter 2 23 449 plain_book plain_toc = Some recipes
    /\ (length recipes <= length (filter (fun b => (level b =? 2)%Z) plain_toc))%nat
    /\ (length recipes
        <= length (filter (fun p => ((23 <=? page_number p)
                                     && (page_number p <=? 449))%Z)
                     plain_book))%nat
    /\ ((exists p b,
           In p plain_book /\ 23 <= page_number p <= 449
           /\ In b plain_toc /\ level b = 2
           /\ toc_page_number b <= page_number p)
        -> recipes <> []).
Proof.
  apply (recipes_count_bounds stable_sorter 2 23 449 plain_book plain_toc).
  - discriminate.
  - discriminate.
Defined.

Lemma inferred_dtype_perm {A : Type} (l1 l2 : list A) :
  Permutation l1 l2 -> inferred_dtype l1 = inferred_dtype l2.
Proof.
  intros H. destruct l1 as [|x l1], l2 as [|y l2]; try reflexivity.
  - apply Permutation_nil in H. discriminate.
  - apply Permutation_sym, Permutation_nil in H. discriminate.
Qed.

Lemma sort_values_row_order (s1 s2 : SortValues) {A : Type} (key : A -> Z)
  (l1 l2 : list A) :
  Permutation l1 l2 ->
  NoDup (map key l1) ->
  @sort_values s1 A key l1 = @sort_values s2 A key l2.
Proof.
  intros Hp Hnd. apply (sorted_perm_unique key).
  - apply sort_values_sorted.
  - apply sort_values_sorted.
  - rewrite !sort_values_perm. exact Hp.
  - eapply Permutation_NoDup; [|exact Hnd].
    apply Permutation_map, Permutation_sym, sort_values_perm.
Qed.

(** X3: when no two pages of the range have the same number and no two
    recipe-level entries start on the same page, the recipes depend neither on
    the order of the rows of the two frames nor on how [sort_values] orders
    equal keys: the same rows in any order, sorted by any sorter, give the
    same recipes. *)
Theorem recipes_independent_of_row_order (s1 s2 : SortValues)
  (recipe_level first_page last_page : Z)
  (book_df1 book_df2 : list BookRow) (doc_toc1 doc_toc2 : list TocRow) :
  Permutation book_df1 book_df2 ->
  Permutation doc_toc1 doc_toc2 ->
  NoDup (map page_number (recipes_df first_page last_page book_df1)) ->
  NoDup (map toc_page_number (recipes_toc recipe_level doc_toc1)) ->
  @pipeline s1 recipe_level first_page last_page book_df1 doc_toc1
  = @pipeline s2 recipe_level first_page last_page book_df2 doc_toc2.
Proof.
  intros Hb Hd Hp Ht. unfold pipeline, recipes_combined, merged.
  rewrite (inferred_dtype_perm _ _ Hb), (inferred_dtype_perm _ _ Hd).
  rewrite (sort_values_row_order s1 s2 page_number
             (recipes_df first_page last_page book_df1)
             (recipes_df first_page last_page book_df2)
             (Permutation_filter_in _ _ _ Hb) Hp).
  rewrite (sort_values_row_order s1 s2 toc_page_number
             (recipes_toc recipe_level doc_toc1)
             (recipes_toc recipe_level doc_toc2)
             (Permutation_filter_in _ _ _ Hd) Ht).
  reflexivity.
Qed.

Lemma recipes_independent_of_row_order_witness :
  @pipeline stable_sorter 2 23 449 plain_book plain_toc
  = @pipeline reversing_sorter 2 23 449 (rev plain_book) (rev plain_toc).
Proof.
  apply (recipes_independent_of_row_order stable_sorter reversing_sorter
           2 23 449 plain_book (rev plain_book) plain_toc (rev plain_toc)).
  - apply Permutation_rev.
  - apply Permutation_rev.
  - vm_compute. repeat constructor; simpl; intuition discriminate.
  - vm_compute. repeat constructor; simpl; intuition discriminate.
Defined.

Lemma page_recipe (sorter : SortValues) (recipe_level first_page last_page : Z)
  (book_df : list BookRow) (doc_toc : list TocRow) (recipes : list Recipe)
  (p : BookRow) (b : TocRow) :
  pipeline recipe_level first_page last_page book_df doc_toc = Some recipes ->
  In p book_df ->
  between first_page last_page (page_number p) = true ->
  asof_backward (sorted_toc recipe_level doc_toc) (page_number p) = Some b ->
  exists r,
    In r recipes /\ recipe r = title b /\ infix (text p) (description r).
Proof.
  intros Hpipe. destruct (pipeline_Some_nonempty _ _ _ _ _ _ _ Hpipe) as [Hbook Htoc].
  revert Hpipe. rewrite groups_pipeline by assumption. intros [= <-] Hin Hrange Eb.
  assert (Hp : In p (sorted_pages first_page last_page book_df))
    by (apply sorted_pages_In; auto).
  assert (Hres : resolved_title (sorted_toc recipe_level doc_toc) p
                 = Some (title b))
    by (unfold resolved_title; rewrite Eb; reflexivity).
  destruct (group_of_page recipe_level first_page last_page book_df doc_toc
              p (title b) Hp Hres) as [Hg Hinp].
  exists {| recipe := title b;
            description :=
              join (lit " "%string)
                (map text (pages_titled (sorted_toc recipe_level doc_toc)
                             (sorted_pages first_page last_page book_df)
                             (title b))) |}.
  split.
  - unfold join_texts. apply in_map_iff.
    eexists. split; [|exact Hg]. reflexivity.
  - split; [reflexivity|]. simpl. apply infix_join, in_map. exact Hinp.
Qed.

(** X4: a page of the range that has a recipe-level entry at or before it has
    its text in the description of a recipe, the one that bears the title
    found for the page. *)
Theorem page_text_in_description (sorter : SortValues)
  (recipe_level first_page last_page : Z)
  (book_df : list BookRow) (doc_toc : list TocRow) (p : BookRow) (b : TocRow) :
  In p book_df -> first_page <= page_number p <= last_page ->
  In b doc_toc -> level b = recipe_level ->
  toc_page_number b <= page_number p ->
  exists recipes r,
    pipeline recipe_level first_page last_page book_df doc_toc = Some recipes
    /\ In r recipes
    /\ resolved_title (sorted_toc recipe_level doc_toc) p = Some (recipe r)
    /\ infix (text p) (description r).
Proof.
  intros Hp Hr Hb Hl Hle.
  assert (HbT : In b (sorted_toc recipe_level doc_toc))
    by (apply sorted_toc_In; auto).
  destruct (asof_backward (sorted_toc recipe_level doc_toc) (page_number p))
    as [b'|] eqn:Eb.
  2:{ rewrite asof_backward_None in Eb. specialize (Eb b HbT). lia. }
  destruct (pipeline recipe_level first_page last_page book_df doc_toc)
    as [recipes|] eqn:Er.
  2:{ apply pipeline_None_iff in Er as [E|E];
        [rewrite E in Hp | rewrite E in Hb]; contradiction. }
  destruct (page_recipe sorter recipe_level first_page last_page book_df doc_toc
              recipes p b' Er Hp ltac:(apply between_true; exact Hr) Eb)
    as (r & Hin & Ht & Hi).
  exists recipes, r. split; [reflexivity|]. split; [exact Hin|].
  split; [|exact Hi].
  unfold resolved_title. rewrite Eb, Ht. reflexivity.
Qed.

Lemma page_text_in_description_witness :
  exists recipes r,
    @pipeline stable_sorter 2 23 449 plain_book plain_toc = Some recipes
    /\ In r recipes
    /\ resolved_title (@sorted_toc stable_sorter 2 plain_toc)
         (page 24 "Beat."%string)
       = Some (recipe r)
    /\ infix (text (page 24 "Beat."%string)) (description r).
Proof.
  apply (page_text_in_description stable_sorter 2 23 449 plain_book plain_toc
           (page 24 "Beat."%string) (entry 2 "Eggs"%string 23)).
  - simpl. auto.
  - simpl. lia.
  - simpl. auto.
  - reflexivity.
  - simpl. lia.
Defined.

(** X5: later pages get later entries: if a page number has an entry, every
    greater page number has one too, and it does not start earlier. *)
Theorem later_page_later_entry (sorter : SortValues) (recipe_level : Z)
  (doc_toc : list TocRow) (k1 k2 : Z) (b1 : TocRow) :
  asof_backward (sorted_toc recipe_level doc_toc) k1 = Some b1 ->
  k1 <= k2 ->
  exists b2,
    asof_backward (sorted_toc recipe_level doc_toc) k2 = Some b2
    /\ toc_page_number b1 <= toc_page_number b2 <= k2.
Proof.
  intros E1 Hk.
  destruct (asof_backward_greatest _ _ _ (sort_values_sorted _ _ _) E1)
    as (Hb1 & Hle1 & _).
  destruct (asof_backward (sorted_toc recipe_level doc_toc) k2) as [b2|] eqn:E2.
  - destruct (asof_backward_greatest _ _ _ (sort_values_sorted _ _ _) E2)
      as (_ & Hle2 & Hmax).
    exists b2. split; [reflexivity|]. split; [|exact Hle2].
    apply Hmax; [exact Hb1 | lia].
  - rewrite asof_backward_None in E2. specialize (E2 _ Hb1). lia.
Qed.

Lemma later_page_later_entry_witness :
  exists b2,
    asof_backward (@sorted_toc stable_sorter 2 plain_toc) 26 = Some b2
    /\ toc_page_number (entry 2 "Eggs"%string 23) <= toc_page_number b2 <= 26.
Proof.
  apply (later_page_later_entry stable_sorter 2 plain_toc 24 26
           (entry 2 "Eggs"%string 23)).
  - reflexivity.
  - lia.
Defined.

(** ** Recipes as runs of pages *)

Section Blocks.
Variable A : Type.
Variable f : A -> option str.

Let keys_of (rows : list A) : list str := flat_map (fun p => opt_list (f p)) rows.
Let group (rows : list A) (k : str) : list A :=
  filter (fun p => titled k (f p)) rows.

Lemma in_blocks_tail (x : A) (rows : list A) :
  in_blocks f (x :: rows) -> in_blocks f rows.
Proof.
  intros H l1 a l2 b l3 t E. apply (H (x :: l1) a l2 b l3 t).
  rewrite E. reflexivity.
Qed.

Lemma filter_all {B : Type} (g : B -> bool) (l : list B) :
  (forall b, In b l -> g b = true) -> filter g l = l.
Proof.
  induction l as [|b l IH]; intros H; [reflexivity|].
  simpl. rewrite (H b (or_introl eq_refl)). f_equal.
  apply IH. intros c Hc. apply H. right; exact Hc.
Qed.

Lemma group_absent (rows : list A) (t : str) :
  ~ In t (keys_of rows) -> group rows t = [].
Proof.
  unfold group, keys_of. induction rows as [|p rows IH]; intros H; [reflexivity|].
  simpl in *. destruct (f p) as [k|] eqn:E; simpl in *.
  - destruct (str_eqb t k) eqn:Et.
    + apply str_eqb_eq in Et. subst. exfalso. apply H. left; reflexivity.
    + apply IH. intros Hin. apply H. right; exact Hin.
  - apply IH. exact H.
Qed.

(** After a row of key [t], the first key met among the following rows is [t]
    if [t] is met at all. *)
Lemma first_key_after (x : A) (rows : list A) (t : str) :
  in_blocks f (x :: rows) -> f x = Some t ->
  In t (keys_of rows) ->
  exists ks, keys_of rows = t :: ks.
Proof.
  intros Hb Hx. unfold keys_of.
  enough (H : forall front,
             Forall (fun z => f z = Some t) front ->
             in_blocks f (x :: front ++ rows) ->
             In t (flat_map (fun p => opt_list (f p)) rows) ->
             exists ks, flat_map (fun p => opt_list (f p)) rows = t :: ks)
    by (apply (H []); [constructor | exact Hb]).
  clear Hb. induction rows as [|q rows IH]; intros front Hfront Hb Hin;
    [contradiction|].
  simpl in *. destruct (f q) as [t'|] eqn:Eq; simpl in *.
  - destruct Hin as [->|Hin]; [eauto|].
    apply in_flat_map in Hin as (y & Hy & Hty).
    destruct (f y) as [ty|] eqn:Ey; [|contradiction].
    destruct Hty as [->|[]].
    apply in_split in Hy as (r1 & r2 & ->).
    assert (Hq : f q = Some t).
    { apply (Hb [] x (front ++ q :: r1) y r2 t).
      - simpl. rewrite <- app_assoc. reflexivity.
      - exact Hx.
      - exact Ey.
      - apply in_or_app. right. left. reflexivity. }
    rewrite Eq in Hq. injection Hq as ->. eauto.
  - exfalso.
    apply in_flat_map in Hin as (y & Hy & Hty).
    destruct (f y) as [ty|] eqn:Ey; [|contradiction].
    destruct Hty as [->|[]].
    apply in_split in Hy as (r1 & r2 & ->).
    assert (Hq : f q = Some t).
    { apply (Hb [] x (front ++ q :: r1) y r2 t).
      - simpl. rewrite <- app_assoc. reflexivity.
      - exact Hx.
      - exact Ey.
      - apply in_or_app. right. left. reflexivity. }
    congruence.
Qed.

(** When equal keys stand together, the groups in first-seen order, one after
    the other, are the rows that have a key, in row order. *)
Lemma groups_in_row_order (rows : list A) :
  in_blocks f rows ->
  flat_map (group rows) (first_seen (keys_of rows))
  = filter (fun p => is_some (f p)) rows.
Proof.
  induction rows as [|p rows IH]; intros Hb; [reflexivity|].
  specialize (IH (in_blocks_tail _ _ Hb)).
  unfold keys_of, group in *. simpl.
  destruct (f p) as [t|] eqn:Ep; simpl.
  - rewrite str_eqb_refl. simpl. f_equal. rewrite <- IH.
    rewrite (flat_map_ext_in _ (fun k => filter (fun q => titled k (f q)) rows)
               (filter (fun k' => negb (str_eqb t k'))
                  (first_seen (flat_map (fun q => opt_list (f q)) rows)))).
    2:{ intros k Hk. apply filter_In in Hk as [_ Hk].
        rewrite str_eqb_sym. apply negb_true_iff in Hk. rewrite Hk.
        reflexivity. }
    destruct (mem t (flat_map (fun q => opt_list (f q)) rows)) eqn:M.
    + apply mem_In in M.
      destruct (first_key_after p rows t Hb Ep M) as (ks & Eks).
      unfold keys_of in Eks. rewrite Eks. simpl.
      rewrite str_eqb_refl. simpl. f_equal. f_equal.
      apply filter_all.
      intros k Hk. apply filter_In in Hk as [_ Hk]. exact Hk.
    + assert (Hn : ~ In t (flat_map (fun q => opt_list (f q)) rows))
        by (rewrite <- mem_In, M; discriminate).
      pose proof (group_absent rows t Hn) as Hg. unfold group in Hg.
      rewrite Hg. simpl. f_equal. apply filter_all. intros k Hk.
      apply negb_true_iff, str_eqb_neq. intros ->.
      apply Hn. rewrite first_seen_In in Hk. exact Hk.
  - exact IH.
Qed.
End Blocks.

Lemma StronglySorted_app_order {A : Type} (key : A -> Z) (l1 l2 : list A)
  (x y : A) :
  StronglySorted (fun a b => key a <= key b) (l1 ++ x :: l2) ->
  In y l2 -> key x <= key y.
Proof.
  induction l1 as [|a l1 IH]; intros Hs Hy; simpl in Hs.
  - inversion Hs as [|? ? _ Hall]; subst.
    rewrite Forall_forall in Hall. apply Hall. exact Hy.
  - inversion Hs; subst. apply IH; assumption.
Qed.

(** With distinct titles the pages of a title stand together in the page-sorted
    frame. *)
Lemma resolved_titles_in_blocks (sorter : SortValues)
  (recipe_level first_page last_page : Z)
  (book_df : list BookRow) (doc_toc : list TocRow) :
  NoDup (map title (recipes_toc recipe_level doc_toc)) ->
  in_blocks (resolved_title (sorted_toc recipe_level doc_toc))
    (sorted_pages first_page last_page book_df).
Proof.
  intros Hnd l1 x l2 y l3 t Hsplit Hx Hy z Hz.
  set (T := sorted_toc recipe_level doc_toc) in *.
  assert (HndT : NoDup (map title T)).
  { eapply Permutation_NoDup; [|exact Hnd].
    apply Permutation_map, Permutation_sym, sort_values_perm. }
  assert (Hs : StronglySorted (fun a b => page_number a <= page_number b)
                 (l1 ++ x :: l2 ++ y :: l3))
    by (rewrite <- Hsplit; apply sort_values_sorted).
  assert (Hxz : page_number x <= page_number z).
  { apply (StronglySorted_app_order page_number l1 (l2 ++ y :: l3) x z Hs).
    apply in_or_app. left. exact Hz. }
  assert (Hzy : page_number z <= page_number y).
  { apply in_split in Hz as (m1 & m2 & ->).
    replace (l1 ++ x :: (m1 ++ z :: m2) ++ y :: l3)
      with ((l1 ++ x :: m1) ++ z :: (m2 ++ y :: l3)) in Hs
      by (rewrite <- ?app_assoc; simpl; rewrite <- ?app_assoc; reflexivity).
    apply (StronglySorted_app_order page_number _ _ z y Hs).
    apply in_or_app. right. left. reflexivity. }
  unfold resolved_title in *.
  destruct (asof_backward T (page_number x)) as [bx|] eqn:Ex; [|discriminate].
  destruct (asof_backward T (page_number y)) as [b|] eqn:Ey; [|discriminate].
  simpl in Hx, Hy. injection Hx as Hx. injection Hy as Hy.
  destruct (asof_backward_greatest T _ _ (sort_values_sorted _ _ _) Ex)
    as (Hbx & Hlex & _).
  apply asof_backward_Some in Ey as (m1 & m2 & ET & Hley & Hafter).
  assert (Hb : In b T) by (rewrite ET; apply in_elt).
  assert (bx = b) by (apply (NoDup_map_eq title T); congruence).
  subst bx.
  rewrite ET, (asof_backward_last_at m1 m2 b (page_number z)).
  - simpl. rewrite Hy. reflexivity.
  - lia.
  - eapply Forall_impl; [|exact Hafter]. simpl. intros r Hr. lia.
Qed.

Lemma StronglySorted_filter_keep {A : Type} (R : A -> A -> Prop)
  (f : A -> bool) (l : list A) :
  StronglySorted R l -> StronglySorted R (filter f l).
Proof.
  induction 1 as [|x l Hs IH Hx]; simpl; [constructor|].
  destruct (f x); [|exact IH].
  constructor; [exact IH|].
  apply Forall_forall. intros y Hy. apply filter_In in Hy as [Hy _].
  rewrite Forall_forall in Hx. apply Hx, Hy.
Qed.

(** X7: on a book with a page and an outline whose recipe-level entries have
    distinct titles, the recipes come out in page order and each is a run of
    consecutive pages: the pages of the recipes, read recipe after recipe, are
    the pages of the range that have an entry at or before them, in ascending
    page order, as [sort_values] has put them. *)
Theorem recipes_in_page_order (sorter : SortValues)
  (recipe_level first_page last_page : Z)
  (book_df : list BookRow) (doc_toc : list TocRow) :
  book_df <> [] -> doc_toc <> [] ->
  NoDup (map title (filter (fun b => level b =? recipe_level) doc_toc)) ->
  exists groups,
    assignment recipe_level first_page last_page book_df doc_toc = Some groups
    /\ pipeline recipe_level first_page last_page book_df doc_toc
       = Some (join_texts groups)
    /\ StronglySorted (fun a b => page_number a <= page_number b)
         (flat_map snd groups)
    /\ Permutation (flat_map snd groups)
         (filter (fun p => (first_page <=? page_number p)
                           && (page_number p <=? last_page)
                           && has_boundary recipe_level doc_toc (page_number p))
                 book_df)
    /\ flat_map snd groups
       = filter (fun p => has_boundary recipe_level doc_toc (page_number p))
           (sorted_pages first_page last_page book_df).
Proof.
  intros Hbook Htoc Hnd.
  assert (Heq : flat_map snd
                  (map (fun k => (k, pages_titled (sorted_toc recipe_level doc_toc)
                                       (sorted_pages first_page last_page book_df)
                                       k))
                     (first_seen
                        (flat_map
                           (fun p => opt_list
                                       (resolved_title
                                          (sorted_toc recipe_level doc_toc) p))
                           (sorted_pages first_page last_page book_df))))
                = filter (fun p => has_boundary recipe_level doc_toc
                                     (page_number p))
                    (sorted_pages first_page last_page book_df)).
  { rewrite flat_map_snd_map.
    pose proof (groups_in_row_order BookRow
                  (resolved_title (sorted_toc recipe_level doc_toc))
                  (sorted_pages first_page last_page book_df)
                  (resolved_titles_in_blocks sorter recipe_level first_page
                     last_page book_df doc_toc Hnd)) as H.
    unfold pages_titled. rewrite H.
    apply filter_ext. intros p. rewrite asof_has_boundary.
    unfold resolved_title.
    destruct (asof_backward (sorted_toc recipe_level doc_toc) (page_number p));
      reflexivity. }
  eexists. split; [apply groups_assignment; assumption|].
  split; [apply groups_pipeline; assumption|].
  split.
  { rewrite Heq. apply StronglySorted_filter_keep, sort_values_sorted. }
  split; [|exact Heq].
  exact (groups_members recipe_level first_page last_page book_df doc_toc).
Qed.

Lemma recipes_in_page_order_witness :
  exists groups,
    @assignment stable_sorter 2 23 449 plain_book plain_toc = Some groups
    /\ @pipeline stable_sorter 2 23 449 plain_book plain_toc
       = Some (join_texts groups)
    /\ StronglySorted (fun a b => page_number a <= page_number b)
         (flat_map snd groups)
    /\ Permutation (flat_map snd groups)
         (filter (fun p => (23 <=? page_number p) && (page_number p <=? 449)
                           && has_boundary 2 plain_toc (page_number p))
                 plain_book)
    /\ flat_map snd groups
       = filter (fun p => has_boundary 2 plain_toc (page_number p))
           (@sorted_pages stable_sorter 23 449 plain_book).
Proof.
  apply (recipes_in_page_order stable_sorter 2 23 449 plain_book plain_toc).
  - discriminate.
  - discriminate.
  - vm_compute. repeat constructor; simpl; intuition discriminate.
Defined.

(** ** More on the text splitter *)

(** *** Stripping twice *)

Lemma lstrip_head (s : str) :
  match lstrip s with
  | [] => True
  | c :: _ => isspace c = false
  end.
Proof.
  induction s as [|c s IH]; simpl; [exact I|].
  destruct (isspace c) eqn:E; [exact IH | exact E].
Qed.

Lemma lstrip_fixed (s : str) :
  match s with
  | [] => True
  | c :: _ => isspace c = false
  end ->
  lstrip s = s.
Proof. destruct s as [|c s]; simpl; [reflexivity|]. intros ->. reflexivity. Qed.

Lemma lstrip_lstrip (s : str) : lstrip (lstrip s) = lstrip s.
Proof. apply lstrip_fixed, lstrip_head. Qed.

Lemma rstrip_rstrip (s : str) : rstrip (rstrip s) = rstrip s.
Proof. unfold rstrip. rewrite rev_involutive, lstrip_lstrip. reflexivity. Qed.

Lemma lstrip_strip (s : str) : lstrip (strip s) = strip s.
Proof.
  apply lstrip_fixed. unfold strip.
  destruct (rstrip_split (lstrip s)) as (w & Hs & _).
  pose proof (lstrip_head s) as Hh.
  destruct (rstrip (lstrip s)) as [|c r]; [exact I|].
  rewrite Hs in Hh. exact Hh.
Qed.

Lemma strip_strip (s : str) : strip (strip s) = strip s.
Proof.
  unfold strip at 1. rewrite lstrip_strip. unfold strip. apply rstrip_rstrip.
Qed.

Lemma stripped_nonblank (f : str) : stripped f -> f <> [] -> squeeze f <> [].
Proof.
  intros Hs Hne Hb. apply strip_nil_iff in Hb. unfold stripped in Hs. congruence.
Qed.

Lemma squeeze_infix (a b : str) : infix a b -> squeeze b = [] -> squeeze a = [].
Proof.
  intros (front & back & ->) H. rewrite !squeeze_app in H.
  apply app_eq_nil in H as [_ H]. apply app_eq_nil in H as [H _]. exact H.
Qed.

(** *** Every chunk is a run of splits *)

Lemma stripped_run_snoc (splits : list str) (d doc : str) :
  stripped_run splits doc -> stripped_run (splits ++ [d]) doc.
Proof.
  intros (front & run & back & -> & Hd & Hne).
  exists front, run, (back ++ [d]). rewrite <- !app_assoc. auto.
Qed.

Lemma opt_join_docs_run (front cur : list str) :
  Forall (stripped_run (front ++ cur)) (opt_list (_join_docs cur [])).
Proof.
  destruct (_join_docs cur []) as [doc|] eqn:E; simpl; constructor; [|constructor].
  apply _join_docs_Some in E as [-> Hne].
  exists front, cur, []. rewrite app_nil_r. auto.
Qed.

Lemma stripped_run_infix (splits : list str) (doc : str) :
  stripped_run splits doc -> infix doc (concat splits).
Proof.
  intros (front & run & back & -> & -> & _).
  rewrite !concat_app. apply infix_app_r, infix_app_l.
  destruct (strip_split (concat run)) as (wa & wb & E & _).
  exists wa, wb. exact E.
Qed.

Lemma stripped_run_stripped (splits : list str) (doc : str) :
  stripped_run splits doc -> stripped doc.
Proof. intros (front & run & back & _ & -> & _). apply strip_strip. Qed.

Section MergeRuns.
Variables chunk_size chunk_overlap : Z.
Hypothesis overlap_nonneg : 0 <= chunk_overlap.

Lemma merge_loop_runs (splits : list str) (st : MergeState) (consumed : list str) :
  total st = len (concat (current_doc st)) ->
  (exists front, consumed = front ++ current_doc st) ->
  Forall (stripped_run consumed) (docs st) ->
  exists st',
    merge_loop chunk_size chunk_overlap [] splits st = Some st'
    /\ (exists front, consumed ++ splits = front ++ current_doc st')
    /\ Forall (stripped_run (consumed ++ splits)) (docs st').
Proof.
  revert st consumed.
  induction splits as [|d splits IH]; intros st consumed Ht (front & Hc) Hd.
  - exists st. rewrite app_nil_r. eauto.
  - cbn [merge_loop].
    destruct (merge_step_spec chunk_size chunk_overlap overlap_nonneg st d Ht)
      as (st1 & E & Ht1 & Hcase).
    rewrite E. simpl.
    replace (consumed ++ d :: splits) with ((consumed ++ [d]) ++ splits)
      by (rewrite <- app_assoc; reflexivity).
    apply IH; [exact Ht1| |].
    + destruct Hcase as [(_ & -> & _) | (popped & kept & Hk & _ & _ & _ & -> & _)].
      * exists front. rewrite Hc, <- app_assoc. reflexivity.
      * exists (front ++ popped). rewrite Hc, Hk, <- !app_assoc. reflexivity.
    + destruct Hcase as [(-> & _) | (popped & kept & _ & _ & _ & -> & _)].
      * eapply Forall_impl; [|exact Hd]. intros doc. apply stripped_run_snoc.
      * apply Forall_app. split.
        -- eapply Forall_impl; [|exact Hd]. intros doc. apply stripped_run_snoc.
        -- eapply Forall_impl; [intros doc; apply stripped_run_snoc|].
           rewrite Hc. apply opt_join_docs_run.
Qed.

Lemma _merge_splits_runs (splits : list str) :
  exists chunks,
    _merge_splits chunk_size chunk_overlap splits [] = Some chunks
    /\ Forall (stripped_run splits) chunks.
Proof.
  unfold _merge_splits.
  destruct (merge_loop_runs splits {| docs := []; current_doc := []; total := 0 |} [])
    as (st & E & (front & Hc) & Hd); simpl; auto.
  { exists []. reflexivity. }
  rewrite E. simpl. eexists. split; [reflexivity|].
  simpl in Hc, Hd. apply Forall_app. split; [exact Hd|].
  rewrite Hc. apply opt_join_docs_run.
Qed.
End MergeRuns.

(** *** A chunk size of two characters or more

    Single characters are then shorter than the chunk size, so at the last
    separator no split is appended as it is: every chunk comes out of
    [_merge_splits]. *)

Section SplitMerged.
Variables chunk_size chunk_overlap : Z.
Hypothesis two_or_more : 2 <= chunk_size.
Variable Q : list str -> str -> Prop.
Hypothesis Q_nil : Q [] [].
Hypothesis Q_app :
  forall f1 f2 s1 s2, Q f1 s1 -> Q f2 s2 -> Q (f1 ++ f2) (s1 ++ s2).
Hypothesis Q_merge :
  forall good,
    Forall (fun s => len s < chunk_size) good ->
    exists chunks,
      _merge_splits chunk_size chunk_overlap good [] = Some chunks
      /\ Q chunks (concat good).

Lemma _split_text_merged (separators : list str) (text : str) :
  ends_with_empty separators ->
  exists r,
    _split_text chunk_size chunk_overlap separators text = Some r /\ Q r text.
Proof.
  revert text. induction separators as [|s rest IH]; intros text Hend.
  - destruct Hend as ([|? ?] & E); discriminate.
  - cbn [_split_text]. destruct (is_empty s) eqn:Es.
    + apply is_empty_true in Es. subst s. unfold split_with.
      rewrite _split_text_with_regex_chars.
      destruct (split_loop_Q chunk_size chunk_overlap Q Q_app Q_merge
                  None (map (fun c => [c]) text) [] [] [] Q_nil
                  (Forall_nil _)) as (r & Er & Hr).
      { apply Forall_forall. intros x Hx. apply in_map_iff in Hx as (c & <- & _).
        left. change (len [c]) with 1. lia. }
      exists r. split; [exact Er|].
      simpl in Hr. rewrite concat_chars in Hr. exact Hr.
    + apply is_empty_false in Es.
      destruct (ends_with_empty_tail s rest Hend Es) as [Hend' Hne].
      destruct rest as [|s' rest']; [congruence|].
      destruct (search s text).
      * unfold split_with.
        destruct (split_loop_Q chunk_size chunk_overlap Q Q_app Q_merge
                    (Some (_split_text chunk_size chunk_overlap (s' :: rest')))
                    (_split_text_with_regex text s _keep_separator) [] [] []
                    Q_nil (Forall_nil _)) as (r & Er & Hr).
        { apply Forall_forall. intros x _. right. apply IH. exact Hend'. }
        exists r. split; [exact Er|].
        simpl in Hr. unfold _keep_separator in Hr.
        rewrite _split_text_with_regex_concat in Hr. exact Hr.
      * apply IH. exact Hend'.
Qed.
End SplitMerged.

(** What the chunks of a text are, for a chunk size of two or more: not empty,
    no longer than the chunk size, without white space at their ends, and
    each of them a run of characters of the text. *)
Lemma split_text_chunks (chunk_size chunk_overlap : Z) (text : str) :
  2 <= chunk_size -> 0 <= chunk_overlap <= chunk_size ->
  exists frags,
    split_text chunk_size chunk_overlap text = Some frags
    /\ Forall (fun f => fits chunk_size f /\ stripped f /\ infix f text) frags.
Proof.
  intros Hc Hov. rewrite split_text_eq by lia.
  assert (Ho : 0 <= chunk_overlap) by lia.
  apply (_split_text_merged chunk_size chunk_overlap Hc
           (fun frags text =>
              Forall (fun f => fits chunk_size f /\ stripped f /\ infix f text)
                frags)).
  - constructor.
  - intros f1 f2 s1 s2 H1 H2. apply Forall_app. split.
    + eapply Forall_impl; [|exact H1]. intros f (Hf & Hs & Hi).
      auto using infix_app_l.
    + eapply Forall_impl; [|exact H2]. intros f (Hf & Hs & Hi).
      auto using infix_app_r.
  - intros good Hg.
    destruct (_merge_splits_fits chunk_size chunk_overlap Ho good ltac:(lia))
      as (chunks & E & Hfit).
    { eapply Forall_impl; [|exact Hg]. simpl. intros s Hs. lia. }
    destruct (_merge_splits_runs chunk_size chunk_overlap Ho good)
      as (chunks' & E' & Hrun).
    assert (chunks' = chunks) by congruence. subst chunks'.
    exists chunks. split; [exact E|].
    rewrite Forall_forall in Hfit, Hrun. apply Forall_forall. intros f Hf.
    split; [apply Hfit, Hf|]. split.
    + eapply stripped_run_stripped, Hrun, Hf.
    + eapply stripped_run_infix, Hrun, Hf.
  - exact _separators_end.
Qed.

(** ** What the chunks of a description are *)

Lemma splitter_chunks (text : str) :
  exists frags,
    splitter_split_text text = Some frags
    /\ Forall (fun f => fits 1000 f /\ stripped f /\ infix f text) frags.
Proof. apply split_text_chunks; lia. Qed.

(** X8: every chunk of a description is a run of consecutive characters of the
    description: the splitter adds no character and changes none. *)
Theorem chunks_are_runs_of_the_text (text : str) :
  exists frags,
    splitter_split_text text = Some frags
    /\ Forall (fun f => infix f text) frags.
Proof.
  destruct (splitter_chunks text) as (frags & E & H).
  exists frags. split; [exact E|].
  eapply Forall_impl; [|exact H]. simpl. tauto.
Qed.

(** X9: with a chunk size of two characters or more and an overlap that is
    not negative and not greater than the chunk size, the splitter is built,
    [split_text] returns and no chunk starts or ends with white space. *)
Theorem chunks_are_stripped (chunk_size chunk_overlap : Z) (text : str) :
  2 <= chunk_size -> 0 <= chunk_overlap <= chunk_size ->
  exists frags,
    split_text chunk_size chunk_overlap text = Some frags
    /\ Forall stripped frags.
Proof.
  intros Hc Ho.
  destruct (split_text_chunks chunk_size chunk_overlap text Hc Ho)
    as (frags & E & H).
  exists frags. split; [exact E|].
  eapply Forall_impl; [|exact H]. simpl. tauto.
Qed.

Lemma chunks_are_stripped_witness :
  exists frags,
    split_text 1000 100 (lit "  Beat the eggs.  "%string) = Some frags
    /\ Forall stripped frags.
Proof.
  apply (chunks_are_stripped 1000 100 (lit "  Beat the eggs.  "%string)).
  - lia.
  - lia.
Defined.

Lemma split_text_nil_blank (chunk_size chunk_overlap : Z) (text : str) :
  split_text chunk_size chunk_overlap text = Some [] -> squeeze text = [].
Proof.
  intros E. destruct (split_text_Some_sizes _ _ _ _ E) as [Hc Ho].
  destruct (split_text_reconstructs chunk_size chunk_overlap text Hc Ho)
    as (frags & E' & cuts & Hlen & _ & _ & Hgaps).
  rewrite E in E'. injection E' as <-.
  destruct cuts; [|discriminate]. simpl in Hgaps.
  inversion Hgaps. assumption.
Qed.

(** X10: a description yields no chunk at all exactly when it holds nothing
    but white space. *)
Theorem no_chunk_iff_blank (text : str) :
  splitter_split_text text = Some [] <-> squeeze text = [].
Proof.
  split.
  - apply split_text_nil_blank.
  - intros Hb. destruct (splitter_chunks text) as (frags & E & H).
    rewrite E. f_equal. destruct frags as [|f frags]; [reflexivity|].
    inversion H as [|? ? (Hfit & Hs & Hi) _]; subst. exfalso.
    apply (stripped_nonblank f Hs).
    + intros ->. unfold fits in Hfit. change (len []) with 0 in Hfit. lia.
    + eapply squeeze_infix; eassumption.
Qed.

Lemma len_squeeze_le (s : str) : len (squeeze s) <= len s.
Proof.
  unfold len, squeeze. apply inj_le.
  induction s as [|c s IH]; [reflexivity|].
  simpl. destruct (negb (isspace c)); simpl; lia.
Qed.

Lemma len_drop_last_le (k : nat) (s : str) : len (drop_last k s) <= len s.
Proof.
  unfold len, drop_last. apply inj_le. rewrite length_firstn. lia.
Qed.

Lemma len_concat_cut_each (chunk_size : Z) (cuts : list nat) (frags : list str) :
  Forall (fits chunk_size) frags ->
  len (concat (cut_each cuts frags)) <= chunk_size * Z.of_nat (length frags).
Proof.
  revert cuts. induction frags as [|f frags IH]; intros cuts H.
  - destruct cuts; simpl; change (len []) with 0; lia.
  - inversion H as [|? ? Hf H']; subst.
    specialize (IH (tl cuts) H').
    assert (Hpos : 0 <= chunk_size * Z.of_nat (length frags)).
    { unfold fits in Hf. pose proof (len_nonneg f). nia. }
    destruct cuts as [|k cuts].
    + simpl. change (len []) with 0. unfold fits in Hf. nia.
    + unfold cut_each in *. simpl in *. rewrite len_app.
      pose proof (len_drop_last_le k f). unfold fits in Hf. nia.
Qed.

(** X11: the chunks of a description cannot be fewer than its characters
    require: a description with [n] characters other than white space yields
    at least [n / 1000] chunks. *)
Theorem chunks_hold_the_text (text : str) :
  exists frags,
    splitter_split_text text = Some frags
    /\ len (squeeze text) <= 1000 * Z.of_nat (length frags).
Proof.
  destruct (splitter_chunks text) as (frags & E & H).
  exists frags. split; [exact E|].
  destruct (split_text_reconstructs 1000 100 text ltac:(lia) ltac:(lia))
    as (frags' & E' & cuts & _ & _ & _ & Hgaps).
  unfold splitter_split_text in E. rewrite E in E'. injection E' as <-.
  rewrite <- (up_to_gaps_squeeze _ _ Hgaps).
  etransitivity; [apply len_squeeze_le|].
  apply len_concat_cut_each.
  eapply Forall_impl; [|exact H]. simpl. tauto.
Qed.

(** ** The documents of cell 9 *)

Lemma row_documents_chunks (row : Recipe) :
  exists frags,
    row_documents row
    = Some (map (fun chunk => {| page_content := chunk;
                                 metadata_recipe := recipe row |}) frags)
    /\ documents_of row
       = map (fun chunk => {| page_content := chunk;
                              metadata_recipe := recipe row |}) frags
    /\ splitter_split_text (description row) = Some frags
    /\ Forall (fun f => fits 1000 f /\ stripped f /\ infix f (description row))
         frags.
Proof.
  destruct (splitter_chunks (description row)) as (frags & E & H).
  exists frags. unfold documents_of, row_documents. rewrite E. simpl. auto.
Qed.

Lemma build_docs_flat_map (rows : list Recipe) (docs : list Document) :
  build_docs rows docs = Some (docs ++ flat_map documents_of rows).
Proof.
  revert docs. induction rows as [|row rows IH]; intros docs.
  - simpl. rewrite app_nil_r. reflexivity.
  - simpl. destruct (row_documents_chunks row) as (frags & E & E' & _).
    rewrite E, E'. simpl. rewrite IH, <- app_assoc. reflexivity.
Qed.

(** X12: the loop of cell 9 never fails and only appends: the documents it
    starts from stay in front, those of the rows follow row by row, and going
    through two frames in turn is going through them put end to end. *)
Theorem build_docs_appends_row_by_row (rows1 rows2 : list Recipe)
  (docs : list Document) :
  exists new1 new2,
    build_docs rows1 docs = Some (docs ++ new1)
    /\ build_docs rows2 (docs ++ new1) = Some (docs ++ new1 ++ new2)
    /\ build_docs (rows1 ++ rows2) docs = Some (docs ++ new1 ++ new2)
    /\ map metadata_recipe new1
       = flat_map (fun row => repeat (recipe row) (length (documents_of row)))
           rows1.
Proof.
  exists (flat_map documents_of rows1), (flat_map documents_of rows2).
  rewrite !build_docs_flat_map, flat_map_app, <- app_assoc.
  repeat split.
  induction rows1 as [|row rows1 IH]; [reflexivity|].
  simpl. rewrite map_app, IH. f_equal.
  destruct (row_documents_chunks row) as (frags & _ & -> & _).
  rewrite map_map, length_map. simpl.
  clear. induction frags as [|f frags IH]; simpl; congruence.
Qed.

(** ** From the book to the documents *)

Lemma recipe_entry (sorter : SortValues) (recipe_level first_page last_page : Z)
  (book_df : list BookRow) (doc_toc : list TocRow) (recipes : list Recipe)
  (r : Recipe) :
  pipeline recipe_level first_page last_page book_df doc_toc = Some recipes ->
  In r recipes ->
  exists b,
    In b doc_toc /\ level b = recipe_level /\ title b = recipe r
    /\ toc_page_number b <= last_page.
Proof.
  intros Hpipe.
  destruct (pipeline_Some_nonempty _ _ _ _ _ _ _ Hpipe) as [Hbook Htoc].
  revert Hpipe. rewrite groups_pipeline by assumption. intros [= <-] Hr.
  unfold join_texts in Hr. rewrite map_map in Hr. simpl in Hr.
  apply in_map_iff in Hr as (k & <- & Hk). simpl.
  apply keys_In in Hk as (p & Hp & Hres).
  unfold resolved_title in Hres.
  destruct (asof_backward (sorted_toc recipe_level doc_toc) (page_number p))
    as [b|] eqn:Eb; [|discriminate].
  injection Hres as Hres.
  destruct (asof_backward_greatest _ _ _ (sort_values_sorted _ _ _) Eb)
    as (Hb & Hle & _).
  apply sorted_toc_In in Hb as [Hb Hl].
  apply sorted_pages_In in Hp as [_ Hrange]. apply between_true in Hrange.
  exists b. repeat split; try assumption. lia.
Qed.

Lemma recipes_titles_NoDup (sorter : SortValues)
  (recipe_level first_page last_page : Z)
  (book_df : list BookRow) (doc_toc : list TocRow) (recipes : list Recipe) :
  pipeline recipe_level first_page last_page book_df doc_toc = Some recipes ->
  NoDup (map recipe recipes).
Proof.
  intros Hpipe.
  destruct (pipeline_Some_nonempty _ _ _ _ _ _ _ Hpipe) as [Hbook Htoc].
  revert Hpipe. rewrite groups_pipeline by assumption. intros [= <-].
  unfold join_texts. rewrite map_map. simpl.
  apply (groups_NoDup recipe_level first_page last_page book_df doc_toc).
Qed.

Lemma notebook_documents_eq (sorter : SortValues)
  (book_df : list BookRow) (doc_toc : list TocRow) :
  book_df <> [] -> doc_toc <> [] ->
  exists recipes,
    notebook_recipes book_df doc_toc = Some recipes
    /\ notebook_documents book_df doc_toc
       = Some (flat_map documents_of recipes).
Proof.
  intros Hbook Htoc. unfold notebook_documents, notebook_recipes.
  rewrite groups_pipeline by assumption. eexists. split; [reflexivity|].
  simpl. apply build_docs_flat_map.
Qed.

(** X6: cells 5 to 7 fail exactly when the book has no page or the outline no
    entry: [merge_asof] then raises [MergeError] on the dtype of an empty
    [page_number] column, while the two [sort_values] calls rule out its
    [ValueError]; and cell 9 adds no failure of its own.  When [merged] is
    built, its left columns are the pages of the range as [sort_values] has
    put them. *)
Theorem merge_fails_only_on_empty_frame (sorter : SortValues)
  (book_df : list BookRow) (doc_toc : list TocRow) :
  (merged_frame 2 23 449 book_df doc_toc = None
   <-> book_df = [] \/ doc_toc = [])
  /\ (notebook_recipes book_df doc_toc = None
      <-> book_df = [] \/ doc_toc = [])
  /\ (notebook_documents book_df doc_toc = None
      <-> book_df = [] \/ doc_toc = [])
  /\ forall rows,
       merged_frame 2 23 449 book_df doc_toc = Some rows ->
       map fst rows = sorted_pages 23 449 book_df.
Proof.
  assert (Hm : merged_frame 2 23 449 book_df doc_toc = None
               <-> book_df = [] \/ doc_toc = []).
  { unfold merged_frame. split.
    - intros H. destruct book_df as [|p book]; [left; reflexivity|].
      destruct doc_toc as [|b toc]; [right; reflexivity|].
      simpl inferred_dtype in H. rewrite merged_Some in H. discriminate.
    - unfold merged, merge_asof. intros [-> | ->]; [reflexivity|].
      destruct (inferred_dtype book_df); reflexivity. }
  split; [exact Hm|].
  split; [apply pipeline_None_iff|].
  split.
  - unfold notebook_documents.
    rewrite <- (pipeline_None_iff sorter 2 23 449 book_df doc_toc).
    unfold notebook_recipes.
    destruct (pipeline 2 23 449 book_df doc_toc) as [recipes|]; simpl.
    + rewrite build_docs_flat_map. split; discriminate.
    + tauto.
  - intros rows H.
    assert (Hbook : book_df <> []) by (intros E; rewrite (proj2 Hm) in H; auto; discriminate).
    assert (Htoc : doc_toc <> []) by (intros E; rewrite (proj2 Hm) in H; auto; discriminate).
    unfold merged_frame in H.
    rewrite !inferred_dtype_int64, merged_Some in H by assumption.
    injection H as <-. rewrite map_map. simpl. apply map_id.
Qed.

Lemma documents_of_In (row : Recipe) (d : Document) :
  In d (documents_of row) ->
  metadata_recipe d = recipe row
  /\ fits 1000 (page_content d) /\ stripped (page_content d)
  /\ infix (page_content d) (description row).
Proof.
  destruct (row_documents_chunks row) as (frags & _ & -> & _ & H).
  intros Hd. apply in_map_iff in Hd as (f & <- & Hf). simpl.
  rewrite Forall_forall in H. split; [reflexivity|]. apply H, Hf.
Qed.

(** X13: on a book with a page and an outline with an entry, cells 5 to 9
    return, and every document they build has between 1 and 1000 characters,
    no white space at its ends, and is a run of characters of the description
    of a recipe whose title it carries as metadata; that title is the title of
    a level-2 entry of the outline that starts no later than page 449. *)
Theorem notebook_documents_sound (sorter : SortValues)
  (book_df : list BookRow) (doc_toc : list TocRow) :
  book_df <> [] -> doc_toc <> [] ->
  exists recipes docs,
    notebook_recipes book_df doc_toc = Some recipes
    /\ notebook_documents book_df doc_toc = Some docs
    /\ forall d, In d docs ->
         fits 1000 (page_content d)
         /\ stripped (page_content d)
         /\ exists r b,
              In r recipes
              /\ metadata_recipe d = recipe r
              /\ infix (page_content d) (description r)
              /\ In b doc_toc /\ level b = 2
              /\ title b = metadata_recipe d
              /\ toc_page_number b <= 449.
Proof.
  intros Hbook Htoc.
  destruct (notebook_documents_eq sorter book_df doc_toc Hbook Htoc)
    as (recipes & Er & Ed).
  exists recipes, (flat_map documents_of recipes).
  split; [exact Er|]. split; [exact Ed|].
  intros d Hd. apply in_flat_map in Hd as (r & Hr & Hd).
  apply documents_of_In in Hd as (Hm & Hfit & Hs & Hi).
  split; [exact Hfit|]. split; [exact Hs|].
  destruct (recipe_entry sorter 2 23 449 book_df doc_toc recipes r Er Hr)
    as (b & Hb & Hl & Ht & Hle).
  exists r, b. rewrite Hm. auto 10.
Qed.

Lemma notebook_documents_sound_witness :
  exists recipes docs,
    @notebook_recipes stable_sorter plain_book plain_toc = Some recipes
    /\ @notebook_documents stable_sorter plain_book plain_toc = Some docs
    /\ forall d, In d docs ->
         fits 1000 (page_content d)
         /\ stripped (page_content d)
         /\ exists r b,
              In r recipes
              /\ metadata_recipe d = recipe r
              /\ infix (page_content d) (description r)
              /\ In b plain_toc /\ level b = 2
              /\ title b = metadata_recipe d
              /\ toc_page_number b <= 449.
Proof.
  apply (notebook_documents_sound stable_sorter plain_book plain_toc).
  - discriminate.
  - discriminate.
Defined.

(** X14: on a book with a page and an outline with an entry, a recipe has a
    document in the list built by cell 9 exactly when its description holds
    something other than white space; a recipe whose pages are blank is in
    [recipes_combined] but leaves no document. *)
Theorem recipe_has_document_iff_text (sorter : SortValues)
  (book_df : list BookRow) (doc_toc : list TocRow) :
  book_df <> [] -> doc_toc <> [] ->
  exists recipes docs,
    notebook_recipes book_df doc_toc = Some recipes
    /\ notebook_documents book_df doc_toc = Some docs
    /\ forall r, In r recipes ->
         ((exists d, In d docs /\ metadata_recipe d = recipe r)
          <-> squeeze (description r) <> []).
Proof.
  intros Hbook Htoc.
  destruct (notebook_documents_eq sorter book_df doc_toc Hbook Htoc)
    as (recipes & Er & Ed).
  exists recipes, (flat_map documents_of recipes).
  split; [exact Er|]. split; [exact Ed|].
  intros r Hr. split.
  - intros (d & Hd & Hm). apply in_flat_map in Hd as (r' & Hr' & Hd).
    apply documents_of_In in Hd as (Hm' & Hfit & Hs & Hi).
    assert (r' = r).
    { apply (NoDup_map_eq recipe recipes); [|assumption|assumption|congruence].
      eapply recipes_titles_NoDup. exact Er. }
    subst r'. intros Hb.
    apply (stripped_nonblank (page_content d) Hs).
    + intros E. unfold fits in Hfit. rewrite E in Hfit.
      change (len []) with 0 in Hfit. lia.
    + eapply squeeze_infix; eassumption.
  - intros Hne.
    destruct (row_documents_chunks r) as (frags & _ & Edocs & Es & _).
    destruct frags as [|f frags].
    + exfalso. apply Hne.
      apply (split_text_nil_blank 1000 100). exact Es.
    + exists {| page_content := f; metadata_recipe := recipe r |}.
      split; [|reflexivity].
      apply in_flat_map. exists r. split; [exact Hr|].
      rewrite Edocs. left. reflexivity.
Qed.

Lemma recipe_has_document_iff_text_witness :
  exists recipes docs,
    @notebook_recipes stable_sorter plain_book plain_toc = Some recipes
    /\ @notebook_documents stable_sorter plain_book plain_toc = Some docs
    /\ forall r, In r recipes ->
         ((exists d, In d docs /\ metadata_recipe d = recipe r)
          <-> squeeze (description r) <> []).
Proof.
  apply (recipe_has_document_iff_text stable_sorter plain_book plain_toc).
  - discriminate.
  - discriminate.
Defined.

(** ** The first page of a recipe *)

(** X15: the page on which a recipe-level entry starts goes to the recipe of
    an entry that starts on that very page (the entry itself when no other
    one shares its page), never to the recipe before: a page of the range
    whose number is the page number of a recipe-level entry has its text in
    the description of the recipe named after such an entry. *)
Theorem start_page_opens_recipe (sorter : SortValues)
  (recipe_level first_page last_page : Z)
  (book_df : list BookRow) (doc_toc : list TocRow) (b : TocRow) (p : BookRow) :
  In b doc_toc -> level b = recipe_level ->
  In p book_df -> first_page <= page_number p <= last_page ->
  page_number p = toc_page_number b ->
  exists recipes b' r,
    pipeline recipe_level first_page last_page book_df doc_toc = Some recipes
    /\ In b' doc_toc /\ level b' = recipe_level
    /\ toc_page_number b' = toc_page_number b
    /\ In r recipes /\ recipe r = title b'
    /\ infix (text p) (description r).
Proof.
  intros Hb Hl Hp Hrange Hpage.
  assert (HbT : In b (sorted_toc recipe_level doc_toc))
    by (apply sorted_toc_In; auto).
  destruct (asof_backward (sorted_toc recipe_level doc_toc) (page_number p))
    as [b'|] eqn:Eb.
  2:{ rewrite asof_backward_None in Eb. specialize (Eb b HbT). lia. }
  destruct (asof_backward_greatest _ _ _ (sort_values_sorted _ _ _) Eb)
    as (Hb' & Hle & Hmax).
  specialize (Hmax b HbT ltac:(lia)).
  apply sorted_toc_In in Hb' as [Hb' Hl'].
  destruct (pipeline recipe_level first_page last_page book_df doc_toc)
    as [recipes|] eqn:Er.
  2:{ apply pipeline_None_iff in Er as [E|E];
        [rewrite E in Hp | rewrite E in Hb]; contradiction. }
  destruct (page_recipe sorter recipe_level first_page last_page book_df doc_toc
              recipes p b' Er Hp ltac:(apply between_true; exact Hrange) Eb)
    as (r & Hr & Ht & Hi).
  exists recipes, b', r. repeat split; try assumption. lia.
Qed.

Lemma start_page_opens_recipe_witness :
  exists recipes b' r,
    @pipeline stable_sorter 2 23 449 plain_book plain_toc = Some recipes
    /\ In b' plain_toc /\ level b' = 2
    /\ toc_page_number b' = toc_page_number (entry 2 "Cake"%string 25)
    /\ In r recipes /\ recipe r = title b'
    /\ infix (text (page 25 "Cake"%string)) (description r).
Proof.
  apply (start_page_opens_recipe stable_sorter 2 23 449 plain_book plain_toc
           (entry 2 "Cake"%string 25) (page 25 "Cake"%string)).
  - simpl. auto.
  - reflexivity.
  - simpl. auto.
  - simpl. lia.
  - reflexivity.
Defined.

(** ** Splitting on a separator, and splitting again *)

Lemma startswith_self (sep rest : str) : startswith sep (sep ++ rest) = true.
Proof.
  induction sep as [|a sep IH]; [reflexivity|].
  simpl. rewrite N.eqb_refl, IH. reflexivity.
Qed.

Lemma Forall_tl {A : Type} (P : A -> Prop) (l : list A) :
  Forall P l -> Forall P (tl l).
Proof. intros H. destruct H; [constructor | assumption]. Qed.

(** X16: splitting a text on a separator, the separator kept, loses nothing:
    the splits put end to end are the text, none of them is empty, and every
    split after the first one starts with the separator. *)
Theorem splits_give_the_text_back (text separator : str) :
  concat (_split_text_with_regex text separator _keep_separator) = text
  /\ Forall (fun s => s <> [])
       (_split_text_with_regex text separator _keep_separator)
  /\ Forall (fun s => startswith separator s = true)
       (tl (_split_text_with_regex text separator _keep_separator)).
Proof.
  split; [apply _split_text_with_regex_concat|].
  split; [apply _split_text_with_regex_nonempty|].
  unfold _split_text_with_regex, _keep_separator.
  destruct separator as [|a sep].
  - simpl. apply Forall_forall. reflexivity.
  - cbn [is_empty].
    destruct (re_split (a :: sep) text) as [|p0 ps]; [constructor|].
    assert (H : Forall (fun s => startswith (a :: sep) s = true)
                  (filter (fun s => negb (is_empty s))
                     (map (fun p => (a :: sep) ++ p) ps))).
    { apply Forall_forall. intros s Hs. apply filter_In in Hs as [Hs _].
      apply in_map_iff in Hs as (q & <- & _). apply startswith_self. }
    cbn [filter]. destruct (negb (is_empty p0)).
    + exact H.
    + apply Forall_tl. exact H.
Qed.

(** X17: a chunk is a text that the splitter leaves alone: splitting the
    content of a document again gives that content back as the only chunk. *)
Theorem chunks_split_into_themselves (text : str) :
  exists frags,
    splitter_split_text text = Some frags
    /\ Forall (fun f => splitter_split_text f = Some [f]) frags.
Proof.
  destruct (splitter_chunks text) as (frags & E & H).
  exists frags. split; [exact E|].
  eapply Forall_impl; [|exact H]. simpl. intros f ((Hpos & Hle) & Hs & _).
  unfold splitter_split_text.
  rewrite split_text_short by lia. rewrite Hs.
  destruct f; [|reflexivity]. change (len []) with 0 in Hpos. lia.
Qed.

(** ** A description too long for one chunk *)

Lemma strip_pad (wa f wb : str) :
  squeeze wa = [] -> squeeze wb = [] -> strip (wa ++ f ++ wb) = strip f.
Proof.
  intros Ha Hb. rewrite app_assoc, strip_app_blank by exact Hb.
  unfold strip. rewrite lstrip_app, Ha. reflexivity.
Qed.

(** X18: a description that is longer than 1000 characters once the white
    space at its two ends is left out gives at least two chunks. *)
Theorem long_description_several_chunks (text : str) :
  1000 < len (strip text) ->
  exists frags,
    splitter_split_text text = Some frags /\ (2 <= length frags)%nat.
Proof.
  intros Hlong.
  destruct (splitter_chunks text) as (frags & E & H).
  exists frags. split; [exact E|].
  destruct (split_text_reconstructs 1000 100 text ltac:(lia) ltac:(lia))
    as (frags' & E' & cuts & Hlen & _ & Hlast & Hgaps).
  unfold splitter_split_text in E. rewrite E in E'. injection E' as <-.
  destruct frags as [|f [|f' frags]]; [| |simpl; lia]; exfalso.
  - destruct cuts; [|discriminate]. simpl in Hgaps. inversion Hgaps as [w Hw|].
    subst. apply strip_nil_iff in Hw. rewrite Hw in Hlong.
    change (len []) with 0 in Hlong. lia.
  - destruct cuts as [|k [|? ?]]; try discriminate.
    simpl in Hlast. subst k. unfold cut_each in Hgaps. simpl in Hgaps.
    rewrite drop_last_0 in Hgaps.
    inversion Hgaps as [|wa p pieces rest Hwa Hrest]; subst.
    inversion Hrest as [wb Hwb|]; subst.
    rewrite strip_pad in Hlong by assumption.
    inversion H as [|? ? ((_ & Hle) & _) _]; subst.
    pose proof (len_strip f). lia.
Qed.

Lemma long_description_several_chunks_witness :
  exists frags,
    splitter_split_text two_long_words = Some frags /\ (2 <= length frags)%nat.
Proof.
  apply (long_description_several_chunks two_long_words).
  vm_compute. reflexivity.
Defined.
